(** * upbit-connect: rate limiter, streaming session, signer and client

    A shallow embedding of [upbit_connect/limiter.py],
    [upbit_connect/websocket/client.py], [upbit_connect/auth.py] and the
    request path of [upbit_connect/_client_base.py] and
    [upbit_connect/client.py], with the properties of the rate limiter
    (leaky bucket, server feedback, backoff), of the WebSocket session
    (subscription frames, reconnect loop, backoff), of the signer and of
    the client.

    Conventions.
    - Python [int] is [Z]; [int(s)] keeps the interpreter's limit of
      4300 digits.
    - Python [float] timestamps and delays are rationals [Q], the exact
      values of the floats (every constant of the source, 1.0, 0.1,
      60.0, 2.0, is a rational). The rounding of float arithmetic is
      modelled where it decides a branch, in the test of the leak loop;
      the delays handed to [asyncio.sleep] are computed exactly.
    - Python [str] is [string], read as a sequence of code points below
      256.
    - [dict] with string keys is [gmap string _] where only lookups
      matter, and an insertion-ordered association list where the dict
      is serialised (JSON objects of a frame).
    - An [await] is a point where the environment answers: the answer is
      an explicit argument (a clock reading, the outcome of a send, ...).
    - The recursion of [wait_if_needed] is bounded by the recursion
      limit of the interpreter: the room it leaves is an argument of the
      call. *)

From Stdlib Require Import ZArith QArith Qminmax Lqa Lia Bool List Sorted Ascii String.
From stdpp Require Import base option list gmap strings.
Import ListNotations.

Local Open Scope string_scope.
Local Open Scope Z_scope.

(** ** Python values, exceptions and results *)

Module Py.

(** The exceptions that the two modules raise or catch. [CancelledError]
    derives from [BaseException], the others from [Exception]. *)
Inductive exn : Type :=
| ValueError (msg : string)
| KeyError (key : string)
| UpbitError (msg : string)
| UpbitRateLimitError (group : string) (used limit : Z)
| ConnectionClosed
| CancelledError
| OtherException (name : string).

(** [isinstance(e, Exception)] *)
Definition is_Exception (e : exn) : bool :=
  match e with
  | CancelledError => false
  | _ => true
  end.

Inductive result (A : Type) : Type :=
| Ok (a : A)
| Raise (e : exn).
Arguments Ok {A} a.
Arguments Raise {A} e.

Definition bind {A B} (r : result A) (k : A -> result B) : result B :=
  match r with
  | Ok a => k a
  | Raise e => Raise e
  end.

(** *** Strings *)

Definition code (c : ascii) : N := N_of_ascii c.

(** [str.isspace] on code points below 256: TAB..CR, FS..US, space,
    NEL and NBSP. *)
Definition is_space (c : ascii) : bool :=
  let n := code c in
  ((9 <=? n) && (n <=? 13) || (28 <=? n) && (n <=? 32)
   || (n =? 133) || (n =? 160))%N.

Definition is_digit (c : ascii) : bool :=
  let n := code c in ((48 <=? n) && (n <=? 57))%N.

Definition digit_val (c : ascii) : Z := Z.of_N (code c) - 48.

Fixpoint lstrip (s : string) : string :=
  match s with
  | EmptyString => EmptyString
  | String c r => if is_space c then lstrip r else s
  end.

Fixpoint rstrip (s : string) : string :=
  match s with
  | EmptyString => EmptyString
  | String c r =>
      match rstrip r with
      | EmptyString => if is_space c then EmptyString else String c EmptyString
      | r' => String c r'
      end
  end.

(** [s.strip()] *)
Definition strip (s : string) : string := rstrip (lstrip s).

(** [s.split(sep)] for a one-character separator *)
Fixpoint split (sep : ascii) (s : string) : list string :=
  match s with
  | EmptyString => [EmptyString]
  | String c r =>
      if Ascii.eqb c sep then EmptyString :: split sep r
      else match split sep r with
           | h :: t => String c h :: t
           | [] => [String c EmptyString]
           end
  end.

(** [sep in s] for a one-character [sep] *)
Fixpoint contains (sep : ascii) (s : string) : bool :=
  match s with
  | EmptyString => false
  | String c r => Ascii.eqb c sep || contains sep r
  end.

(** [s.split(sep, 1)] when [sep in s]: the text before the first
    separator and the text after it. *)
Fixpoint split_once (sep : ascii) (s : string) : string * string :=
  match s with
  | EmptyString => (EmptyString, EmptyString)
  | String c r =>
      if Ascii.eqb c sep then (EmptyString, r)
      else let (k, v) := split_once sep r in (String c k, v)
  end.

(** The digits of an [int] literal: one or more digits, single
    underscores allowed between digits. [need] says that a digit must
    come next. *)
Fixpoint int_digits (need : bool) (acc : Z) (s : string) : option Z :=
  match s with
  | EmptyString => if need then None else Some acc
  | String c r =>
      if is_digit c then int_digits false (acc * 10 + digit_val c) r
      else if Ascii.eqb c "_" && negb need then int_digits true acc r
      else None
  end.

(** The whitespace that [int] skips at both ends of a string. It is
    narrower than [str.isspace]: the separators FS..US are not skipped. *)
Definition is_int_space (c : ascii) : bool :=
  let n := code c in
  ((9 <=? n) && (n <=? 13) || (n =? 32) || (n =? 133) || (n =? 160))%N.

Fixpoint int_lstrip (s : string) : string :=
  match s with
  | EmptyString => EmptyString
  | String c r => if is_int_space c then int_lstrip r else s
  end.

Fixpoint int_rstrip (s : string) : string :=
  match s with
  | EmptyString => EmptyString
  | String c r =>
      match int_rstrip r with
      | EmptyString =>
          if is_int_space c then EmptyString else String c EmptyString
      | r' => String c r'
      end
  end.

(** The number of digits of a literal (signs and underscores are not
    counted, leading zeros are). *)
Fixpoint digit_count (s : string) : Z :=
  match s with
  | EmptyString => 0
  | String c r => (if is_digit c then 1 else 0) + digit_count r
  end.

(** [sys.get_int_max_str_digits()], at its default. *)
Definition MAX_STR_DIGITS : Z := 4300.

(** [int(s)] for a string: surrounding whitespace, an optional sign,
    decimal digits; a literal of more than [MAX_STR_DIGITS] digits is
    refused. [None] stands for [ValueError]. *)
Definition int (s : string) : option Z :=
  let t := int_rstrip (int_lstrip s) in
  if MAX_STR_DIGITS <? digit_count t then None
  else
    match t with
    | String "-" r => Z.opp <$> int_digits true 0 r
    | String "+" r => int_digits true 0 r
    | _ => int_digits true 0 t
    end.

(** [RecursionError], raised when a call would exceed the recursion
    limit of the interpreter; it derives from [Exception]. *)
Definition RecursionError : exn := OtherException "RecursionError".

(** Only whitespace. *)
Fixpoint all_space (s : string) : bool :=
  match s with
  | EmptyString => true
  | String c r => is_space c && all_space r
  end.

(** No whitespace at either end. *)
Definition trimmed (s : string) : Prop := strip s = s.

(** [not s] *)
Definition is_empty (s : string) : bool :=
  match s with
  | EmptyString => true
  | _ => false
  end.

End Py.

Import Py.

(** ** The rate limiter ([limiter.py]) *)

Module Limiter.

(** Values stored by [parse_remaining_req]: [int] under [min] and
    [sec], [str] under any other key. *)
Inductive pyval : Type :=
| PInt (n : Z)
| PStr (s : string).

(** The loop of [parse_remaining_req] over the parts of the header. *)
Fixpoint parse_parts (parts : list string) (result : gmap string pyval)
  : Py.result (gmap string pyval) :=
  match parts with
  | [] => Ok result
  | raw_part :: rest =>
      let part := strip raw_part in
      if negb (contains "=" part) then parse_parts rest result
      else
        let (key0, value0) := split_once "=" part in
        let key := strip key0 in
        let value := strip value0 in
        if String.eqb key "min" || String.eqb key "sec" then
          match Py.int value with
          | Some n => parse_parts rest (<[key := PInt n]> result)
          | None =>
              Raise (ValueError
                       ("Invalid numeric value for " ++ key ++ ": " ++ value))
          end
        else parse_parts rest (<[key := PStr value]> result)
  end.

Definition parse_remaining_req (header_value : string)
  : Py.result (gmap string pyval) :=
  if is_empty header_value then
    Raise (ValueError "Empty Remaining-Req header")
  else
    bind (parse_parts (split ";" header_value) ∅) (fun result =>
    if negb (bool_decide (is_Some (result !! "group"))) then
      Raise (ValueError "Missing 'group' in Remaining-Req header")
    else if negb (bool_decide (is_Some (result !! "sec")))
            && negb (bool_decide (is_Some (result !! "min"))) then
      Raise (ValueError "Missing rate limit values in Remaining-Req header")
    else Ok result).

(** The attributes of a [RateLimiter]. *)
Record t : Type := mk {
  group_name : string;
  max_requests : Z;
  remaining : option Z;
  auto_retry : bool;
  bucket : list Q;          (* deque, oldest first *)
  retry_count : Z;
  max_retries : Z;
  base_delay : Q;
  max_delay : Q
}.

(** [RateLimiter.__init__] *)
Definition init (group_name : string) (max_requests : Z) (auto_retry : bool)
  : t :=
  {| group_name := group_name;
     max_requests := max_requests;
     remaining := None;
     auto_retry := auto_retry;
     bucket := [];
     retry_count := 0;
     max_retries := 5;
     base_delay := 1;
     max_delay := 60 |}.

Definition set_remaining (s : t) (r : option Z) : t :=
  mk (group_name s) (max_requests s) r (auto_retry s) (bucket s)
     (retry_count s) (max_retries s) (base_delay s) (max_delay s).

Definition set_bucket (s : t) (b : list Q) : t :=
  mk (group_name s) (max_requests s) (remaining s) (auto_retry s) b
     (retry_count s) (max_retries s) (base_delay s) (max_delay s).

Definition set_retry_count (s : t) (k : Z) : t :=
  mk (group_name s) (max_requests s) (remaining s) (auto_retry s) (bucket s)
     k (max_retries s) (base_delay s) (max_delay s).

(** The float test [current_time - oldest >= 1.0] on the exact values
    of the two floats. The subtraction is rounded to the nearest float,
    ties to even, so its result is at least 1.0 exactly when the exact
    difference is at least [1 - 2^-54], halfway between 1.0 and the
    float below it. *)
Definition ONE_ROUNDED : Q := 1 - (1 # (2 ^ 54)%positive).

Definition aged (current_time oldest : Q) : bool :=
  Qle_bool ONE_ROUNDED (current_time - oldest).

(** The leak loop:
    [while self._bucket and current_time - self._bucket[0] >= 1.0:
       self._bucket.popleft()] *)
Fixpoint leak (current_time : Q) (b : list Q) : list Q :=
  match b with
  | [] => []
  | oldest :: rest =>
      if aged current_time oldest then leak current_time rest
      else b
  end.

(** [effective_limit] as [wait_if_needed] computes it. *)
Definition effective_limit (s : t) : Z :=
  match remaining s with
  | Some r => if r <? max_requests s then r else max_requests s
  | None => max_requests s
  end.

(** [2**k] for an [int] exponent: an integer for [k >= 0], the
    reciprocal power otherwise. *)
Definition pow2 (k : Z) : Q := Qpower 2 k.

Definition base_wait (current_time : Q) (b : list Q) : Q :=
  match b with
  | oldest_request :: _ => Qmax 0 (1 - (current_time - oldest_request))
  | [] => 1 # 10
  end.

Definition wait_time (s : t) (current_time : Q) : Q :=
  let backoff_multiplier := pow2 (retry_count s) in
  Qmin (base_wait current_time (bucket s) * backoff_multiplier
        + base_delay s * backoff_multiplier)
       (max_delay s).

(** One pass through the body of [wait_if_needed], from the clock
    reading to the first of: the slot is taken, the error is raised,
    the coroutine suspends in [asyncio.sleep]. *)
Inductive pass : Type :=
| Acquired (s' : t)
| Exceeded (e : exn) (s' : t)
| Sleeps (delay : Q) (s' : t).

Definition wait_if_needed_pass (s : t) (current_time : Q) : pass :=
  let s1 := set_bucket s (leak current_time (bucket s)) in
  let effective_limit := effective_limit s1 in
  if Z.of_nat (length (bucket s1)) >=? effective_limit then
    if negb (auto_retry s1) then
      Exceeded (UpbitRateLimitError (group_name s1)
                  (Z.of_nat (length (bucket s1))) effective_limit) s1
    else
      let d := wait_time s1 current_time in
      Sleeps d
        (set_retry_count s1 (Z.min (retry_count s1 + 1) (max_retries s1)))
  else
    Acquired (set_bucket (set_retry_count s1 0)
                (bucket s1 ++ [current_time])).

(** [headers.get("Remaining-Req") or headers.get("remaining-req")] *)
Definition remaining_req_header (headers : gmap string string)
  : option string :=
  match headers !! "Remaining-Req" with
  | Some v => if is_empty v then headers !! "remaining-req" else Some v
  | None => headers !! "remaining-req"
  end.

(** [v == s] for the result [v] of a [dict.get] and a string [s] *)
Definition pyval_eq_str (v : option pyval) (s : string) : bool :=
  match v with
  | Some (PStr g) => String.eqb g s
  | _ => false
  end.

(** The [try] block of [update_from_headers]. *)
Definition update_try (s : t) (remaining_req : string) : Py.result t :=
  bind (parse_remaining_req remaining_req) (fun parsed =>
  if negb (pyval_eq_str (parsed !! "group") (group_name s)) then Ok s
  else
    match parsed !! "sec" with
    | Some (PInt n) => Ok (set_remaining s (Some n))
    | Some (PStr _) => Ok s   (* not produced by the parser *)
    | None => Ok s
    end).

(** [update_from_headers]: [ValueError] is caught, anything else
    propagates. *)
Definition update_from_headers (s : t) (headers : gmap string string)
  : Py.result t :=
  match remaining_req_header headers with
  | None => Ok s
  | Some remaining_req =>
      if is_empty remaining_req then Ok s
      else
        match update_try s remaining_req with
        | Ok s' => Ok s'
        | Raise (ValueError _) => Ok s
        | Raise e => Raise e
        end
  end.

(** [reset] *)
Definition reset (s : t) : t :=
  set_remaining (set_retry_count (set_bucket s []) 0) None.

(** What can happen to the limiter while a call of [wait_if_needed] is
    suspended in [asyncio.sleep]: the owner of the limiter observes a
    response, resets the limiter, or another task runs one pass of its
    own [wait_if_needed]. *)
Inductive action : Type :=
| Observe (headers : gmap string string)
| Reset
| Concurrent (current_time : Q).

Definition pass_state (p : pass) : t :=
  match p with
  | Acquired s' | Exceeded _ s' | Sleeps _ s' => s'
  end.

Definition apply_action (s : t) (a : action) : t :=
  match a with
  | Observe headers =>
      match update_from_headers s headers with
      | Ok s' => s'
      | Raise _ => s
      end
  | Reset => reset s
  | Concurrent current_time =>
      pass_state (wait_if_needed_pass s current_time)
  end.

Definition apply_actions (s : t) (l : list action) : t :=
  fold_left apply_action l s.

(** One resumption of [wait_if_needed]: the value [time.time()]
    returns, and what happens to the limiter during the sleep that
    follows when the pass ends in one. *)
Record tick : Type := mk_tick {
  now : Q;
  during_sleep : list action
}.

Inductive outcome : Type :=
| Returned (s' : t) (slept : list Q)
| Raised (e : exn) (s' : t) (slept : list Q)
| Suspended (s' : t) (slept : list Q).

(** [wait_if_needed] against the clock readings [ticks]. The recursive
    call after the sleep is the recursive call here; when the readings
    run out the coroutine is still suspended. [slept] collects the
    arguments of the calls of [asyncio.sleep] that returned, oldest
    first.

    Each sleep is followed by a call of [wait_if_needed] nested in the
    one that slept, so the stack of the interpreter grows by one frame a
    sleep. [depth] is the number of sleeps that the recursion limit
    leaves room for (it depends on [sys.getrecursionlimit()] and on how
    deep the caller is; about 980 for a call from a task at the default
    limit of 1000). The pass that would sleep beyond it gets a
    [RecursionError] from inside [asyncio.sleep], before the coroutine
    suspends and after the retry count was raised; no frame catches
    it. *)
Fixpoint wait_if_needed_from (depth : nat) (slept : list Q) (s : t)
    (ticks : list tick) {struct ticks} : outcome :=
  match ticks with
  | [] => Suspended s slept
  | tk :: rest =>
      match wait_if_needed_pass s (now tk) with
      | Acquired s' => Returned s' slept
      | Exceeded e s' => Raised e s' slept
      | Sleeps d s' =>
          match depth with
          | O => Raised RecursionError s' slept
          | S depth' =>
              wait_if_needed_from depth' (slept ++ [d])
                (apply_actions s' (during_sleep tk)) rest
          end
      end
  end.

Definition wait_if_needed (depth : nat) : t -> list tick -> outcome :=
  wait_if_needed_from depth [].

(** A history of the limiter: calls of [wait_if_needed] (each with the
    room the recursion limit leaves it and the clock readings it sees)
    and other operations between them. *)
Inductive call : Type :=
| Acquire (depth : nat) (ticks : list tick)
| Between (a : action).

(** The states of the limiter immediately after each call of
    [wait_if_needed] that returned, in order. *)
Fixpoint after_acquires (s : t) (calls : list call) : list t :=
  match calls with
  | [] => []
  | Between a :: rest => after_acquires (apply_action s a) rest
  | Acquire depth ticks :: rest =>
      match wait_if_needed depth s ticks with
      | Returned s' _ => s' :: after_acquires s' rest
      | Raised _ s' _ => after_acquires s' rest
      | Suspended s' _ => after_acquires s' rest
      end
  end.

(** [len(window) <= effectiveCapacity] *)
Definition within_capacity (s : t) : Prop :=
  Z.of_nat (length (bucket s)) <= effective_limit s.

(** The constants [__init__] gives to every limiter. *)
Definition configured (s : t) : Prop :=
  max_retries s = 5 /\ base_delay s = 1%Q /\ max_delay s = 60%Q.

(** The delay of the specification: [baseWait] is the time until the
    oldest slot frees, or 0.1 for an empty window; the delay is
    [min(baseWait * 2^k + 1.0 * 2^k, 60.0)]. *)
Definition spec_base_wait (current_time : Q) (window : list Q) : Q :=
  match window with
  | w0 :: _ => Qmax 0 (1 - (current_time - w0))
  | [] => 1 # 10
  end.

Definition spec_delay (current_time : Q) (window : list Q) (k : Z) : Q :=
  Qmin (spec_base_wait current_time window * Qpower 2 k + 1 * Qpower 2 k) 60.

(** The timestamp [e] is within the second that ends at [current_time]. *)
Definition recent (current_time e : Q) : bool :=
  negb (Qle_bool 1 (current_time - e)).

(** The parser stores integers under [sec]. *)
Definition sec_is_int (m : gmap string pyval) : Prop :=
  forall v, m !! "sec" = Some v -> exists n, v = PInt n.

(** A sleep during which only other tasks run passes of their own. *)
Definition only_concurrent (tk : tick) : Prop :=
  Forall (fun a => match a with Concurrent _ => True | _ => False end)
         (during_sleep tk).

(** Every attribute of the limiter but [remaining] is the same in [s]
    and [s']. *)
Definition same_but_remaining (s s' : t) : Prop :=
  group_name s' = group_name s /\ max_requests s' = max_requests s
  /\ auto_retry s' = auto_retry s /\ bucket s' = bucket s
  /\ retry_count s' = retry_count s /\ max_retries s' = max_retries s
  /\ base_delay s' = base_delay s /\ max_delay s' = max_delay s.

(** The headers carry a quota header that parses, names the group of
    the limiter and reports [n] requests left in the second. *)
Definition reports (s : t) (headers : gmap string string) (n : Z) : Prop :=
  exists (h : string) (parsed : gmap string pyval),
    remaining_req_header headers = Some h
    /\ parse_remaining_req h = Ok parsed
    /\ parsed !! "group" = Some (PStr (group_name s))
    /\ parsed !! "sec" = Some (PInt n).

End Limiter.

(** ** The streaming session ([websocket/client.py]) *)

Module Stream.

Local Open Scope list_scope.

(** The values of a channel spec and of a frame ([dict[str, Any]] that
    [json.dumps] accepts). A [dict] keeps insertion order. *)
#[warnings="-register-all"]
Inductive json : Type :=
| JNull
| JBool (b : bool)
| JInt (n : Z)
| JStr (s : string)
| JList (l : list json)
| JDict (d : list (string * json)).

Definition dict : Type := list (string * json).

(** [d.get(k)] *)
Fixpoint dict_get (d : dict) (k : string) : option json :=
  match d with
  | [] => None
  | (k', v) :: rest => if String.eqb k' k then Some v else dict_get rest k
  end.

(** [k in d] *)
Definition dict_has (d : dict) (k : string) : bool :=
  match dict_get d k with
  | Some _ => true
  | None => false
  end.

(** [d[k] = v] *)
Fixpoint dict_set (d : dict) (k : string) (v : json) : dict :=
  match d with
  | [] => [(k, v)]
  | (k', v') :: rest =>
      if String.eqb k' k then (k', v) :: rest
      else (k', v') :: dict_set rest k v
  end.

Definition dict_keys (d : dict) : list string := map fst d.

(** A connection object, known by its identity. *)
Definition conn : Type := nat.

Definition subscription : Type := string * list dict.

(** The attributes of an [UpbitWebSocket]. *)
Record t : Type := mk {
  access_key : option string;
  secret_key : option string;
  websocket : option conn;
  subscriptions : list subscription;
  running : bool;
  reconnect_delay : Q
}.

Definition RECONNECT_DELAY : Q := 1.
Definition MAX_RECONNECT_DELAY : Q := 60.

(** [UpbitWebSocket.__init__] *)
Definition init (access_key secret_key : option string) : t :=
  {| access_key := access_key;
     secret_key := secret_key;
     websocket := None;
     subscriptions := [];
     running := false;
     reconnect_delay := RECONNECT_DELAY |}.

Definition set_websocket (s : t) (w : option conn) : t :=
  mk (access_key s) (secret_key s) w (subscriptions s) (running s)
     (reconnect_delay s).

Definition set_subscriptions (s : t) (l : list subscription) : t :=
  mk (access_key s) (secret_key s) (websocket s) l (running s)
     (reconnect_delay s).

Definition set_running (s : t) (b : bool) : t :=
  mk (access_key s) (secret_key s) (websocket s) (subscriptions s) b
     (reconnect_delay s).

Definition set_reconnect_delay (s : t) (d : Q) : t :=
  mk (access_key s) (secret_key s) (websocket s) (subscriptions s)
     (running s) d.

(** Truth value of an optional string: [None] and [""] are false. *)
Definition truthy (k : option string) : bool :=
  match k with
  | Some v => negb (is_empty v)
  | None => false
  end.

(** [ch.get("type") in ("myOrder", "myAsset")] *)
Definition is_private (ch : dict) : bool :=
  match dict_get ch "type" with
  | Some (JStr ty) => String.eqb ty "myOrder" || String.eqb ty "myAsset"
  | _ => false
  end.

(** [any(... for ch in channels)] *)
Definition has_private_channel (channels : list dict) : bool :=
  existsb is_private channels.

(** [if k in channel: channel_msg[k] = channel[k]] *)
Definition copy_if_present (k : string) (channel channel_msg : dict) : dict :=
  match dict_get channel k with
  | Some v => dict_set channel_msg k v
  | None => channel_msg
  end.

(** The body of the [for channel in channels] loop. [channel["type"]]
    raises [KeyError] when the key is missing. *)
Definition channel_msg (channel : dict) : Py.result dict :=
  match dict_get channel "type" with
  | None => Raise (KeyError "type")
  | Some ty =>
      Ok (copy_if_present "isOnlySnapshot" channel
            (copy_if_present "isOnlyRealtime" channel
               (copy_if_present "codes" channel [("type", ty)])))
  end.

Fixpoint channel_msgs (channels : list dict) : Py.result (list dict) :=
  match channels with
  | [] => Ok []
  | channel :: rest =>
      bind (channel_msg channel) (fun m =>
      bind (channel_msgs rest) (fun ms => Ok (m :: ms)))
  end.

Definition format_msg : dict := [("format", JStr "DEFAULT")].

(** The outcome of an [await]: the awaited call returns a value or
    raises. *)
Inductive awaited (A : Type) : Type :=
| Done (a : A)
| Thrown (e : exn).
Arguments Done {A} a.
Arguments Thrown {A} e.

(** What the session does to the outside, in order. *)
Inductive effect : Type :=
| Send (c : conn) (frame : list dict)   (* websocket.send(json.dumps(frame)) *)
| Sleep (delay : Q)                     (* asyncio.sleep(delay) *)
| Callback (message : string)           (* callback(parsed) *)
| CloseConn (c : conn).                 (* websocket.close() *)

Section WithCollaborators.

(** The signer of [auth.py]. Its last argument stands for the nonce
    and the timestamp that the signer draws on each call: the number
    of calls made before. *)
Variable generate_jwt_token :
  string -> string -> option dict -> option dict -> nat -> string.

(** [json.loads] followed by [_parse_message]: [true] when both
    return, [false] when one of them raises. *)
Variable parses : string -> bool.

(** [connect], given the outcome of [websockets.connect]. *)
Definition connect (s : t) (o : awaited conn) : Py.result unit * t :=
  match o with
  | Done c =>
      (Ok tt,
       set_reconnect_delay (set_running (set_websocket s (Some c)) true)
         RECONNECT_DELAY)
  | Thrown e =>
      if is_Exception e then
        (Raise (UpbitError "WebSocket connection failed"), s)
      else (Raise e, s)
  end.

(** [ticket_msg] of [subscribe]; [draw] counts the earlier calls of
    the signer. *)
Definition ticket_msg (s : t) (draw : nat) (ticket : string)
    (channels : list dict) : dict :=
  match access_key s, secret_key s with
  | Some ak, Some sk =>
      if truthy (Some ak) && truthy (Some sk) then
        if has_private_channel channels then
          dict_set [("ticket", JStr ticket)] "auth"
            (JStr (generate_jwt_token ak sk None None draw))
        else [("ticket", JStr ticket)]
      else [("ticket", JStr ticket)]
  | _, _ => [("ticket", JStr ticket)]
  end.

(** Whether [subscribe] calls the signer. *)
Definition signs (s : t) (channels : list dict) : bool :=
  truthy (access_key s) && truthy (secret_key s)
  && has_private_channel channels.

(** [subscribe] up to its [await]: the connection to send on, the
    frame handed to [json.dumps], and the number of signer calls. *)
Definition subscribe_begin (s : t) (draw : nat) (ticket : string)
    (channels : list dict) : Py.result (conn * list dict) * nat :=
  match websocket s with
  | None => (Raise (UpbitError "Not connected to WebSocket"), draw)
  | Some c =>
      let tm := ticket_msg s draw ticket channels in
      let draw' := if signs s channels then S draw else draw in
      (bind (channel_msgs channels) (fun ms =>
         Ok (c, tm :: ms ++ [format_msg])), draw')
  end.

(** [subscribe] from the outcome of the send. *)
Definition subscribe_end (s : t) (ticket : string) (channels : list dict)
    (o : awaited unit) : Py.result unit * t :=
  match o with
  | Done _ =>
      (Ok tt,
       set_subscriptions s (subscriptions s ++ [(ticket, channels)]))
  | Thrown e => (Raise e, s)
  end.

(** A whole call of [subscribe]. *)
Definition subscribe (s : t) (draw : nat) (ticket : string)
    (channels : list dict) (o : awaited unit)
  : Py.result unit * t * nat * list effect :=
  match subscribe_begin s draw ticket channels with
  | (Raise e, draw') => (Raise e, s, draw', [])
  | (Ok (c, frame), draw') =>
      let (r, s') := subscribe_end s ticket channels o in
      (r, s', draw', [Send c frame])
  end.

(** [unsubscribe] *)
Definition unsubscribe (s : t) (ticket : string) : t :=
  set_subscriptions s
    (filter (fun sub => negb (String.eqb (fst sub) ticket))
       (subscriptions s)).

(** [close], given the outcome of [websocket.close()] (not awaited
    when there is no connection). *)
Definition close (s : t) (o : awaited unit)
  : Py.result unit * t * list effect :=
  let s1 := set_running s false in
  match websocket s1 with
  | None => (Ok tt, s1, [])
  | Some c =>
      match o with
      | Done _ => (Ok tt, set_websocket s1 None, [CloseConn c])
      | Thrown e => (Raise e, s1, [CloseConn c])
      end
  end.

(** *** The loop of [run]

    [run] is suspended at one of its [await]s, or has finished. The
    [async for] iterates over the connection object it started with. *)
Inductive pc : Type :=
| AtConnect                       (* websockets.connect, in self.connect() *)
| AtSend (ticket : string) (channels : list dict)
         (rest : list subscription) (* websocket.send, in _resubscribe *)
| AtRecv (c : conn)               (* next message of the async for *)
| AtCallback (c : conn)           (* callback(parsed) *)
| AtSleep                         (* asyncio.sleep, in an except clause *)
| Finished (r : Py.result unit).

(** What resumes a suspended [run]. *)
Inductive event : Type :=
| EvConn (c : conn)               (* websockets.connect returned c *)
| EvDone                          (* send, callback or sleep returned *)
| EvItem (message : string)       (* the connection yielded a message *)
| EvStop                          (* the iteration over the connection ended *)
| EvThrown (e : exn).             (* the awaited call raised e *)

(** The state of a suspended [run]: the session, the signer calls made
    so far, where [run] is. *)
Definition config : Type := t * nat * pc.

(** The test of [while self.running] and the start of the [try] body. *)
Definition loop_head (s : t) (draw : nat) : config * list effect :=
  if running s then
    match websocket s with
    | None => ((s, draw, AtConnect), [])
    | Some c => ((s, draw, AtRecv c), [])
    end
  else ((s, draw, Finished (Ok tt)), []).

(** The [except] clauses of [run] for an exception raised in the [try]
    body. *)
Definition handle (s : t) (draw : nat) (e : exn) : config * list effect :=
  match e with
  | ConnectionClosed =>
      if running s then
        ((set_websocket s None, draw, AtSleep), [Sleep (reconnect_delay s)])
      else loop_head s draw
  | CancelledError =>
      ((set_running s false, draw, Finished (Raise CancelledError)), [])
  | _ =>
      if running s then
        ((set_websocket s None, draw, AtSleep), [Sleep (reconnect_delay s)])
      else ((s, draw, Finished (Raise (UpbitError "WebSocket error"))), [])
  end.

(** After [connect] and [_resubscribe]: [if self.websocket is None:
    continue], else the [async for] starts. *)
Definition after_resubscribe (s : t) (draw : nat) : config * list effect :=
  match websocket s with
  | None => loop_head s draw
  | Some c => ((s, draw, AtRecv c), [])
  end.

(** The [for ticket, channels in subs_to_restore] loop of
    [_resubscribe], up to the next [await]. *)
Definition replay (s : t) (draw : nat) (pending : list subscription)
  : config * list effect :=
  match pending with
  | [] => after_resubscribe s draw
  | (ticket, channels) :: rest =>
      match subscribe_begin s draw ticket channels with
      | (Ok (c, frame), draw') =>
          ((s, draw', AtSend ticket channels rest), [Send c frame])
      | (Raise e, draw') => handle s draw' e
      end
  end.

(** [_resubscribe] up to its first [await]. *)
Definition resubscribe (s : t) (draw : nat) : config * list effect :=
  let subs_to_restore := subscriptions s in
  replay (set_subscriptions s []) draw subs_to_restore.

(** [run] from the answer to the [await] it is suspended at, up to the
    next [await]. An answer of the wrong kind leaves it suspended. *)
Definition resume (k : config) (ev : event) : config * list effect :=
  let '(s, draw, p) := k in
  match p, ev with
  | AtConnect, EvConn c =>
      match connect s (Done c) with
      | (Ok _, s') => resubscribe s' draw
      | (Raise e, s') => handle s' draw e
      end
  | AtConnect, EvThrown e =>
      match connect s (Thrown e) with
      | (Ok _, s') => resubscribe s' draw
      | (Raise e', s') => handle s' draw e'
      end
  | AtSend ticket channels rest, EvDone =>
      match subscribe_end s ticket channels (Done tt) with
      | (Ok _, s') => replay s' draw rest
      | (Raise e, s') => handle s' draw e
      end
  | AtSend ticket channels rest, EvThrown e =>
      match subscribe_end s ticket channels (Thrown e) with
      | (Ok _, s') => replay s' draw rest
      | (Raise e', s') => handle s' draw e'
      end
  | AtRecv c, EvItem message =>
      if parses message then ((s, draw, AtCallback c), [Callback message])
      else handle s draw (OtherException "decode")
  | AtRecv c, EvStop => loop_head s draw
  | AtRecv c, EvThrown e => handle s draw e
  | AtCallback c, EvDone => ((s, draw, AtRecv c), [])
  | AtCallback c, EvThrown e => handle s draw e
  | AtSleep, EvDone =>
      loop_head
        (set_reconnect_delay s
           (Qmin (reconnect_delay s * 2) MAX_RECONNECT_DELAY)) draw
  | AtSleep, EvThrown e => ((s, draw, Finished (Raise e)), [])
  | _, _ => (k, [])
  end.

(** [run] against the answers [evs], the effects [out] so far being
    extended in order. *)
Fixpoint resume_all (r : config * list effect) (evs : list event)
  : config * list effect :=
  match evs with
  | [] => r
  | ev :: rest =>
      let (k, out) := r in
      let (k1, out1) := resume k ev in
      resume_all (k1, out ++ out1) rest
  end.

(** A call of [run] from its start. *)
Definition run (s : t) (draw : nat) (evs : list event)
  : config * list effect :=
  resume_all (loop_head s draw) evs.

(** The [await]s inside the [try] block of [run]. *)
Definition in_try (p : pc) : bool :=
  match p with
  | AtConnect | AtSend _ _ _ | AtRecv _ | AtCallback _ => true
  | AtSleep | Finished _ => false
  end.

(** The answers of [n] rounds that fail: the awaited call raises, the
    sleep of the handler returns. *)
Definition failures (es : list exn) : list event :=
  flat_map (fun e => [EvThrown e; EvDone]) es.

(** Every channel spec has a [type]. *)
Definition typed (channels : list dict) : Prop :=
  Forall (fun ch => dict_has ch "type" = true) channels.

(** What one element of the frame carries, for the channel spec it
    comes from: the [type], and each of the three optional keys
    exactly when the spec has it, with the value of the spec; no other
    key. *)
Definition carries (channel m : dict) : Prop :=
  dict_get m "type" = dict_get channel "type"
  /\ dict_get m "codes" = dict_get channel "codes"
  /\ dict_get m "isOnlyRealtime" = dict_get channel "isOnlyRealtime"
  /\ dict_get m "isOnlySnapshot" = dict_get channel "isOnlySnapshot"
  /\ forall k, In k (dict_keys m) ->
               k = "type" \/ k = "codes" \/ k = "isOnlyRealtime"
               \/ k = "isOnlySnapshot".

(** Both credentials are configured: neither key is missing or empty. *)
Definition credentials (s : t) (ak sk : string) : Prop :=
  access_key s = Some ak /\ secret_key s = Some sk
  /\ ak <> EmptyString /\ sk <> EmptyString.

(** The channel spec is of a private type. *)
Definition private_spec (channel : dict) : Prop :=
  dict_get channel "type" = Some (JStr "myOrder")
  \/ dict_get channel "type" = Some (JStr "myAsset").

(** Every attribute of the session but [subscriptions] is the same in
    [s] and [s']. *)
Definition same_but_subscriptions (s s' : t) : Prop :=
  access_key s' = access_key s /\ secret_key s' = secret_key s
  /\ websocket s' = websocket s /\ running s' = running s
  /\ reconnect_delay s' = reconnect_delay s.

(** The frame is the one [subscribe] builds for the pair on [s]. *)
Definition built_for (s : t) (sub : subscription)
    (f : conn * list dict) : Prop :=
  exists d d', subscribe_begin s d (fst sub) (snd sub) = (Ok f, d').

(** The session of a configuration. *)
Definition cfg_sess (r : config * list effect) : t := fst (fst (fst r)).

(** The arguments of [asyncio.sleep] among the effects. *)
Definition sleeps (out : list effect) : list Q :=
  omap (fun e => match e with Sleep d => Some d | _ => None end) out.

(** The frames sent among the effects. *)
Definition frames (out : list effect) : list (conn * list dict) :=
  omap (fun e => match e with Send c f => Some (c, f) | _ => None end) out.

(** *** The session with its caller

    The caller's own calls run to completion (each is given the outcome
    of its one [await]); the task running [run] is resumed between
    them. *)
Inductive op : Type :=
| Connect (o : awaited conn)
| Subscribe (ticket : string) (channels : list dict) (o : awaited unit)
| Unsubscribe (ticket : string)
| Close (o : awaited unit)
| RunStart
| RunResume (ev : event).

Record machine : Type := mk_machine {
  sess : t;
  draws : nat;
  task : option pc        (* the task running [run], when there is one *)
}.

Definition start (access_key secret_key : option string) : machine :=
  {| sess := init access_key secret_key; draws := 0; task := None |}.

Definition exec (m : machine) (o : op) : machine :=
  match o with
  | Connect oc =>
      mk_machine (snd (connect (sess m) oc)) (draws m) (task m)
  | Subscribe ticket channels os =>
      let '(_, s', d', _) :=
        subscribe (sess m) (draws m) ticket channels os in
      mk_machine s' d' (task m)
  | Unsubscribe ticket =>
      mk_machine (unsubscribe (sess m) ticket) (draws m) (task m)
  | Close oc =>
      let '(_, s', _) := close (sess m) oc in
      mk_machine s' (draws m) (task m)
  | RunStart =>
      match task m with
      | Some (Finished _) | None =>
          let '((s', d', p), _) := loop_head (sess m) (draws m) in
          mk_machine s' d' (Some p)
      | Some _ => m
      end
  | RunResume ev =>
      match task m with
      | Some p =>
          let '((s', d', p'), _) := resume (sess m, draws m, p) ev in
          mk_machine s' d' (Some p')
      | None => m
      end
  end.

Definition exec_all (m : machine) (ops : list op) : machine :=
  fold_left exec ops m.

(** [connection is not None] implies [isRunning] *)
Definition connected_implies_running (s : t) : Prop :=
  websocket s <> None -> running s = true.

(** The steps after which a connection can be held by a session that
    is not running: a cancellation delivered to [run], and a [close]
    whose [websocket.close()] raises. *)
Definition disturbs (o : op) : bool :=
  match o with
  | RunResume (EvThrown CancelledError) => true
  | Close (Thrown _) => true
  | _ => false
  end.

End WithCollaborators.

(** The delays of [n] rounds of backoff from the delay [d]: sleep [d],
    then go on from [min(d * 2, MAX_RECONNECT_DELAY)]. *)
Fixpoint backoff_from (d : Q) (n : nat) : list Q :=
  match n with
  | O => []
  | S n' => d :: backoff_from (Qmin (d * 2) MAX_RECONNECT_DELAY) n'
  end.

(** The sequence of the specification: 1, 2, 4, 8, 16, 32, 60, 60, ... *)
Definition spec_backoff (i : nat) : Q :=
  inject_Z (Z.min (2 ^ Z.of_nat i) 60).

(** Channel specs and a session for the examples. *)
Definition ticker_btc : dict :=
  [("type", JStr "ticker"); ("codes", JList [JStr "KRW-BTC"])].

Definition orderbook_eth : dict :=
  [("type", JStr "orderbook"); ("codes", JList [JStr "KRW-ETH"])].

Definition my_order : dict := [("type", JStr "myOrder")].

(** A running session on connection [c] that tracks [subs]. *)
Definition connected (ak sk : option string) (c : conn)
    (subs : list subscription) : t :=
  set_subscriptions (set_running (set_websocket (init ak sk) (Some c)) true)
    subs.

(** Collaborators to run the session on examples: a signer that
    records its arguments, a decoder that accepts every message. *)
Definition sample_signer (ak sk : string) (_ _ : option dict) (n : nat)
  : string :=
  (ak ++ "." ++ sk ++ "." ++ String (ascii_of_nat (48 + n)) "")%string.

Definition sample_parses (_ : string) : bool := true.

End Stream.

(** ** Histories of a limiter *)

Module History.

Import Limiter.
Local Open Scope list_scope.

Definition outcome_state (o : outcome) : t :=
  match o with
  | Returned s' _ | Raised _ s' _ | Suspended s' _ => s'
  end.

(** The limiter after one call of its owner: a call of [wait_if_needed]
    (left where the clock readings leave it) or another operation. *)
Definition after_call (s : t) (c : call) : t :=
  match c with
  | Acquire depth ticks => outcome_state (wait_if_needed depth s ticks)
  | Between a => apply_action s a
  end.

Definition after_calls (s : t) (calls : list call) : t :=
  fold_left after_call calls s.

(** One pass of [wait_if_needed], by whichever task, at [now tk],
    followed by the operations [during_sleep tk]. *)
Definition pass_then (s : t) (tk : tick) : t :=
  apply_actions (pass_state (wait_if_needed_pass s (now tk))) (during_sleep tk).

Definition takes_slot (s : t) (current_time : Q) : bool :=
  match wait_if_needed_pass s current_time with
  | Acquired _ => true
  | _ => false
  end.

(** The timestamps of the passes that took a slot, oldest first. *)
Fixpoint granted (s : t) (ticks : list tick) : list Q :=
  match ticks with
  | [] => []
  | tk :: rest =>
      (if takes_slot s (now tk) then [now tk] else [])
      ++ granted (pass_then s tk) rest
  end.

(** Only observations of responses happen after the pass. *)
Definition observes_only (tk : tick) : Prop :=
  Forall (fun a => match a with Observe _ => True | _ => False end)
         (during_sleep tk).

(** Nothing touches the limiter during the sleep. *)
Definition quiet (tk : tick) : Prop := during_sleep tk = [].

(** A clock reading as [time.time()] gives it up to the year 2038: a
    multiple of [2^-22] seconds from 0 to [2^31] (the floats between
    [2^30] and [2^31] are such multiples). The difference of two such
    readings is again a float, so the subtraction of the leak test does
    not round on them. *)
Definition clock_reading (t : Q) : bool :=
  (0 <=? Qnum t) && (Qnum t <? 2 ^ 31 * Z.pos (Qden t))
  && ((Qnum t * 2 ^ 22) mod Z.pos (Qden t) =? 0).

(** Every timestamp of the window is at least a second old. *)
Definition all_aged (current_time : Q) (b : list Q) : Prop :=
  Forall (fun e => (1 <= current_time - e)%Q) b.

(** The settings of [__init__] and the range of the retry count. *)
Definition settled (s0 s : t) : Prop :=
  group_name s = group_name s0 /\ max_requests s = max_requests s0
  /\ auto_retry s = auto_retry s0 /\ max_retries s = max_retries s0
  /\ base_delay s = base_delay s0 /\ max_delay s = max_delay s0
  /\ 0 <= retry_count s <= max_retries s0.

(** The window and the log of all slots taken agree on the last second:
    the log is the window preceded by timestamps that are at least a
    second older than [bound]; the window is in time order, not ahead
    of [bound], and made of clock readings. *)
Definition window_of (log : list Q) (bound : Q) (s : t) : Prop :=
  exists old,
    log = old ++ bucket s
    /\ all_aged bound old
    /\ StronglySorted Qle (bucket s)
    /\ Forall (fun e => (e <= bound)%Q) (bucket s)
    /\ Forall (fun e => clock_reading e = true) (bucket s).

(** A string of decimal digits and its value. *)
Fixpoint all_digits (s : string) : bool :=
  match s with
  | EmptyString => true
  | String c r => is_digit c && all_digits r
  end.

Fixpoint digits_value (acc : Z) (s : string) : Z :=
  match s with
  | EmptyString => acc
  | String c r => digits_value (acc * 10 + digit_val c) r
  end.

(** The header in the format of the docstring:
    [group=<name>; min=<digits>; sec=<digits>]. *)
Definition quota_header (group dmin dsec : string) : string :=
  ("group=" ++ group ++ "; min=" ++ dmin ++ "; sec=" ++ dsec)%string.

End History.

(** ** Traces of a session *)

Module Trace.

Import Stream.
Local Open Scope list_scope.

(** The answers of the connection and of the callback for the messages
    [ms]: each message is yielded, then its callback returns. *)
Definition deliveries (ms : list string) : list event :=
  flat_map (fun m => [EvItem m; EvDone]) ms.

(** The messages handed to the callback among the effects. *)
Definition callbacks (out : list effect) : list string :=
  omap (fun e => match e with Callback m => Some m | _ => None end) out.

(** Every tracked pair has well-formed channel specs. *)
Definition tracked_typed (s : t) : Prop :=
  Forall (fun sub => typed (snd sub)) (subscriptions s).

(** So have the pairs that a suspended replay still holds. *)
Definition pending_typed (p : pc) : Prop :=
  match p with
  | AtSend _ channels rest =>
      typed channels /\ Forall (fun sub => typed (snd sub)) rest
  | _ => True
  end.

(** [RECONNECT_DELAY <= reconnect_delay <= MAX_RECONNECT_DELAY] *)
Definition delay_in_range (s : t) : Prop :=
  (RECONNECT_DELAY <= reconnect_delay s)%Q
  /\ (reconnect_delay s <= MAX_RECONNECT_DELAY)%Q.

(** What holds of a session and of the task running [run], if any. *)
Definition steady (s : t) (p : option pc) : Prop :=
  tracked_typed s /\ delay_in_range s
  /\ match p with Some p' => pending_typed p' | None => True end.

Definition steady_cfg (r : config * list effect) : Prop :=
  steady (cfg_sess r) (Some (snd (fst r))).

(** [run] has returned only if the session is not running. *)
Definition stopped_if_returned (r : config * list effect) : Prop :=
  snd (fst r) = Finished (Ok tt) -> running (cfg_sess r) = false.

End Trace.

(** ** The signer ([auth.py]) *)

Module Auth.

Import Stream.
Local Open Scope list_scope.

(** [sorted(params.items())]: the items in the order of their keys (by
    code point). The keys of a [dict] are distinct, so the values are
    never compared. *)
Fixpoint insert_item (x : string * json) (l : dict) : dict :=
  match l with
  | [] => [x]
  | y :: rest =>
      if String.leb (fst x) (fst y) then x :: l else y :: insert_item x rest
  end.

Definition sorted_items (params : dict) : dict :=
  fold_right insert_item [] params.

(** [if d:] for an optional [dict] *)
Definition nonempty (d : option dict) : bool :=
  match d with
  | Some (_ :: _) => true
  | _ => false
  end.

(** [s.rstrip("=")] *)
Fixpoint rstrip_pad (s : string) : string :=
  match s with
  | EmptyString => EmptyString
  | String c r =>
      match rstrip_pad r with
      | EmptyString =>
          if Ascii.eqb c "=" then EmptyString else String c EmptyString
      | r' => String c r'
      end
  end.

Section WithPrimitives.

(** The library functions the signer calls. *)
Variable sha512_hexdigest : string -> string.
Variable urlencode : dict -> string.
(** [json.dumps(x, separators=(",", ":"), sort_keys=sort_keys)] *)
Variable json_dumps : bool -> json -> string.
Variable urlsafe_b64encode : string -> string.
(** [hmac.new(key, msg, hashlib.sha256).digest()] *)
Variable hmac_sha256 : string -> string -> string.

Definition base64url_encode (data : string) : string :=
  rstrip_pad (urlsafe_b64encode data).

Definition create_query_hash (params : dict) : string :=
  sha512_hexdigest (urlencode (sorted_items params)).

Definition create_body_hash (body : dict) : string :=
  sha512_hexdigest (json_dumps true (JDict body)).

(** The payload of the token; [nonce] is [str(uuid.uuid4())] and
    [timestamp] is [int(time.time() * 1000)]. *)
Definition jwt_payload (access_key : string) (query_params body : option dict)
    (nonce : string) (timestamp : Z) : dict :=
  let payload :=
    [("access_key", JStr access_key); ("nonce", JStr nonce);
     ("timestamp", JInt timestamp)] in
  let payload :=
    match query_params with
    | Some (q :: qs) =>
        dict_set (dict_set payload "query_hash"
                    (JStr (create_query_hash (q :: qs))))
          "query_hash_alg" (JStr "SHA512")
    | _ => payload
    end in
  match body with
  | Some (b :: bs) =>
      dict_set (dict_set payload "query_hash"
                  (JStr (create_body_hash (b :: bs))))
        "query_hash_alg" (JStr "SHA512")
  | _ => payload
  end.

Definition jwt_header : dict := [("alg", JStr "HS256"); ("typ", JStr "JWT")].

Definition generate_jwt_token (access_key secret_key : string)
    (query_params body : option dict) (nonce : string) (timestamp : Z)
  : string :=
  let header_encoded := base64url_encode (json_dumps false (JDict jwt_header)) in
  let payload_encoded :=
    base64url_encode
      (json_dumps false
         (JDict (jwt_payload access_key query_params body nonce timestamp))) in
  let message := (header_encoded ++ "." ++ payload_encoded)%string in
  let signature := hmac_sha256 secret_key message in
  (message ++ "." ++ base64url_encode signature)%string.

End WithPrimitives.

(** Stand-ins for the library functions, to run the signer on examples:
    they keep their argument readable instead of hashing it. *)
Definition sample_digest (data : string) : string := ("#" ++ data)%string.

Definition sample_urlencode (params : dict) : string :=
  String.concat "&" (map (fun kv => (fst kv ++ "=")%string) params).

Definition sample_dumps (sort_keys : bool) (x : json) : string :=
  match x with
  | JDict d => String.concat "," (map fst d)
  | _ => "_"
  end.

Definition sample_b64 (data : string) : string := (data ++ "==")%string.

Definition sample_hmac (key msg : string) : string := (key ++ "/" ++ msg)%string.

End Auth.

(** ** The HTTP client ([_client_base.py], [client.py], [exceptions.py]) *)

Module Client.

Import Stream.
Local Open Scope list_scope.

(** [s.startswith(prefix)] *)
Fixpoint startswith (s prefix : string) {struct prefix} : bool :=
  match prefix with
  | EmptyString => true
  | String a p =>
      match s with
      | EmptyString => false
      | String b r => Ascii.eqb a b && startswith r p
      end
  end.

Definition EXCHANGE_PREFIXES : list string :=
  ["/v1/orders"; "/v1/order"; "/v1/accounts"; "/v1/withdraws"; "/v1/withdraw";
   "/v1/deposits"; "/v1/deposit"].

(** The two limiters of a client. *)
Inductive which : Type := Quotation | Exchange.

(** The attributes of a [BaseClient] that the requests use. *)
Record t : Type := mk {
  access_key : option string;
  secret_key : option string;
  quotation_limiter : Limiter.t;
  exchange_limiter : Limiter.t
}.

(** [BaseClient.__init__] *)
Definition init (access_key secret_key : option string) : t :=
  {| access_key := access_key;
     secret_key := secret_key;
     quotation_limiter := Limiter.init "quotation" 30 true;
     exchange_limiter := Limiter.init "exchange" 8 true |}.

Definition limiter (c : t) (w : which) : Limiter.t :=
  match w with
  | Quotation => quotation_limiter c
  | Exchange => exchange_limiter c
  end.

(** The client after the limiter [w] was mutated into [l]. *)
Definition set_limiter (c : t) (w : which) (l : Limiter.t) : t :=
  match w with
  | Quotation => mk (access_key c) (secret_key c) l (exchange_limiter c)
  | Exchange => mk (access_key c) (secret_key c) (quotation_limiter c) l
  end.

(** [_get_limiter_for_path] *)
Definition get_limiter_for_path (path : string) : which :=
  if existsb (startswith path) EXCHANGE_PREFIXES then Exchange else Quotation.

(** The exception classes of [exceptions.py]. *)
Inductive exc_class : Type :=
| UpbitErrorClass
| UpbitAPIErrorClass
| UpbitAuthErrorClass
| UpbitRateLimitErrorClass.

(** [get_exception_for_status] *)
Definition get_exception_for_status (status_code : Z) : exc_class :=
  if (status_code =? 401) || (status_code =? 403) then UpbitAuthErrorClass
  else if status_code =? 429 then UpbitRateLimitErrorClass
  else if (400 <=? status_code) && (status_code <? 600) then UpbitAPIErrorClass
  else UpbitErrorClass.

(** What the client reads of an [httpx.Response]: [json_body] is the
    outcome of [response.json()], [None] when it raises;
    [retry_after_header] is [response.headers.get("Retry-After")];
    [headers_dict] is [dict(response.headers)]. *)
Record response : Type := mk_response {
  status_code : Z;
  json_body : option json;
  text : string;
  retry_after_header : option string;
  headers_dict : gmap string string
}.

(** [response.is_success]: the status is 2xx. *)
Definition is_success (r : response) : bool :=
  (200 <=? status_code r) && (status_code r <=? 299).

(** Truth value of a JSON value read into Python. *)
Definition json_truthy (v : json) : bool :=
  match v with
  | JNull => false
  | JBool b => b
  | JInt n => negb (n =? 0)
  | JStr s => negb (is_empty s)
  | JList l => match l with [] => false | _ => true end
  | JDict d => match d with [] => false | _ => true end
  end.

(** [d.get(k)], with [JNull] for [None] *)
Definition get_or_none (d : dict) (k : string) : json :=
  match dict_get d k with
  | Some v => v
  | None => JNull
  end.

(** [error_name] and [error_message] as the [try] block leaves them. *)
Definition error_details (r : response) : json * json :=
  match json_body r with
  | Some (JDict error_data) =>
      match dict_get error_data "error" with
      | Some (JDict error_info) =>
          (get_or_none error_info "name", get_or_none error_info "message")
      | Some _ => (JNull, JNull)
      | None => (JNull, JNull)       (* the default [{}] has neither key *)
      end
  | _ =>
      (* [response.json()] raised, or [error_data.get] did *)
      (JNull, if is_empty (text r) then JNull else JStr (text r))
  end.

(** [error_message or f"HTTP {status_code}"] *)
Inductive message_text : Type :=
| FromBody (error_message : json)
| HttpStatus (status_code : Z).

(** The exceptions [_handle_error_response] raises, with the prefix of
    their message, the text formatted into it and their attributes. *)
Inductive http_error : Type :=
| RateLimitError (prefix : string) (m : message_text) (retry_after : option string)
| APIError (prefix : string) (m : message_text) (status_code : Z)
           (error_name error_message : json)
| AuthError (prefix : string) (m : message_text)
| BaseError (prefix : string) (m : message_text).

Definition class_of (e : http_error) : exc_class :=
  match e with
  | RateLimitError _ _ _ => UpbitRateLimitErrorClass
  | APIError _ _ _ _ _ => UpbitAPIErrorClass
  | AuthError _ _ => UpbitAuthErrorClass
  | BaseError _ _ => UpbitErrorClass
  end.

Section WithFloat.

(** [float(s)] for a header value: whether it parses. *)
Variable float_parses : string -> bool.

(** [_handle_error_response]: [None] when it returns, the exception when
    it raises. [retry_after] holds the header text that [float] parsed. *)
Definition handle_error_response (r : response) : option http_error :=
  if is_success r then None
  else
    let (error_name, error_message) := error_details r in
    let exc_class := get_exception_for_status (status_code r) in
    let m := if json_truthy error_message then FromBody error_message
             else HttpStatus (status_code r) in
    match exc_class with
    | UpbitRateLimitErrorClass =>
        let retry_after :=
          match retry_after_header r with
          | Some h =>
              if negb (is_empty h) && float_parses h then Some h else None
          | None => None
          end in
        Some (RateLimitError "Rate limit exceeded: " m retry_after)
    | UpbitAPIErrorClass =>
        Some (APIError "API error: " m (status_code r) error_name error_message)
    | UpbitAuthErrorClass => Some (AuthError "Authentication error: " m)
    | UpbitErrorClass => Some (BaseError "Upbit error: " m)
    end.

(** [_update_limiter_from_response] *)
Definition update_limiter_from_response (c : t) (r : response) (path : string)
  : Py.result t :=
  let w := get_limiter_for_path path in
  bind (Limiter.update_from_headers (limiter c w) (headers_dict r))
       (fun l => Ok (set_limiter c w l)).

(** How a request ends: the response is returned, an exception of
    [_handle_error_response] is raised, another exception is raised (by
    the limiter or by the transport), or the request is still waiting
    for the limiter. *)
Inductive ending : Type :=
| Responded (r : response)
| Failed (e : http_error)
| Aborted (e : exn)
| Waiting.

(** The async [_get], [_post] and [_delete]: wait for the limiter of the
    path, send, update the limiter from the response, handle an error
    response. [depth] and [ticks] are the room for nested calls and the
    clock readings of the wait, [answer] the outcome of the request on
    the transport. *)
Definition async_request (c : t) (path : string) (depth : nat)
    (ticks : list Limiter.tick) (answer : awaited response) : ending * t :=
  let w := get_limiter_for_path path in
  match Limiter.wait_if_needed depth (limiter c w) ticks with
  | Limiter.Suspended l _ => (Waiting, set_limiter c w l)
  | Limiter.Raised e l _ => (Aborted e, set_limiter c w l)
  | Limiter.Returned l _ =>
      let c1 := set_limiter c w l in
      match answer with
      | Thrown e => (Aborted e, c1)
      | Done r =>
          match update_limiter_from_response c1 r path with
          | Raise e => (Aborted e, c1)
          | Ok c2 =>
              match handle_error_response r with
              | Some e => (Failed e, c2)
              | None => (Responded r, c2)
              end
          end
      end
  end.

(** The sync [_get], [_post] and [_delete]: no wait. *)
Definition sync_request (c : t) (path : string) (answer : awaited response)
  : ending * t :=
  match answer with
  | Thrown e => (Aborted e, c)
  | Done r =>
      match update_limiter_from_response c r path with
      | Raise e => (Aborted e, c)
      | Ok c2 =>
          match handle_error_response r with
          | Some e => (Failed e, c2)
          | None => (Responded r, c2)
          end
      end
  end.

(** The requests of a client, in order. *)
Inductive request : Type :=
| Async (path : string) (depth : nat) (ticks : list Limiter.tick)
        (answer : awaited response)
| Sync (path : string) (answer : awaited response).

Definition after_request (c : t) (q : request) : t :=
  match q with
  | Async path depth ticks answer =>
      snd (async_request c path depth ticks answer)
  | Sync path answer => snd (sync_request c path answer)
  end.

Definition after_requests (c : t) (qs : list request) : t :=
  fold_left after_request qs c.

End WithFloat.

(** The group a limiter of a client was created for. *)
Definition group_of (w : which) : string :=
  match w with
  | Quotation => "quotation"
  | Exchange => "exchange"
  end.

(** The capacity a limiter of a client was created with. *)
Definition capacity_of (w : which) : Z :=
  match w with
  | Quotation => 30
  | Exchange => 8
  end.

(** What the requests of a client leave as [__init__] set it: the
    credentials and the settings of both limiters. *)
Definition kept (c0 c : t) : Prop :=
  access_key c = access_key c0 /\ secret_key c = secret_key c0
  /\ forall w, History.settled (limiter c0 w) (limiter c w).

(** [float] accepts a plain decimal number. *)
Definition sample_float (h : string) : bool := History.all_digits h.

End Client.

(** * Properties of the string functions *)

Module PyFacts.

Lemma append_cons (c : ascii) (p s : string) :
  String c p ++ s = String c (p ++ s).
Proof. reflexivity. Qed.

Lemma append_nil (s : string) : "" ++ s = s.
Proof. reflexivity. Qed.

Lemma append_nil_r (s : string) : s ++ "" = s.
Proof.
  induction s as [| c s IH]; [reflexivity |].
  rewrite append_cons, IH. reflexivity.
Qed.

Lemma append_assoc (a b c : string) : a ++ b ++ c = (a ++ b) ++ c.
Proof.
  induction a as [| x a IH]; [reflexivity |].
  rewrite !append_cons, IH. reflexivity.
Qed.

Lemma lstrip_app_space (p s : string) :
  all_space p = true -> lstrip (p ++ s) = lstrip s.
Proof.
  induction p as [| c p IH]; rewrite ?append_cons, ?append_nil; cbn [all_space lstrip]; [reflexivity |].
  intros [Hc Hp]%andb_prop. rewrite Hc. auto.
Qed.

Lemma rstrip_space (p : string) : all_space p = true -> rstrip p = "".
Proof.
  induction p as [| c p IH]; cbn [all_space rstrip]; [reflexivity |].
  intros [Hc Hp]%andb_prop. rewrite (IH Hp), Hc. reflexivity.
Qed.

Lemma rstrip_app_space (s p : string) :
  all_space p = true -> rstrip (s ++ p) = rstrip s.
Proof.
  intros Hp. induction s as [| c s IH]; rewrite ?append_cons, ?append_nil; cbn [rstrip].
  - apply rstrip_space, Hp.
  - rewrite IH. reflexivity.
Qed.

Lemma rstrip_cons (c : ascii) (r : string) :
  is_space c = false -> rstrip (String c r) = String c (rstrip r).
Proof.
  intros Hc. cbn [rstrip]. rewrite Hc. destruct (rstrip r); reflexivity.
Qed.

Lemma rstrip_app_cons (a : string) (c : ascii) (b : string) :
  is_space c = false -> rstrip (a ++ String c b) = a ++ String c (rstrip b).
Proof.
  intros Hc. induction a as [| x a IH]; rewrite ?append_cons, ?append_nil.
  - apply rstrip_cons, Hc.
  - cbn [rstrip]. rewrite IH. destruct a; reflexivity.
Qed.

(** A trimmed string is empty or starts with a character that is not
    whitespace, and stripping on the right leaves it alone. *)
Lemma trimmed_cases (k : string) :
  trimmed k ->
  k = "" \/ exists c r, k = String c r /\ is_space c = false /\ rstrip k = k.
Proof.
  unfold trimmed, strip. destruct k as [| c r]; [now left |].
  intros Hk. right. exists c, r. cbn [lstrip] in Hk.
  destruct (is_space c) eqn:Hc.
  - exfalso.
    assert (Hlen : forall t, (String.length (rstrip t) <= String.length t)%nat).
    { induction t as [| x t IHt]; cbn [rstrip String.length]; [lia |].
      destruct (rstrip t); [destruct (is_space x) |];
        cbn [String.length] in *; lia. }
    assert (Hlen' : forall t, (String.length (lstrip t) <= String.length t)%nat).
    { induction t as [| x t IHt]; cbn [lstrip String.length]; [lia |].
      destruct (is_space x); cbn [String.length]; lia. }
    pose proof (Hlen (lstrip r)) as H1. pose proof (Hlen' r) as H2.
    rewrite Hk in H1. cbn [String.length] in H1. lia.
  - auto.
Qed.

Lemma contains_space_free (sep : ascii) (p : string) :
  is_space sep = false -> all_space p = true -> contains sep p = false.
Proof.
  intros Hsep. induction p as [| c p IH]; cbn [all_space contains];
    [reflexivity |].
  intros [Hc Hp]%andb_prop. rewrite (IH Hp), orb_false_r.
  destruct (Ascii.eqb_spec c sep) as [-> |]; [congruence | reflexivity].
Qed.

Lemma contains_app (sep : ascii) (a b : string) :
  contains sep (a ++ b) = contains sep a || contains sep b.
Proof.
  induction a as [| c a IH]; rewrite ?append_cons, ?append_nil; cbn [contains]; [reflexivity |].
  rewrite IH, orb_assoc. reflexivity.
Qed.

Lemma split_once_app (sep : ascii) (a b : string) :
  contains sep a = false ->
  split_once sep (a ++ String sep b) = (a, b).
Proof.
  induction a as [| c a IH]; rewrite ?append_cons, ?append_nil; cbn [contains split_once].
  - rewrite Ascii.eqb_refl. reflexivity.
  - intros [Hc Ha]%orb_false_elim. rewrite Hc, (IH Ha). reflexivity.
Qed.

Lemma strip_padded_left (k q : string) :
  trimmed k -> all_space q = true -> strip (k ++ q) = k.
Proof.
  intros Hk Hq. destruct (trimmed_cases k Hk) as [-> | (c & r & -> & Hc & Hr)].
  - rewrite ?append_cons, ?append_nil. unfold strip.
    rewrite <- (append_nil_r q) at 1.
    rewrite lstrip_app_space by exact Hq. reflexivity.
  - unfold strip. rewrite ?append_cons, ?append_nil; cbn [lstrip]. rewrite Hc.
    change (String c (r ++ q)) with (String c r ++ q).
    rewrite rstrip_app_space by exact Hq. exact Hr.
Qed.

Lemma strip_padded (p v q : string) :
  all_space p = true -> trimmed v -> all_space q = true ->
  strip (p ++ v ++ q) = v.
Proof.
  intros Hp Hv Hq. unfold strip. rewrite lstrip_app_space by exact Hp.
  exact (strip_padded_left v q Hv Hq).
Qed.

(** A token [key = value] with whitespace before, after and around the
    [=]: the stripped part has an [=], and the stripped halves are the
    key and the value. *)
Lemma padded_token (p1 k p2 p3 v p4 : string) :
  all_space p1 = true -> all_space p2 = true ->
  all_space p3 = true -> all_space p4 = true ->
  trimmed k -> contains "=" k = false -> trimmed v ->
  let part := strip (p1 ++ k ++ p2 ++ String "=" (p3 ++ v ++ p4)) in
  contains "=" part = true
  /\ strip (fst (split_once "=" part)) = k
  /\ strip (snd (split_once "=" part)) = v.
Proof.
  intros H1 H2 H3 H4 Hk Hnk Hv.
  assert (Heq : is_space "=" = false) by reflexivity.
  assert (Hpart : exists q,
             all_space q = true
             /\ strip (p1 ++ k ++ p2 ++ String "=" (p3 ++ v ++ p4))
                = (k ++ q) ++ String "=" (rstrip (p3 ++ v ++ p4))).
  { unfold strip. rewrite lstrip_app_space by exact H1.
    destruct (trimmed_cases k Hk) as [-> | (c & r & -> & Hc & _)].
    - exists "". split; [reflexivity |]. rewrite ?append_cons, ?append_nil.
      rewrite lstrip_app_space by exact H2. cbn [lstrip].
      rewrite Heq. apply rstrip_cons, Heq.
    - exists p2. split; [exact H2 |]. rewrite ?append_cons, ?append_nil; cbn [lstrip]. rewrite Hc.
      change (String c (r ++ p2 ++ String "=" (p3 ++ v ++ p4)))
        with (String c r ++ (p2 ++ String "=" (p3 ++ v ++ p4))).
      rewrite append_assoc. apply rstrip_app_cons, Heq. }
  destruct Hpart as (q & Hq & ->). cbn zeta.
  assert (Hnq : contains "=" (k ++ q) = false).
  { rewrite contains_app, Hnk, (contains_space_free "=" q Heq Hq). reflexivity. }
  rewrite contains_app. cbn [contains]. rewrite Ascii.eqb_refl, orb_true_r.
  rewrite (split_once_app "=" _ _ Hnq). cbn [fst snd].
  split; [reflexivity |]. split; [exact (strip_padded_left k q Hk Hq) |].
  unfold strip at 1.
  assert (Hr : rstrip (p3 ++ v ++ p4) = p3 ++ v \/ (v = "" /\ rstrip (p3 ++ v ++ p4) = "")).
  { rewrite append_assoc, rstrip_app_space by exact H4.
    destruct (trimmed_cases v Hv) as [-> | (c & r & -> & Hc & Hr)].
    - right. split; [reflexivity |]. rewrite append_nil_r.
      apply rstrip_space, H3.
    - left. rewrite rstrip_app_cons by exact Hc.
      rewrite rstrip_cons in Hr by exact Hc. injection Hr as ->. reflexivity. }
  destruct Hr as [-> | [-> ->]]; [| reflexivity].
  rewrite lstrip_app_space by exact H3.
  exact Hv.
Qed.

End PyFacts.

(** * Properties of the rate limiter *)

Module LimiterFacts.

Import Limiter.
Local Open Scope list_scope.

(** The setters touch one attribute each. *)
Lemma effective_limit_set_bucket (s : t) (b : list Q) :
  effective_limit (set_bucket s b) = effective_limit s.
Proof. reflexivity. Qed.

Lemma effective_limit_set_retry_count (s : t) (k : Z) :
  effective_limit (set_retry_count s k) = effective_limit s.
Proof. reflexivity. Qed.

(** The three ways a pass can end, by the test [len(bucket) >= limit]. *)
Lemma pass_acquires (s : t) (current_time : Q) :
  Z.of_nat (length (leak current_time (bucket s))) < effective_limit s ->
  wait_if_needed_pass s current_time =
    Acquired (set_bucket (set_retry_count
                            (set_bucket s (leak current_time (bucket s))) 0)
                (leak current_time (bucket s) ++ [current_time])).
Proof.
  intros Hlt. unfold wait_if_needed_pass. cbn [bucket set_bucket].
  rewrite effective_limit_set_bucket.
  destruct (Z.geb_spec (Z.of_nat (length (leak current_time (bucket s))))
              (effective_limit s)) as [Hge | _]; [lia | reflexivity].
Qed.

Lemma pass_full (s : t) (current_time : Q) :
  effective_limit s <= Z.of_nat (length (leak current_time (bucket s))) ->
  wait_if_needed_pass s current_time =
    let s1 := set_bucket s (leak current_time (bucket s)) in
    if auto_retry s then
      Sleeps (wait_time s1 current_time)
        (set_retry_count s1 (Z.min (retry_count s + 1) (max_retries s)))
    else
      Exceeded (UpbitRateLimitError (group_name s)
                  (Z.of_nat (length (leak current_time (bucket s))))
                  (effective_limit s)) s1.
Proof.
  intros Hge. unfold wait_if_needed_pass.
  cbn [bucket set_bucket auto_retry retry_count max_retries group_name].
  rewrite effective_limit_set_bucket.
  destruct (Z.geb_spec (Z.of_nat (length (leak current_time (bucket s))))
              (effective_limit s)) as [_ | Hlt]; [| lia].
  destruct (auto_retry s); reflexivity.
Qed.

Lemma pass_cases (s : t) (current_time : Q) :
  Z.of_nat (length (leak current_time (bucket s))) < effective_limit s
  \/ effective_limit s <= Z.of_nat (length (leak current_time (bucket s))).
Proof. lia. Qed.

(** A pass that takes the slot leaves the window within capacity. *)
Lemma pass_acquired_within (s s' : t) (current_time : Q) :
  wait_if_needed_pass s current_time = Acquired s' -> within_capacity s'.
Proof.
  destruct (pass_cases s current_time) as [Hlt | Hge].
  - rewrite (pass_acquires _ _ Hlt). intros [= <-].
    unfold within_capacity. cbn [bucket set_bucket].
    rewrite length_app. cbn [length].
    rewrite effective_limit_set_bucket, effective_limit_set_retry_count,
      effective_limit_set_bucket.
    lia.
  - rewrite (pass_full _ _ Hge). cbn zeta.
    destruct (auto_retry s); discriminate.
Qed.

Lemma wait_from_returned (ticks : list tick) :
  forall (depth : nat) (slept : list Q) (s s' : t) (sl : list Q),
    wait_if_needed_from depth slept s ticks = Returned s' sl ->
    within_capacity s'.
Proof.
  induction ticks as [| tk rest IH]; intros depth slept s s' sl;
    cbn [wait_if_needed_from].
  - discriminate.
  - destruct (wait_if_needed_pass s (now tk)) as [s1 | e s1 | d s1] eqn:Hpass.
    + intros [= <- _]. eapply pass_acquired_within; eassumption.
    + discriminate.
    + destruct depth as [| depth']; [discriminate | apply IH].
Qed.

(** C1. After every call of [wait_if_needed] that returns, in any
    history of calls with observations, resets and concurrent passes
    interleaved (between calls and during the sleeps), the window holds
    at most [effective_limit] timestamps, where [effective_limit] is the
    server's remaining count when that is set and smaller than
    [max_requests], and [max_requests] otherwise. *)
Theorem C1_window_within_capacity (s : t) (calls : list call) :
  Forall (fun s' =>
            Z.of_nat (length (bucket s')) <=
              match remaining s' with
              | Some r => if r <? max_requests s' then r else max_requests s'
              | None => max_requests s'
              end)
         (after_acquires s calls).
Proof.
  revert s. induction calls as [| c rest IH]; intros s; cbn [after_acquires].
  - constructor.
  - destruct c as [depth ticks | a]; [| apply IH].
    destruct (wait_if_needed depth s ticks) as [s' sl | e s' sl | s' sl] eqn:Hw;
      try apply IH.
    constructor; [| apply IH].
    exact (wait_from_returned _ _ _ _ _ _ Hw).
Qed.

(** C6. Without auto-retry, a pass that finds the leaked window at or
    above the effective limit raises [UpbitRateLimitError] at once: no
    sleep, no timestamp added, only the aged entries gone. So does the
    first call after an observation that left [remaining = 0], and so
    does the limiter of capacity 2 holding two timestamps 1000.0 when
    called at 1000.0. *)
Theorem C6_fails_when_auto_retry_off :
  (forall (s : t) (depth : nat) (tk : tick) (rest : list tick),
      auto_retry s = false ->
      effective_limit s <= Z.of_nat (length (leak (now tk) (bucket s))) ->
      wait_if_needed depth s (tk :: rest) =
        Raised (UpbitRateLimitError (group_name s)
                  (Z.of_nat (length (leak (now tk) (bucket s))))
                  (effective_limit s))
               (set_bucket s (leak (now tk) (bucket s))) [])
  /\ (forall (s s1 : t) (headers : gmap string string) (depth : nat)
             (tk : tick) (rest : list tick),
        auto_retry s = false ->
        update_from_headers s headers = Ok s1 ->
        remaining s1 = Some 0 ->
        exists e, wait_if_needed depth s1 (tk :: rest) =
                    Raised e (set_bucket s1 (leak (now tk) (bucket s1))) []
                  /\ exists used limit,
                      e = UpbitRateLimitError (group_name s1) used limit)
  /\ (forall depth : nat,
        wait_if_needed depth
          (set_bucket (init "test" 2 false) [1000%Q; 1000%Q])
          [mk_tick 1000 []] =
        Raised (UpbitRateLimitError "test" 2 2)
               (set_bucket (init "test" 2 false) [1000%Q; 1000%Q]) []).
Proof.
  assert (H1 : forall (s : t) (depth : nat) (tk : tick) (rest : list tick),
             auto_retry s = false ->
             effective_limit s <= Z.of_nat (length (leak (now tk) (bucket s))) ->
             wait_if_needed depth s (tk :: rest) =
               Raised (UpbitRateLimitError (group_name s)
                         (Z.of_nat (length (leak (now tk) (bucket s))))
                         (effective_limit s))
                      (set_bucket s (leak (now tk) (bucket s))) []).
  { intros s depth tk rest Hauto Hfull.
    unfold wait_if_needed. cbn [wait_if_needed_from].
    rewrite (pass_full _ _ Hfull). cbn zeta. rewrite Hauto. reflexivity. }
  split; [exact H1 |]. split.
  - intros s s1 headers depth tk rest Hauto Hupd Hrem.
    assert (Hauto1 : auto_retry s1 = false).
    { revert Hupd. unfold update_from_headers.
      destruct (remaining_req_header headers) as [h |]; [| congruence].
      destruct (is_empty h); [congruence |].
      unfold update_try.
      destruct (parse_remaining_req h) as [parsed | e]; cbn [bind].
      - destruct (negb _); [congruence |].
        destruct (parsed !! "sec") as [[n | g] |]; intros [= <-]; assumption.
      - destruct e; congruence. }
    assert (Hfull : effective_limit s1
                    <= Z.of_nat (length (leak (now tk) (bucket s1)))).
    { unfold effective_limit. rewrite Hrem.
      destruct (Z.ltb_spec 0 (max_requests s1)); lia. }
    eexists. split; [apply H1; assumption |]. eauto.
  - intros depth. apply H1; [reflexivity | vm_compute; discriminate].
Qed.

Lemma C6_fails_when_auto_retry_off_witness :
  wait_if_needed 980 (set_remaining (init "market" 30 false) (Some 0))
    [mk_tick (5 # 2) []] =
  Raised (UpbitRateLimitError "market" 0 0)
         (set_remaining (init "market" 30 false) (Some 0)) [].
Proof.
  exact (proj1 C6_fails_when_auto_retry_off
           (set_remaining (init "market" 30 false) (Some 0)) 980%nat
           (mk_tick (5 # 2) []) [] eq_refl
           ltac:(vm_compute; discriminate)).
Defined.

(** C8. With auto-retry on, a pass that finds the leaked window at or
    above the effective limit sleeps
    [min(baseWait * 2^k + 1.0 * 2^k, 60.0)], where [k] is the retry
    count and [baseWait] is [max(0, 1.0 - (now - window[0]))] for a
    non-empty window and 0.1 for an empty one; the retry count becomes
    [min(k + 1, 5)]. A pass that takes the slot sets the retry count to
    0. *)
Theorem C8_backoff_delay (s : t) (current_time : Q) :
  configured s ->
  let window := leak current_time (bucket s) in
  let k := retry_count s in
  (auto_retry s = true ->
   effective_limit s <= Z.of_nat (length window) ->
   wait_if_needed_pass s current_time =
     Sleeps (spec_delay current_time window k)
            (set_retry_count (set_bucket s window) (Z.min (k + 1) 5)))
  /\ (Z.of_nat (length window) < effective_limit s ->
      exists s', wait_if_needed_pass s current_time = Acquired s'
                 /\ retry_count s' = 0).
Proof.
  intros (Hmax & Hbase & Hcap) window k. split.
  - intros Hauto Hfull. rewrite (pass_full _ _ Hfull). cbn zeta.
    rewrite Hauto. unfold wait_time, spec_delay, pow2.
    cbn [retry_count set_bucket base_delay max_delay bucket].
    rewrite Hmax, Hbase, Hcap. reflexivity.
  - intros Hlt. rewrite (pass_acquires _ _ Hlt). eexists. split; reflexivity.
Qed.

Lemma C8_backoff_delay_witness :
  wait_if_needed_pass
    (set_retry_count (set_bucket (init "order" 1 true) [1000%Q]) 2)
    (10004 # 10) =
  Sleeps (spec_delay (10004 # 10) [1000%Q] 2)
         (set_retry_count (set_bucket (init "order" 1 true) [1000%Q]) 3).
Proof.
  refine (proj1 (C8_backoff_delay
                   (set_retry_count
                      (set_bucket (init "order" 1 true) [1000%Q]) 2)
                   (10004 # 10) _) eq_refl _).
  - repeat split.
  - vm_compute. discriminate.
Defined.

Lemma pass_state_limit (s : t) (current_time : Q) :
  effective_limit (pass_state (wait_if_needed_pass s current_time))
  = effective_limit s
  /\ auto_retry (pass_state (wait_if_needed_pass s current_time))
     = auto_retry s.
Proof.
  unfold wait_if_needed_pass.
  destruct (_ >=? _); [destruct (negb _) |]; split; reflexivity.
Qed.

Lemma concurrent_keeps_limit (l : list action) :
  forall s : t,
    Forall (fun a => match a with Concurrent _ => True | _ => False end) l ->
    effective_limit (apply_actions s l) = effective_limit s
    /\ auto_retry (apply_actions s l) = auto_retry s.
Proof.
  induction l as [| a l IH]; intros s Hall; [split; reflexivity |].
  inversion Hall as [| ? ? Ha Hl]; subst.
  destruct a as [h | | ct]; try contradiction.
  unfold apply_actions in *. cbn [fold_left apply_action].
  destruct (IH (pass_state (wait_if_needed_pass s ct)) Hl) as [-> ->].
  apply pass_state_limit.
Qed.

Lemma exhausted_suspends (ticks : list tick) :
  forall (depth : nat) (s : t) (slept : list Q),
    auto_retry s = true ->
    effective_limit s <= 0 ->
    Forall only_concurrent ticks ->
    exists s' sl,
      wait_if_needed_from depth slept s ticks =
        (if (length ticks <=? depth)%nat then Suspended s' (slept ++ sl)
         else Raised RecursionError s' (slept ++ sl))
      /\ length sl = Nat.min (length ticks) depth
      /\ auto_retry s' = true /\ effective_limit s' <= 0.
Proof.
  induction ticks as [| tk rest IH]; intros depth s slept Hauto Hlim Hall.
  - exists s, []. rewrite app_nil_r. repeat split; assumption.
  - inversion Hall as [| ? ? Htk Hrest]; subst.
    cbn [wait_if_needed_from].
    assert (Hfull : effective_limit s
                    <= Z.of_nat (length (leak (now tk) (bucket s)))) by lia.
    rewrite (pass_full _ _ Hfull). cbn zeta. rewrite Hauto.
    set (s1 := set_retry_count _ _).
    destruct depth as [| depth'].
    + exists s1, []. rewrite app_nil_r. repeat split; assumption.
    + destruct (concurrent_keeps_limit (during_sleep tk) s1 Htk) as [Hl Ha].
      destruct (IH depth' (apply_actions s1 (during_sleep tk))
                  (slept ++ [wait_time (set_bucket s (leak (now tk) (bucket s)))
                               (now tk)]))
        as (s' & sl & Hrun & Hlen & Ha' & Hl').
      * rewrite Ha. exact Hauto.
      * rewrite Hl. exact Hlim.
      * exact Hrest.
      * exists s', (wait_time (set_bucket s (leak (now tk) (bucket s)))
                      (now tk) :: sl).
        rewrite Hrun, <- !app_assoc. cbn [app length Nat.leb Nat.min].
        repeat split; try assumption. now rewrite Hlen.
Qed.





(** *** The quota header *)

Lemma parse_parts_raises (parts : list string) :
  forall (m : gmap string pyval) (e : exn),
    parse_parts parts m = Raise e -> exists msg, e = ValueError msg.
Proof.
  induction parts as [| raw rest IH]; intros m e; cbn [parse_parts].
  - discriminate.
  - destruct (negb (contains "=" (strip raw))); [apply IH |].
    destruct (split_once "=" (strip raw)) as [key0 value0].
    destruct (String.eqb (strip key0) "min" || String.eqb (strip key0) "sec").
    + destruct (Py.int (strip value0)); [apply IH |].
      intros [= <-]. eauto.
    + apply IH.
Qed.

Lemma parse_raises (h : string) (e : exn) :
  parse_remaining_req h = Raise e -> exists msg, e = ValueError msg.
Proof.
  unfold parse_remaining_req.
  destruct (is_empty h); [intros [= <-]; eauto |].
  destruct (parse_parts (split ";" h) ∅) as [m | e'] eqn:Hparts; cbn [bind].
  - destruct (negb _); [intros [= <-]; eauto |].
    destruct (_ && _); [intros [= <-]; eauto | discriminate].
  - intros [= <-]. eapply parse_parts_raises; eassumption.
Qed.

Lemma parse_parts_sec (parts : list string) :
  forall m r : gmap string pyval,
    sec_is_int m -> parse_parts parts m = Ok r -> sec_is_int r.
Proof.
  induction parts as [| raw rest IH]; intros m r Hm; cbn [parse_parts].
  - intros [= <-]. exact Hm.
  - destruct (negb (contains "=" (strip raw))); [apply IH; exact Hm |].
    destruct (split_once "=" (strip raw)) as [key0 value0].
    destruct (String.eqb_spec (strip key0) "min") as [Hmin | Hmin];
      cbn [orb].
    + destruct (Py.int (strip value0)) as [n |]; [| discriminate].
      apply IH. intros v. rewrite Hmin, lookup_insert_ne by discriminate.
      apply Hm.
    + destruct (String.eqb_spec (strip key0) "sec") as [Hsec | Hsec].
      * destruct (Py.int (strip value0)) as [n |]; [| discriminate].
        apply IH. intros v. rewrite Hsec, lookup_insert_eq.
        intros [= <-]. eauto.
      * apply IH. intros v. rewrite lookup_insert_ne by exact Hsec.
        apply Hm.
Qed.

Lemma parse_sec (h : string) (parsed : gmap string pyval) :
  parse_remaining_req h = Ok parsed -> sec_is_int parsed.
Proof.
  unfold parse_remaining_req.
  destruct (is_empty h); [discriminate |].
  destruct (parse_parts (split ";" h) ∅) as [m | e'] eqn:Hparts; cbn [bind];
    [| discriminate].
  destruct (negb _); [discriminate |].
  destruct (_ && _); [discriminate |]. intros [= <-].
  eapply parse_parts_sec; [| exact Hparts].
  intros v. rewrite lookup_empty. discriminate.
Qed.

Lemma pyval_eq_str_spec (v : option pyval) (g : string) :
  pyval_eq_str v g = true <-> v = Some (PStr g).
Proof.
  destruct v as [[n | g'] |]; cbn [pyval_eq_str].
  - split; discriminate.
  - rewrite String.eqb_eq. split; [intros -> | intros [= ->]]; reflexivity.
  - split; discriminate.
Qed.

Lemma update_try_ok (s : t) (h : string) (parsed : gmap string pyval) :
  parse_remaining_req h = Ok parsed ->
  update_try s h =
    Ok (if pyval_eq_str (parsed !! "group") (group_name s) then
          match parsed !! "sec" with
          | Some (PInt n) => set_remaining s (Some n)
          | _ => s
          end
        else s).
Proof.
  intros Hp. unfold update_try. rewrite Hp. cbn [bind].
  destruct (pyval_eq_str _ _); cbn [negb]; [| reflexivity].
  destruct (parsed !! "sec") as [[n | g] |]; reflexivity.
Qed.

Lemma header_not_empty (s : t) (h : string) (parsed : gmap string pyval) :
  parse_remaining_req h = Ok parsed -> is_empty h = false.
Proof.
  unfold parse_remaining_req. destruct (is_empty h); [discriminate | reflexivity].
Qed.

(** What the loop does with a part that is a token [key = value]. *)
Lemma parse_parts_token (raw k v : string) (rest : list string)
    (m : gmap string pyval) :
  contains "=" (strip raw) = true ->
  strip (fst (split_once "=" (strip raw))) = k ->
  strip (snd (split_once "=" (strip raw))) = v ->
  parse_parts (raw :: rest) m =
    if String.eqb k "min" || String.eqb k "sec" then
      match Py.int v with
      | Some n => parse_parts rest (<[k := PInt n]> m)
      | None =>
          Raise (ValueError
                   ("Invalid numeric value for " ++ k ++ ": " ++ v)%string)
      end
    else parse_parts rest (<[k := PStr v]> m).
Proof.
  intros Hc Hk Hv. cbn [parse_parts]. rewrite Hc. cbn [negb].
  destruct (split_once "=" (strip raw)) as [key0 value0].
  cbn [fst snd] in Hk, Hv. rewrite Hk, Hv. reflexivity.
Qed.

(** Whitespace around a token, around its key and around its value does
    not change what the parser stores. *)
Lemma parse_parts_padded (p1 k p2 p3 v p4 : string) (rest : list string)
    (m : gmap string pyval) :
  all_space p1 = true -> all_space p2 = true ->
  all_space p3 = true -> all_space p4 = true ->
  trimmed k -> contains "=" k = false -> trimmed v ->
  parse_parts ((p1 ++ k ++ p2 ++ String "=" (p3 ++ v ++ p4))%string :: rest) m
  = parse_parts ((k ++ String "=" v)%string :: rest) m.
Proof.
  intros H1 H2 H3 H4 Hk Hnk Hv.
  destruct (PyFacts.padded_token p1 k p2 p3 v p4 H1 H2 H3 H4 Hk Hnk Hv)
    as (Hc & Hkey & Hval).
  destruct (PyFacts.padded_token "" k "" "" v "" eq_refl eq_refl eq_refl
              eq_refl Hk Hnk Hv) as (Hc' & Hkey' & Hval').
  cbn zeta in *.
  rewrite !PyFacts.append_nil, !PyFacts.append_nil_r in Hc', Hkey', Hval'.
  rewrite (parse_parts_token _ k v rest m Hc Hkey Hval).
  rewrite (parse_parts_token _ k v rest m Hc' Hkey' Hval').
  reflexivity.
Qed.

(** The headers of the tests. *)
Example parse_valid_format :
  parse_remaining_req "group=market; min=598; sec=9"
  = Ok (<["sec" := PInt 9]> (<["min" := PInt 598]>
          (<["group" := PStr "market"]> ∅))).
Proof. vm_compute. reflexivity. Qed.

Example parse_extra_whitespace :
  parse_remaining_req "group = market ;  min = 100 ; sec = 5"
  = parse_remaining_req "group=market;min=100;sec=5".
Proof. vm_compute. reflexivity. Qed.

Example parse_invalid_number :
  parse_remaining_req "group=market; min=abc; sec=5"
  = Raise (ValueError "Invalid numeric value for min: abc").
Proof. vm_compute. reflexivity. Qed.

Example parse_missing_group :
  parse_remaining_req "min=100; sec=5"
  = Raise (ValueError "Missing 'group' in Remaining-Req header").
Proof. vm_compute. reflexivity. Qed.

(** [update_from_headers] returns, and touches [remaining] only. *)
Lemma update_returns (s : t) (headers : gmap string string) :
  exists s', update_from_headers s headers = Ok s'
             /\ set_remaining s' (remaining s) = s.
Proof.
  unfold update_from_headers.
  destruct (remaining_req_header headers) as [h |];
    [| exists s; split; [| destruct s]; reflexivity].
  destruct (is_empty h); [exists s; split; [| destruct s]; reflexivity |].
  destruct (parse_remaining_req h) as [parsed | e] eqn:Hp.
  - rewrite (update_try_ok s _ _ Hp).
    destruct (pyval_eq_str _ _);
      [destruct (parsed !! "sec") as [[n | g] |] |];
      eexists; (split; [reflexivity | destruct s; reflexivity]).
  - unfold update_try. rewrite Hp. cbn [bind].
    destruct (parse_raises _ _ Hp) as [msg ->].
    exists s. split; [| destruct s]; reflexivity.
Qed.

Lemma same_but_remaining_set (s : t) (r : option Z) :
  same_but_remaining s (set_remaining s r).
Proof. repeat split. Qed.

(** C7. [update_from_headers] never raises and changes no attribute but
    [remaining]. It sets [remaining] to the parsed [sec] when the header
    parses, its group is the limiter's and a [sec] is present; in every
    other case (no header, a malformed header, another group, no [sec])
    the limiter is left as it was. *)
Theorem C7_observe (s : t) (headers : gmap string string) :
  (forall n, reports s headers n ->
             exists s', update_from_headers s headers = Ok s'
                        /\ remaining s' = Some n
                        /\ same_but_remaining s s')
  /\ ((forall n, ~ reports s headers n) ->
      update_from_headers s headers = Ok s)
  /\ (forall h e, remaining_req_header headers = Some h ->
                  parse_remaining_req h = Raise e ->
                  update_from_headers s headers = Ok s)
  /\ (forall h parsed, remaining_req_header headers = Some h ->
                       parse_remaining_req h = Ok parsed ->
                       parsed !! "group" <> Some (PStr (group_name s)) ->
                       update_from_headers s headers = Ok s)
  /\ exists s', update_from_headers s headers = Ok s'
                /\ same_but_remaining s s'.
Proof.
  assert (Hbad : forall h e, remaining_req_header headers = Some h ->
                             parse_remaining_req h = Raise e ->
                             update_from_headers s headers = Ok s).
  { intros h e Hh Hp. unfold update_from_headers. rewrite Hh.
    destruct (is_empty h); [reflexivity |].
    unfold update_try. rewrite Hp. cbn [bind].
    destruct (parse_raises _ _ Hp) as [msg ->]. reflexivity. }
  assert (Hok : forall h parsed, remaining_req_header headers = Some h ->
                  parse_remaining_req h = Ok parsed ->
                  update_from_headers s headers =
                    Ok (if pyval_eq_str (parsed !! "group") (group_name s) then
                          match parsed !! "sec" with
                          | Some (PInt n) => set_remaining s (Some n)
                          | _ => s
                          end
                        else s)).
  { intros h parsed Hh Hp. unfold update_from_headers. rewrite Hh.
    rewrite (header_not_empty s _ _ Hp), (update_try_ok s _ _ Hp).
    reflexivity. }
  assert (Hother : forall h parsed, remaining_req_header headers = Some h ->
                       parse_remaining_req h = Ok parsed ->
                       parsed !! "group" <> Some (PStr (group_name s)) ->
                       update_from_headers s headers = Ok s).
  { intros h parsed Hh Hp Hg. rewrite (Hok _ _ Hh Hp).
    destruct (pyval_eq_str _ _) eqn:E; [| reflexivity].
    apply pyval_eq_str_spec in E. contradiction. }
  assert (Hyes : forall n, reports s headers n ->
             exists s', update_from_headers s headers = Ok s'
                        /\ remaining s' = Some n
                        /\ same_but_remaining s s').
  { intros n (h & parsed & Hh & Hp & Hg & Hs).
    rewrite (Hok _ _ Hh Hp), Hs.
    apply pyval_eq_str_spec in Hg. rewrite Hg.
    eexists. split; [reflexivity |].
    split; [reflexivity | apply same_but_remaining_set]. }
  assert (Hno : (forall n, ~ reports s headers n) ->
                update_from_headers s headers = Ok s).
  { intros Hnone.
    destruct (remaining_req_header headers) as [h |] eqn:Hh.
    - destruct (parse_remaining_req h) as [parsed | e] eqn:Hp.
      + rewrite (Hok _ _ eq_refl Hp).
        destruct (pyval_eq_str _ _) eqn:E; [| reflexivity].
        apply pyval_eq_str_spec in E.
        destruct (parsed !! "sec") as [[n | g] |] eqn:Hs; try reflexivity.
        exfalso. apply (Hnone n). exists h, parsed. repeat split; assumption.
      + apply (Hbad _ _ eq_refl Hp).
    - unfold update_from_headers. rewrite Hh. reflexivity. }
  repeat apply conj; try assumption.
  destruct (update_returns s headers) as (s' & Hu & Hback).
  exists s'. split; [exact Hu |].
  rewrite <- Hback. destruct s'. repeat split.
Qed.

Lemma C7_observe_witness :
  (exists s',
      update_from_headers (mk "market" 30 None true [] 0 5 1 60)
        {[ "Remaining-Req" := "group=market; min=598; sec=9" ]} = Ok s'
      /\ remaining s' = Some 9
      /\ same_but_remaining (mk "market" 30 None true [] 0 5 1 60) s')
  /\ update_from_headers (mk "market" 30 (Some 10) true [] 0 5 1 60)
       {[ "Remaining-Req" := "invalid format" ]}
     = Ok (mk "market" 30 (Some 10) true [] 0 5 1 60)
  /\ update_from_headers (mk "market" 30 (Some 10) true [] 0 5 1 60)
       {[ "Remaining-Req" := "group=order; min=598; sec=9" ]}
     = Ok (mk "market" 30 (Some 10) true [] 0 5 1 60).
Proof.
  split; [| split].
  - refine (proj1 (C7_observe _ _) 9 _).
    exists "group=market; min=598; sec=9".
    eexists. split; [vm_compute; reflexivity |].
    split; [vm_compute; reflexivity |].
    split; vm_compute; reflexivity.
  - refine (proj1 (proj2 (proj2 (C7_observe _ _)))
              "invalid format" _ _ _);
      vm_compute; reflexivity.
  - refine (proj1 (proj2 (proj2 (proj2 (C7_observe _ _))))
              "group=order; min=598; sec=9" _ _ _ _).
    + vm_compute. reflexivity.
    + vm_compute. reflexivity.
    + vm_compute. discriminate.
Defined.

(** *** The constants and the window *)

Lemma configured_init (g : string) (n : Z) (a : bool) : configured (init g n a).
Proof. repeat split. Qed.

Lemma configured_pass (s : t) (current_time : Q) :
  configured s ->
  configured (pass_state (wait_if_needed_pass s current_time)).
Proof.
  intros H. unfold wait_if_needed_pass.
  destruct (_ >=? _); [destruct (negb _) |]; exact H.
Qed.

Lemma configured_apply (s : t) (a : action) :
  configured s -> configured (apply_action s a).
Proof.
  intros H. destruct a as [headers | | ct]; cbn [apply_action].
  - destruct (update_returns s headers) as (s' & -> & Hs').
    rewrite <- Hs' in H. exact H.
  - exact H.
  - apply configured_pass. exact H.
Qed.

Lemma ONE_ROUNDED_range : (0 < ONE_ROUNDED)%Q /\ (ONE_ROUNDED < 1)%Q.
Proof. split; reflexivity. Qed.

(** On a window in time order the leak loop keeps exactly the timestamps
    that its test finds younger than a second. *)
Lemma leak_sorted (current_time : Q) (b : list Q) :
  StronglySorted Qle b ->
  leak current_time b = List.filter (fun e => negb (aged current_time e)) b.
Proof.
  induction 1 as [| oldest rest Hsorted IH Hle]; cbn [leak List.filter].
  - reflexivity.
  - destruct (aged current_time oldest) eqn:Haged; cbn [negb].
    + exact IH.
    + f_equal. symmetry. apply forallb_filter_id.
      apply forallb_forall. intros e Hin.
      rewrite Forall_forall in Hle. specialize (Hle e ltac:(apply list_elem_of_In; exact Hin)).
      apply negb_true_iff. unfold aged in *.
      destruct (Qle_bool ONE_ROUNDED (current_time - e)) eqn:He; [| reflexivity].
      apply Qle_bool_iff in He.
      assert (Hn : ~ (ONE_ROUNDED <= current_time - oldest)%Q)
        by (rewrite <- Qle_bool_iff, Haged; discriminate).
      exfalso. apply Hn. lra.
Qed.

Lemma leak_suffix (current_time : Q) (b : list Q) :
  exists pre, b = pre ++ leak current_time b.
Proof.
  induction b as [| oldest rest [pre IH]]; cbn [leak].
  - exists []. reflexivity.
  - destruct (aged current_time oldest).
    + exists (oldest :: pre). cbn [app]. now rewrite <- IH.
    + exists []. reflexivity.
Qed.

(** With a clock that does not run backwards, the window after a pass
    that takes the slot is in time order and holds only timestamps of the
    second that ends at the current time. *)
Lemma acquired_window_recent (s s' : t) (current_time : Q) :
  StronglySorted Qle (bucket s) ->
  Forall (fun e => (e <= current_time)%Q) (bucket s) ->
  wait_if_needed_pass s current_time = Acquired s' ->
  StronglySorted Qle (bucket s')
  /\ Forall (fun e => (e <= current_time)%Q /\ (current_time - e < 1)%Q)
       (bucket s').
Proof.
  intros Hsorted Hpast.
  destruct (pass_cases s current_time) as [Hlt | Hge].
  2:{ rewrite (pass_full _ _ Hge). cbn zeta.
      destruct (auto_retry s); discriminate. }
  rewrite (pass_acquires _ _ Hlt). intros [= <-]. cbn [bucket set_bucket].
  destruct (leak_suffix current_time (bucket s)) as [pre Hpre].
  assert (Hkept : StronglySorted Qle (leak current_time (bucket s))
                  /\ Forall (fun e => (e <= current_time)%Q)
                       (leak current_time (bucket s))).
  { rewrite Hpre in Hsorted, Hpast. split.
    - clear -Hsorted. induction pre as [| x pre IH]; [exact Hsorted |].
      apply IH. now inversion Hsorted.
    - apply Forall_app in Hpast. tauto. }
  destruct Hkept as [Hks Hkp].
  assert (Hrecent : Forall (fun e => (current_time - e < 1)%Q)
                      (leak current_time (bucket s))).
  { rewrite (leak_sorted _ _ Hsorted). apply Forall_forall. intros e Hin.
    apply list_elem_of_In, filter_In in Hin. destruct Hin as [_ Hr].
    unfold aged in Hr. apply negb_true_iff in Hr.
    pose proof ONE_ROUNDED_range as [_ Hone].
    destruct (Qlt_le_dec (current_time - e) ONE_ROUNDED) as [H | H]; [lra |].
    apply Qle_bool_iff in H. congruence. }
  split.
  - clear -Hks Hkp. induction Hks as [| x l Hl IH Hx]; cbn [app].
    + repeat constructor.
    + inversion Hkp; subst. constructor; [apply IH; assumption |].
      apply Forall_app. split; [exact Hx | repeat constructor; assumption].
  - apply Forall_app. split.
    + clear -Hkp Hrecent. induction Hkp as [| x l Hx _ IH];
        inversion Hrecent; subst; constructor; auto.
    + repeat constructor; lra.
Qed.

(** The scenario of the tests: after an observation that reports no
    request left, a limiter without auto-retry fails its next call. *)
Example observe_zero_then_fail :
  exists s1,
    update_from_headers (init "market" 30 false)
      {[ "Remaining-Req" := "group=market; min=598; sec=0" ]} = Ok s1
    /\ wait_if_needed 980 s1 [mk_tick 12 []]
       = Raised (UpbitRateLimitError "market" 0 0) s1 [].
Proof. eexists. split; vm_compute; reflexivity. Qed.

(** A history in which the third call has to wait for the window to
    move: capacity 2, calls at 10.0, 10.2 and 10.5, resumed at 11.7. *)
Example three_calls_capacity_two :
  map bucket
    (after_acquires (init "quotation" 2 true)
       [Acquire 980 [mk_tick 10 []]; Acquire 980 [mk_tick (51 # 5) []];
        Acquire 980 [mk_tick (21 # 2) []; mk_tick (117 # 10) []]])
  = [[10%Q]; [10%Q; 51 # 5]; [117 # 10]].
Proof. vm_compute. reflexivity. Qed.

End LimiterFacts.

(** * Properties of the streaming session *)

Module StreamFacts.

Import Stream.
Local Open Scope list_scope.

(** *** Dictionaries *)

Lemma dict_get_set (d : dict) (k k' : string) (v : json) :
  dict_get (dict_set d k v) k' =
    if String.eqb k k' then Some v else dict_get d k'.
Proof.
  induction d as [| [k0 v0] rest IH]; cbn [dict_set dict_get].
  - reflexivity.
  - destruct (String.eqb_spec k0 k) as [-> | Hne]; cbn [dict_get].
    + destruct (String.eqb_spec k k'); reflexivity.
    + rewrite IH. destruct (String.eqb_spec k0 k') as [-> | Hne'].
      * destruct (String.eqb_spec k k'); [congruence | reflexivity].
      * reflexivity.
Qed.

Lemma dict_keys_set (d : dict) (k k' : string) (v : json) :
  In k' (dict_keys (dict_set d k v)) -> k' = k \/ In k' (dict_keys d).
Proof.
  unfold dict_keys.
  induction d as [| [k0 v0] rest IH]; cbn [dict_set map fst In].
  - intros [<- | []]. now left.
  - destruct (String.eqb_spec k0 k) as [-> | Hne]; cbn [map fst In].
    + intros [<- | Hin]; [right; now left | right; now right].
    + intros [<- | Hin]; [right; now left |].
      destruct (IH Hin) as [-> | Hin']; [now left | right; now right].
Qed.

Lemma dict_get_copy (k k' : string) (channel m : dict) :
  dict_get (copy_if_present k channel m) k' =
    if String.eqb k k' then
      match dict_get channel k with
      | Some v => Some v
      | None => dict_get m k'
      end
    else dict_get m k'.
Proof.
  unfold copy_if_present.
  destruct (dict_get channel k) as [v |]; [apply dict_get_set |].
  destruct (String.eqb k k'); reflexivity.
Qed.

Lemma dict_keys_copy (k k' : string) (channel m : dict) :
  In k' (dict_keys (copy_if_present k channel m)) ->
  (k' = k /\ dict_has channel k = true) \/ In k' (dict_keys m).
Proof.
  unfold copy_if_present, dict_has.
  destruct (dict_get channel k) as [v |]; [| now right].
  intros Hin. destruct (dict_keys_set _ _ _ _ Hin); [left | right]; auto.
Qed.

Lemma channel_msg_carries (channel m : dict) :
  channel_msg channel = Ok m -> carries channel m.
Proof.
  unfold channel_msg.
  destruct (dict_get channel "type") as [ty |] eqn:Hty; [| discriminate].
  intros [= <-]. unfold carries.
  rewrite !dict_get_copy. cbn [String.eqb Ascii.eqb Bool.eqb dict_get].
  repeat split.
  - now rewrite Hty.
  - destruct (dict_get channel "codes"); reflexivity.
  - destruct (dict_get channel "isOnlyRealtime"); reflexivity.
  - destruct (dict_get channel "isOnlySnapshot"); reflexivity.
  - intros k Hin.
    apply dict_keys_copy in Hin as [[-> _] | Hin]; [tauto |].
    apply dict_keys_copy in Hin as [[-> _] | Hin]; [tauto |].
    apply dict_keys_copy in Hin as [[-> _] | Hin]; [tauto |].
    cbn in Hin. destruct Hin as [<- | []]. tauto.
Qed.

Lemma channel_msgs_typed (channels : list dict) :
  typed channels -> exists ms, channel_msgs channels = Ok ms.
Proof.
  unfold typed, dict_has.
  induction 1 as [| ch rest Hch _ [ms IH]]; cbn [channel_msgs].
  - eauto.
  - unfold channel_msg.
    destruct (dict_get ch "type"); [| discriminate].
    cbn [bind]. rewrite IH. cbn [bind]. eauto.
Qed.

Lemma channel_msgs_carry (channels : list dict) :
  forall ms, channel_msgs channels = Ok ms -> Forall2 carries channels ms.
Proof.
  induction channels as [| ch rest IH]; cbn [channel_msgs]; intros ms.
  - intros [= <-]. constructor.
  - destruct (channel_msg ch) as [m | e] eqn:Hm; cbn [bind]; [| discriminate].
    destruct (channel_msgs rest) as [ms' | e]; cbn [bind]; [| discriminate].
    intros [= <-]. constructor; [apply channel_msg_carries; exact Hm |].
    apply IH. reflexivity.
Qed.

Lemma channel_msgs_raises (channels : list dict) (e : exn) :
  channel_msgs channels = Raise e -> e = KeyError "type".
Proof.
  induction channels as [| ch rest IH]; cbn [channel_msgs]; [discriminate |].
  unfold channel_msg.
  destruct (dict_get ch "type"); cbn [bind]; [| congruence].
  destruct (channel_msgs rest); cbn [bind]; [discriminate |].
  intros [= <-]. apply IH. reflexivity.
Qed.

Section WithCollaborators.

Variable generate_jwt_token :
  string -> string -> option dict -> option dict -> nat -> string.
Variable parses : string -> bool.

Let ticket_msg := ticket_msg generate_jwt_token.
Let subscribe := subscribe generate_jwt_token.

(** The ticket element: [auth] is there exactly when the signer is
    called, with the signer's token for the two keys. *)
Lemma ticket_msg_spec (s : t) (draw : nat) (ticket : string)
    (channels : list dict) :
  (signs s channels = true ->
   exists ak sk,
     access_key s = Some ak /\ secret_key s = Some sk
     /\ ticket_msg s draw ticket channels =
          [("ticket", JStr ticket);
           ("auth", JStr (generate_jwt_token ak sk None None draw))])
  /\ (signs s channels = false ->
      ticket_msg s draw ticket channels = [("ticket", JStr ticket)]).
Proof.
  unfold signs, ticket_msg, Stream.ticket_msg.
  destruct (access_key s) as [ak |], (secret_key s) as [sk |];
    cbn [truthy andb];
    try (split; [discriminate | reflexivity]).
  - destruct (negb (is_empty ak) && negb (is_empty sk)); cbn [andb].
    + destruct (has_private_channel channels); split;
        try discriminate; try reflexivity.
      intros _. exists ak, sk. repeat split.
    + split; [discriminate | reflexivity].
  - destruct (negb (is_empty ak)); split; try discriminate; reflexivity.
Qed.

Lemma truthy_spec (k : option string) :
  truthy k = true <-> exists v, k = Some v /\ v <> EmptyString.
Proof.
  destruct k as [[| c r] |]; cbn [truthy is_empty negb]; split;
    try discriminate.
  - intros (v & [= <-] & Hv). congruence.
  - intros _. eexists. split; [reflexivity | discriminate].
  - intros _. reflexivity.
  - intros (v & Hv & _). discriminate.
Qed.

Lemma is_private_spec (channel : dict) :
  is_private channel = true <-> private_spec channel.
Proof.
  unfold is_private, private_spec.
  destruct (dict_get channel "type") as [[| b | n | ty | l | d] |];
    try (split; [discriminate | intros [H | H]; discriminate]).
  rewrite orb_true_iff, !String.eqb_eq.
  split; (intros [H | H]; [left | right]); congruence.
Qed.

(** [subscribe] calls the signer exactly when both credentials are
    configured and some channel spec is of a private type. *)
Lemma signs_spec (s : t) (channels : list dict) :
  signs s channels = true <->
  (exists ak sk, credentials s ak sk) /\ Exists private_spec channels.
Proof.
  unfold signs, has_private_channel, credentials.
  rewrite !andb_true_iff, !truthy_spec, existsb_exists, List.Exists_exists.
  split.
  - intros [[(ak & Ha & Hak) (sk & Hs & Hsk)] (ch & Hin & Hp)].
    split; [exists ak, sk; repeat split; assumption |].
    exists ch. split; [exact Hin | apply is_private_spec, Hp].
  - intros [(ak & sk & Ha & Hs & Hak & Hsk) (ch & Hin & Hp)].
    split; [split; eauto |].
    exists ch. split; [exact Hin | apply is_private_spec, Hp].
Qed.

(** C5. A [subscribe] on a connected session whose channel specs all
    have a [type] sends one frame: the ticket element [{ticket}], with
    an [auth] key exactly when both keys are set and some spec is of
    type [myOrder] or [myAsset], the value being the signer's token
    for the two keys and no payload; then one element per spec, with
    the [type] and with [codes], [isOnlyRealtime], [isOnlySnapshot]
    only when the spec has them; then [{format: DEFAULT}]. When the
    send returns, the pair is appended to [subscriptions] and nothing
    else changes; when it raises, the session is as before. *)
Theorem C5_subscribe_frame (s : t) (c : conn) (draw : nat)
    (ticket : string) (channels : list dict) (o : awaited unit) :
  websocket s = Some c ->
  typed channels ->
  exists (r : Py.result unit) (s' : t) (draw' : nat) (tm : dict)
         (ms : list dict),
    subscribe s draw ticket channels o =
      (r, s', draw', [Send c (tm :: ms ++ [[("format", JStr "DEFAULT")]])])
    /\ ((exists ak sk,
            credentials s ak sk /\ Exists private_spec channels
            /\ tm = [("ticket", JStr ticket);
                     ("auth",
                      JStr (generate_jwt_token ak sk None None draw))])
        \/ (~ ((exists ak sk, credentials s ak sk)
               /\ Exists private_spec channels)
            /\ tm = [("ticket", JStr ticket)]))
    /\ Forall2 carries channels ms
    /\ (o = Done tt ->
        r = Ok tt
        /\ subscriptions s' = subscriptions s ++ [(ticket, channels)]
        /\ same_but_subscriptions s s')
    /\ (forall e, o = Thrown e -> r = Raise e /\ s' = s).
Proof.
  intros Hws Htyped.
  destruct (channel_msgs_typed _ Htyped) as [ms Hms].
  unfold subscribe, Stream.subscribe, Stream.subscribe_begin.
  rewrite Hws, Hms. cbn [bind].
  fold (ticket_msg s draw ticket channels).
  destruct (ticket_msg_spec s draw ticket channels) as [Hyes Hno].
  assert (Htm :
    (exists ak sk,
        credentials s ak sk /\ Exists private_spec channels
        /\ ticket_msg s draw ticket channels =
             [("ticket", JStr ticket);
              ("auth", JStr (generate_jwt_token ak sk None None draw))])
    \/ (~ ((exists ak sk, credentials s ak sk)
           /\ Exists private_spec channels)
        /\ ticket_msg s draw ticket channels = [("ticket", JStr ticket)])).
  { destruct (signs s channels) eqn:Hsg.
    - left. destruct (Hyes eq_refl) as (ak & sk & Ha & Hs & Ht).
      apply signs_spec in Hsg.
      destruct Hsg as [(ak' & sk' & Ha' & Hs' & Hak & Hsk) Hp].
      exists ak, sk. split; [| split; [exact Hp | exact Ht]].
      assert (ak' = ak) by congruence. assert (sk' = sk) by congruence.
      subst. repeat split; assumption.
    - right. split; [| exact (Hno eq_refl)].
      intros H. apply signs_spec in H. congruence. }
  destruct o as [[] | e]; cbn [subscribe_end];
    do 5 eexists; (split; [reflexivity |]);
    (split; [exact Htm | split; [apply channel_msgs_carry; exact Hms |]]).
  - split; [intros _ | discriminate].
    split; [reflexivity |]. split; [reflexivity | repeat split].
  - split; [discriminate | intros e' [= <-]; split; reflexivity].
Qed.

(** A spec without a [type] stops [subscribe] with [KeyError] before
    anything is sent; so does a session without a connection, with
    [UpbitError]. *)
Lemma subscribe_missing_type (s : t) (c : conn) (draw : nat)
    (ticket : string) (channels : list dict) (o : awaited unit) :
  websocket s = Some c ->
  ~ typed channels ->
  exists draw',
    subscribe s draw ticket channels o = (Raise (KeyError "type"), s, draw', []).
Proof.
  intros Hws Hnot.
  unfold subscribe, Stream.subscribe, Stream.subscribe_begin. rewrite Hws.
  destruct (channel_msgs channels) as [ms | e] eqn:Hms; cbn [bind].
  - exfalso. apply Hnot. clear -Hms. revert ms Hms.
    induction channels as [| ch rest IH]; intros ms; [constructor |].
    cbn [channel_msgs]. unfold channel_msg, typed, dict_has.
    destruct (dict_get ch "type") eqn:Hty; cbn [bind]; [| discriminate].
    destruct (channel_msgs rest) as [ms' |]; cbn [bind]; [| discriminate].
    intros _. constructor; [now rewrite Hty | exact (IH ms' eq_refl)].
  - rewrite (channel_msgs_raises _ _ Hms). eauto.
Qed.

Lemma subscribe_not_connected (s : t) (draw : nat) (ticket : string)
    (channels : list dict) (o : awaited unit) :
  websocket s = None ->
  subscribe s draw ticket channels o
  = (Raise (UpbitError "Not connected to WebSocket"), s, draw, []).
Proof.
  intros Hws. unfold subscribe, Stream.subscribe, Stream.subscribe_begin.
  rewrite Hws. reflexivity.
Qed.

(** C9. On a connected session where the access key or the secret key
    is missing (or empty), a [subscribe] with a private channel among
    well-formed specs raises nothing when the send returns: the frame
    goes out with the ticket element [{ticket}] alone, no [auth], and
    the pair is appended to [subscriptions]. *)
Theorem C9_private_without_credentials (s : t) (c : conn) (draw : nat)
    (ticket : string) (channels : list dict) :
  websocket s = Some c ->
  (forall ak sk, ~ credentials s ak sk) ->
  Exists private_spec channels ->
  typed channels ->
  exists (s' : t) (ms : list dict),
    subscribe s draw ticket channels (Done tt) =
      (Ok tt, s', draw,
       [Send c ([("ticket", JStr ticket)]
                  :: ms ++ [[("format", JStr "DEFAULT")]])])
    /\ Forall2 carries channels ms
    /\ subscriptions s' = subscriptions s ++ [(ticket, channels)]
    /\ same_but_subscriptions s s'.
Proof.
  intros Hws Hcred _ Htyped.
  destruct (channel_msgs_typed _ Htyped) as [ms Hms].
  assert (Hsigns : signs s channels = false).
  { destruct (signs s channels) eqn:Hsg; [| reflexivity].
    apply signs_spec in Hsg. destruct Hsg as [(ak & sk & Hc) _].
    destruct (Hcred ak sk Hc). }
  eexists _, ms.
  unfold subscribe, Stream.subscribe, Stream.subscribe_begin.
  rewrite Hws, Hms, Hsigns. cbn [bind subscribe_end].
  fold (ticket_msg s draw ticket channels).
  rewrite (proj2 (ticket_msg_spec s draw ticket channels) Hsigns).
  split; [reflexivity |].
  split; [apply channel_msgs_carry; exact Hms |].
  split; [reflexivity | repeat split].
Qed.

(** *** Failures and backoff *)

Let resume := resume generate_jwt_token parses.
Let resume_all := resume_all generate_jwt_token parses.

Lemma handle_failure (s : t) (draw : nat) (e : exn) :
  running s = true ->
  is_Exception e = true ->
  handle s draw e =
    ((set_websocket s None, draw, AtSleep), [Sleep (reconnect_delay s)]).
Proof.
  intros Hrun He. destruct e; cbn [handle]; rewrite ?Hrun;
    try reflexivity. discriminate.
Qed.

(** A failure at an [await] of the [try] block, while running: the
    connection is dropped and the handler sleeps the current delay. *)
Lemma resume_failure (s : t) (draw : nat) (p : pc) (e : exn) :
  in_try p = true ->
  running s = true ->
  is_Exception e = true ->
  resume (s, draw, p) (EvThrown e) =
    ((set_websocket s None, draw, AtSleep), [Sleep (reconnect_delay s)]).
Proof.
  intros Hp Hrun He. unfold resume, Stream.resume.
  destruct p; try discriminate; cbn [connect subscribe_end];
    rewrite ?He; apply handle_failure; auto.
Qed.

(** The sleep of the handler returns: the delay doubles up to the cap
    and the loop goes back to connecting. *)
Lemma resume_slept (s : t) (draw : nat) :
  running s = true ->
  websocket s = None ->
  resume (s, draw, AtSleep) EvDone =
    ((set_reconnect_delay s
        (Qmin (reconnect_delay s * 2) MAX_RECONNECT_DELAY),
      draw, AtConnect), []).
Proof.
  intros Hrun Hws. unfold resume, Stream.resume, loop_head.
  cbn [running set_reconnect_delay websocket]. rewrite Hrun, Hws.
  reflexivity.
Qed.

Lemma failed_round (s : t) (draw : nat) (p : pc) (e : exn)
    (out : list effect) (rest : list event) :
  in_try p = true ->
  running s = true ->
  is_Exception e = true ->
  resume_all ((s, draw, p), out) (EvThrown e :: EvDone :: rest) =
    resume_all
      ((set_reconnect_delay (set_websocket s None)
          (Qmin (reconnect_delay s * 2) MAX_RECONNECT_DELAY),
        draw, AtConnect),
       out ++ [Sleep (reconnect_delay s)]) rest.
Proof.
  intros Hp Hrun He. unfold resume_all. cbn [Stream.resume_all].
  fold resume. rewrite (resume_failure _ _ _ _ Hp Hrun He).
  rewrite (resume_slept (set_websocket s None) draw Hrun eq_refl).
  rewrite app_nil_r. reflexivity.
Qed.

Lemma failures_backoff (es : list exn) :
  forall (s : t) (draw : nat) (p : pc) (out : list effect),
    in_try p = true ->
    running s = true ->
    Forall (fun e => is_Exception e = true) es ->
    exists (s' : t) (p' : pc),
      resume_all ((s, draw, p), out) (failures es) =
        ((s', draw, p'),
         out ++ map Sleep (backoff_from (reconnect_delay s) (length es)))
      /\ running s' = true /\ in_try p' = true
      /\ (es <> [] ->
          p' = AtConnect
          /\ exists d, s' = set_reconnect_delay (set_websocket s None) d).
Proof.
  induction es as [| e es IH]; intros s draw p out Hp Hrun Hall.
  - exists s, p. cbn [failures flat_map length backoff_from map].
    unfold resume_all. cbn [Stream.resume_all]. rewrite app_nil_r.
    split; [reflexivity |]. split; [exact Hrun |]. split; [exact Hp |].
    intros Hne. now contradiction Hne.
  - inversion Hall as [| ? ? He Hes]; subst.
    cbn [failures flat_map app]. fold (failures es).
    rewrite (failed_round _ _ _ _ _ _ Hp Hrun He).
    destruct (IH (set_reconnect_delay (set_websocket s None)
                    (Qmin (reconnect_delay s * 2) MAX_RECONNECT_DELAY))
                draw AtConnect (out ++ [Sleep (reconnect_delay s)])
                eq_refl Hrun Hes)
      as (s' & p' & Hrun' & Hr & Hp' & Hshape).
    exists s', p'. rewrite Hrun'. cbn [length backoff_from map reconnect_delay
                                       set_reconnect_delay].
    rewrite <- app_assoc. cbn [app]. repeat split; auto.
    + destruct es as [| e' es'].
      * cbn in Hrun'. injection Hrun' as <- <- _. reflexivity.
      * apply Hshape. discriminate.
    + destruct es as [| e' es'].
      * cbn in Hrun'. injection Hrun' as <- <- _. eauto.
      * destruct Hshape as [_ [d ->]]; [discriminate |]. eauto.
Qed.

Lemma sleeps_app (a b : list effect) :
  sleeps (a ++ b) = sleeps a ++ sleeps b.
Proof. unfold sleeps. apply omap_app. Qed.

Lemma sleeps_map_Sleep (l : list Q) : sleeps (map Sleep l) = l.
Proof.
  unfold sleeps. induction l as [| d l IH]; cbn; [| rewrite IH]; reflexivity.
Qed.

End WithCollaborators.

(** The delay after one more doubling, in closed form. *)
Lemma spec_backoff_step (i : nat) :
  Qmin (spec_backoff i * 2) MAX_RECONNECT_DELAY = spec_backoff (S i).
Proof.
  unfold spec_backoff, MAX_RECONNECT_DELAY, inject_Z.
  rewrite Nat2Z.inj_succ, Z.pow_succ_r by lia.
  assert (Hpos : 0 < 2 ^ Z.of_nat i) by (apply Z.pow_pos_nonneg; lia).
  set (a := 2 ^ Z.of_nat i) in *.
  unfold Qmin, GenericMinMax.gmin, Qcompare, Qmult. cbn [Qnum Qden].
  rewrite !Z.mul_1_r.
  destruct (Z.compare_spec (Z.min a 60 * 2) 60) as [H | H | H];
    f_equal; lia.
Qed.

Lemma backoff_from_spec (n : nat) :
  forall i, backoff_from (spec_backoff i) n = map spec_backoff (seq i n).
Proof.
  induction n as [| n IH]; intros i; cbn [backoff_from seq map].
  - reflexivity.
  - rewrite spec_backoff_step, IH. reflexivity.
Qed.

Section Loop.

Variable generate_jwt_token :
  string -> string -> option dict -> option dict -> nat -> string.
Variable parses : string -> bool.

Let resume_all := resume_all generate_jwt_token parses.
Let run := run generate_jwt_token parses.

(** C4. While the session is running, [n] failures in a row (the
    awaited call of the [try] block raises, no connect succeeds in
    between) from the delay 1.0 sleep 1, 2, 4, 8, 16, 32, 60, 60, ...:
    each failure sleeps the current delay and then doubles it up to
    60.0. A [connect] that succeeds sets the delay back to 1.0. *)
Theorem C4_backoff_sequence :
  (forall (s : t) (draw : nat) (p : pc) (es : list exn),
      in_try p = true ->
      running s = true ->
      reconnect_delay s = 1%Q ->
      Forall (fun e => is_Exception e = true) es ->
      sleeps (snd (resume_all ((s, draw, p), []) (failures es)))
      = map spec_backoff (seq 0 (length es)))
  /\ (forall (s : t) (draw : nat) (es : list exn),
        websocket s = None ->
        running s = true ->
        reconnect_delay s = 1%Q ->
        Forall (fun e => is_Exception e = true) es ->
        sleeps (snd (run s draw (failures es)))
        = map spec_backoff (seq 0 (length es)))
  /\ map spec_backoff (seq 0 8) = [1; 2; 4; 8; 16; 32; 60; 60]%Q
  /\ (forall i, (6 <= i)%nat -> spec_backoff i = 60%Q)
  /\ (forall (s : t) (draw : nat) (p : pc) (e : exn),
        in_try p = true ->
        running s = true ->
        is_Exception e = true ->
        resume_all ((s, draw, p), []) [EvThrown e; EvDone] =
          ((set_reconnect_delay (set_websocket s None)
              (Qmin (reconnect_delay s * 2) 60), draw, AtConnect),
           [Sleep (reconnect_delay s)]))
  /\ (forall (s : t) (c : conn),
        exists s', connect s (Done c) = (Ok tt, s')
                   /\ reconnect_delay s' = 1%Q).
Proof.
  assert (H1 : forall (s : t) (draw : nat) (p : pc) (es : list exn),
             in_try p = true ->
             running s = true ->
             reconnect_delay s = 1%Q ->
             Forall (fun e => is_Exception e = true) es ->
             sleeps (snd (resume_all ((s, draw, p), []) (failures es)))
             = map spec_backoff (seq 0 (length es))).
  { intros s draw p es Hp Hrun Hd Hall.
    destruct (failures_backoff generate_jwt_token parses es s draw p []
                Hp Hrun Hall) as (s' & p' & Hr & _).
    unfold resume_all. rewrite Hr. cbn [snd app].
    rewrite sleeps_map_Sleep, Hd.
    exact (backoff_from_spec (length es) 0). }
  split; [exact H1 |]. split.
  { intros s draw es Hws Hrun Hd Hall.
    unfold run, Stream.run, loop_head. rewrite Hrun, Hws.
    apply H1; auto. }
  split; [reflexivity |]. split.
  { intros i Hi. unfold spec_backoff, inject_Z. f_equal.
    assert (2 ^ 6 <= 2 ^ Z.of_nat i)%Z by (apply Z.pow_le_mono_r; lia).
    change (2 ^ 6)%Z with 64%Z in *. lia. }
  split.
  { intros s draw p e Hp Hrun He.
    unfold resume_all.
    rewrite (failed_round generate_jwt_token parses _ _ _ _ _ _ Hp Hrun He).
    reflexivity. }
  intros s c. eexists. split; reflexivity.
Qed.

(** *** Replay after a reconnect *)

Let subscribe_begin := subscribe_begin generate_jwt_token.
Let replay := replay generate_jwt_token.

Lemma subscribe_begin_typed (s : t) (c : conn) (draw : nat)
    (ticket : string) (channels : list dict) :
  websocket s = Some c ->
  typed channels ->
  exists frame draw',
    subscribe_begin s draw ticket channels = (Ok (c, frame), draw').
Proof.
  intros Hws Hty. destruct (channel_msgs_typed _ Hty) as [ms Hms].
  unfold subscribe_begin, Stream.subscribe_begin. rewrite Hws, Hms.
  cbn [bind]. eauto.
Qed.

Lemma subscribe_begin_subscriptions (s : t) (l : list subscription)
    (draw : nat) (ticket : string) (channels : list dict) :
  subscribe_begin (set_subscriptions s l) draw ticket channels
  = subscribe_begin s draw ticket channels.
Proof. reflexivity. Qed.

(** When every send returns, the replay sends one frame per pair, in
    order, and appends the pairs back. *)
Lemma replay_done (pending : list subscription) :
  forall (s : t) (c : conn) (draw : nat) (out : list effect),
    websocket s = Some c ->
    Forall (fun sub => typed (snd sub)) pending ->
    exists (draw' : nat) (fs : list (conn * list dict)),
      resume_all (let (k, o) := replay s draw pending in (k, out ++ o))
        (repeat EvDone (length pending))
      = ((set_subscriptions s (subscriptions s ++ pending), draw',
          AtRecv c),
         out ++ map (fun f => Send (fst f) (snd f)) fs)
      /\ Forall2 (built_for generate_jwt_token s) pending fs.
Proof.
  induction pending as [| [ticket channels] rest IH];
    intros s c draw out Hws Hall.
  - exists draw, []. split; [| constructor].
    unfold replay, Stream.replay, after_resubscribe. rewrite Hws.
    cbn. rewrite !app_nil_r. destruct s; reflexivity.
  - inversion Hall as [| ? ? Hty Hrest]; subst. cbn [snd] in Hty.
    destruct (subscribe_begin_typed s c draw ticket channels Hws Hty)
      as (frame & draw1 & Hb).
    unfold replay, Stream.replay. fold subscribe_begin. rewrite Hb.
    cbn [length repeat]. unfold resume_all. cbn [Stream.resume_all].
    cbn [Stream.resume subscribe_end]. fold replay.
    destruct (IH (set_subscriptions s (subscriptions s ++ [(ticket, channels)]))
                c draw1 (out ++ [Send c frame]) Hws Hrest)
      as (draw' & fs & Hrun & Hfs).
    exists draw', ((c, frame) :: fs). split.
    + unfold resume_all in Hrun.
      destruct (replay _ draw1 rest) as [k o].
      rewrite Hrun. cbn [set_subscriptions subscriptions map fst snd].
      rewrite <- !app_assoc. reflexivity.
    + constructor; [exists draw, draw1; exact Hb | exact Hfs].
Qed.

(** When the send of one replayed frame raises, the pairs re-sent before
    it are tracked again, that pair and the pairs after it are not: the
    handler finds [subscriptions] cut down to the pairs already re-sent. *)
Lemma replay_interrupted (pre : list subscription) :
  forall (s : t) (c : conn) (draw : nat) (out : list effect)
         (sub : subscription) (post : list subscription) (e : exn),
    websocket s = Some c ->
    running s = true ->
    is_Exception e = true ->
    Forall (fun sub => typed (snd sub)) (pre ++ [sub]) ->
    exists (draw' : nat) (out' : list effect),
      resume_all
        (let (k, o) := replay s draw (pre ++ sub :: post) in (k, out ++ o))
        (repeat EvDone (length pre) ++ [EvThrown e])
      = ((set_websocket (set_subscriptions s (subscriptions s ++ pre)) None,
          draw', AtSleep), out').
Proof.
  induction pre as [| [ticket channels] pre IH];
    intros s c draw out sub post e Hws Hrun He Hall.
  - destruct sub as [ticket channels].
    inversion Hall as [| ? ? Hty _]; subst. cbn [snd] in Hty.
    destruct (subscribe_begin_typed s c draw ticket channels Hws Hty)
      as (frame & draw1 & Hb).
    cbn [app length repeat].
    unfold replay, Stream.replay. fold subscribe_begin. rewrite Hb.
    unfold resume_all. cbn [Stream.resume_all Stream.resume subscribe_end].
    rewrite (handle_failure s draw1 e Hrun He).
    rewrite app_nil_r. destruct s; eauto.
  - inversion Hall as [| ? ? Hty Hrest]; subst. cbn [snd] in Hty.
    destruct (subscribe_begin_typed s c draw ticket channels Hws Hty)
      as (frame & draw1 & Hb).
    cbn [app length repeat].
    unfold replay, Stream.replay. fold subscribe_begin. rewrite Hb.
    unfold resume_all. cbn [Stream.resume_all Stream.resume subscribe_end].
    fold replay.
    destruct (IH (set_subscriptions s (subscriptions s ++ [(ticket, channels)]))
                c draw1 (out ++ [Send c frame]) sub post e Hws Hrun He Hrest)
      as (draw' & out' & Hgo).
    unfold resume_all in Hgo.
    destruct (replay _ draw1 (pre ++ sub :: post)) as [k o].
    rewrite Hgo. cbn [set_subscriptions subscriptions].
    rewrite <- app_assoc. eauto.
Qed.

(** After a failure while running and any number of failed connects,
    a connect that succeeds followed by sends that all return replays
    the tracked pairs, one frame each, in order, on the new connection,
    and leaves [subscriptions] as it was. *)
Lemma reconnect_replays (s : t) (draw : nat) (p : pc) (e : exn)
    (es : list exn) (c : conn) :
  in_try p = true ->
  running s = true ->
  Forall (fun e => is_Exception e = true) (e :: es) ->
  Forall (fun sub => typed (snd sub)) (subscriptions s) ->
  exists (s' : t) (draw' : nat) (zs : list Q)
         (fs : list (conn * list dict)),
    resume_all ((s, draw, p), [])
      (failures (e :: es) ++ EvConn c
         :: repeat EvDone (length (subscriptions s)))
    = ((s', draw', AtRecv c),
       map Sleep zs ++ map (fun f => Send (fst f) (snd f)) fs)
    /\ subscriptions s' = subscriptions s
    /\ websocket s' = Some c
    /\ running s' = true
    /\ Forall2 (built_for generate_jwt_token s') (subscriptions s) fs.
Proof.
  intros Hp Hrun Hall Hty.
  destruct (failures_backoff generate_jwt_token parses (e :: es) s draw p []
              Hp Hrun Hall) as (s1 & p1 & Hr & Hrun1 & _ & Hshape).
  destruct Hshape as [-> [d ->]]; [discriminate |].
  assert (Happ : forall r l1 l2,
             resume_all r (l1 ++ l2) = resume_all (resume_all r l1) l2).
  { intros r l1. revert r. induction l1 as [| ev l1 IHl]; intros r l2;
      [reflexivity |].
    unfold resume_all in *. cbn [app Stream.resume_all].
    destruct r as [k o]. destruct (Stream.resume _ _ k ev). apply IHl. }
  rewrite Happ. unfold resume_all in Hr |- *. rewrite Hr.
  cbn [app Stream.resume_all Stream.resume connect].
  set (s1 := set_reconnect_delay (set_running _ true) RECONNECT_DELAY).
  unfold resubscribe.
  change (subscriptions s1) with (subscriptions s).
  destruct (replay_done (subscriptions s) (set_subscriptions s1 []) c draw
              (map Sleep (backoff_from (reconnect_delay s) (length (e :: es))))
              eq_refl Hty) as (draw' & fs & Hrun2 & Hfs).
  unfold resume_all, replay in Hrun2.
  destruct (Stream.replay generate_jwt_token (set_subscriptions s1 []) draw
              (subscriptions s)) as [k1 out1].
  rewrite Hrun2.
  exists (set_subscriptions (set_subscriptions s1 [])
            (subscriptions (set_subscriptions s1 []) ++ subscriptions s)),
    draw', (backoff_from (reconnect_delay s) (length (e :: es))), fs.
  repeat split; try reflexivity. exact Hfs.
Qed.

(** *** Connected implies running *)

Let resume := resume generate_jwt_token parses.
Let exec := exec generate_jwt_token parses.
Let exec_all := exec_all generate_jwt_token parses.

Lemma loop_head_keeps (s : t) (draw : nat) :
  cfg_sess (loop_head s draw) = s.
Proof.
  unfold loop_head. destruct (running s); [destruct (websocket s) |];
    reflexivity.
Qed.

Lemma handle_keeps (s : t) (draw : nat) (e : exn) :
  connected_implies_running s ->
  e <> CancelledError ->
  connected_implies_running (cfg_sess (handle s draw e)).
Proof.
  intros Hinv He.
  assert (Hdrop : connected_implies_running (set_websocket s None))
    by (intros Hws; now contradiction Hws).
  destruct e; cbn [handle]; try congruence;
    destruct (running s) eqn:Hrun; try exact Hdrop; try exact Hinv.
  rewrite loop_head_keeps. exact Hinv.
Qed.

Lemma subscribe_begin_raises (s : t) (draw draw' : nat) (ticket : string)
    (channels : list dict) (e : exn) :
  subscribe_begin s draw ticket channels = (Raise e, draw') ->
  e <> CancelledError.
Proof.
  unfold subscribe_begin, Stream.subscribe_begin.
  destruct (websocket s); [| intros [= <- _]; discriminate].
  destruct (channel_msgs channels) as [ms | e'] eqn:Hms; cbn [bind];
    [discriminate |].
  intros [= <- _]. rewrite (channel_msgs_raises _ _ Hms). discriminate.
Qed.

Lemma replay_keeps (s : t) (draw : nat) (pending : list subscription) :
  connected_implies_running s ->
  connected_implies_running (cfg_sess (replay s draw pending)).
Proof.
  intros Hinv. unfold replay, Stream.replay.
  destruct pending as [| [ticket channels] rest].
  - unfold after_resubscribe. destruct (websocket s) eqn:Hws;
      [exact Hinv | rewrite loop_head_keeps; exact Hinv].
  - fold subscribe_begin.
    destruct (subscribe_begin s draw ticket channels) as [[[c f] | e] d']
      eqn:Hb; [exact Hinv |].
    apply handle_keeps; [exact Hinv |].
    eapply subscribe_begin_raises; eassumption.
Qed.

Lemma resume_keeps (s : t) (draw : nat) (p : pc) (ev : event) :
  connected_implies_running s ->
  ev <> EvThrown CancelledError ->
  connected_implies_running (cfg_sess (resume (s, draw, p) ev)).
Proof.
  intros Hinv Hev. unfold resume, Stream.resume.
  assert (Hrun : forall s0 : t, running s0 = true ->
                                connected_implies_running s0)
    by (intros s0 H _; exact H).
  destruct p as [| ticket channels rest | c | c | | r]; destruct ev as [c' | | m | | e];
    try exact Hinv; cbn [connect subscribe_end resubscribe].
  - apply replay_keeps. apply Hrun. reflexivity.
  - destruct (is_Exception e) eqn:He.
    + apply handle_keeps; [exact Hinv | discriminate].
    + destruct e; try discriminate. congruence.
  - apply replay_keeps. exact Hinv.
  - apply handle_keeps; [exact Hinv | congruence].
  - destruct (parses m); [exact Hinv |].
    apply handle_keeps; [exact Hinv | discriminate].
  - rewrite loop_head_keeps. exact Hinv.
  - apply handle_keeps; [exact Hinv | congruence].
  - apply handle_keeps; [exact Hinv | congruence].
  - rewrite loop_head_keeps. exact Hinv.
Qed.

Lemma exec_keeps (m : machine) (o : op) :
  connected_implies_running (sess m) ->
  disturbs o = false ->
  connected_implies_running (sess (exec m o)).
Proof.
  intros Hinv Hcalm. unfold exec, Stream.exec.
  destruct o as [oc | ticket channels os | ticket | oc | | ev].
  - destruct oc as [c | e]; cbn [connect snd sess].
    + intros _. reflexivity.
    + destruct (is_Exception e); exact Hinv.
  - unfold subscribe.
    destruct (Stream.subscribe_begin _ _ _ _ _) as [[[c f] | e] d'];
      [| exact Hinv].
    destruct os as [[] | e]; cbn [subscribe_end sess]; exact Hinv.
  - exact Hinv.
  - unfold close. cbn [websocket set_running].
    destruct (websocket (sess m)) eqn:Hws.
    + destruct oc as [[] | e]; [| discriminate].
      cbn [sess]. intros H. now contradiction H.
    + cbn [sess]. intros H. cbn [websocket set_running] in H. congruence.
  - destruct (task m) as [[| ? ? ? | ? | ? | | r] |]; try exact Hinv;
      pose proof (loop_head_keeps (sess m) (draws m)) as Hk;
      destruct (loop_head (sess m) (draws m)) as [[[s' d'] p'] out];
      cbn [sess]; unfold cfg_sess in Hk; cbn [fst] in Hk; subst s';
      exact Hinv.
  - destruct (task m) as [p |]; [| exact Hinv].
    assert (Hev : ev <> EvThrown CancelledError).
    { intros ->. discriminate. }
    pose proof (resume_keeps (sess m) (draws m) p ev Hinv Hev) as Hk.
    unfold resume in Hk.
    destruct (Stream.resume _ _ _ ev) as [[[s' d'] p'] out].
    exact Hk.
Qed.

(** C3 (as amended). From a fresh session, after any sequence of
    completed [connect], [subscribe], [unsubscribe], [close] calls and
    resumptions of [run] in which no cancellation is delivered to
    [run] and no [websocket.close()] raises, a session that holds a
    connection is running. A cancellation delivered to [run] at an
    [await] of its [try] block sets [running] to false, leaves the
    connection where it is and is raised again. *)
Theorem C3_connected_implies_running :
  (forall (ak sk : option string) (ops : list op),
      Forall (fun o => disturbs o = false) ops ->
      connected_implies_running (sess (exec_all (start ak sk) ops)))
  /\ (forall (s : t) (draw : nat) (p : pc),
        in_try p = true ->
        resume (s, draw, p) (EvThrown CancelledError)
        = ((set_running s false, draw, Finished (Raise CancelledError)), [])).
Proof.
  split.
  - intros ak sk ops Hall. unfold exec_all, Stream.exec_all.
    assert (H0 : connected_implies_running (sess (start ak sk)))
      by (intros H; now contradiction H).
    revert H0. generalize (start ak sk).
    induction Hall as [| o ops Ho _ IH]; intros m Hinv; cbn [fold_left].
    + exact Hinv.
    + apply IH. apply exec_keeps; assumption.
  - intros s draw p Hp. destruct p; try discriminate; reflexivity.
Qed.

End Loop.

(** The two scenarios of the frame: a public channel without
    credentials, a private channel with credentials. *)
Example subscribe_ticker_no_credentials :
  subscribe sample_signer (connected None None 1%nat []) 0 "id" [ticker_btc]
    (Done tt)
  = (Ok tt, connected None None 1%nat [("id", [ticker_btc])], 0%nat,
     [Send 1%nat [[("ticket", JStr "id")];
                  [("type", JStr "ticker");
                   ("codes", JList [JStr "KRW-BTC"])];
                  [("format", JStr "DEFAULT")]]]).
Proof. reflexivity. Qed.

Example subscribe_my_order_with_credentials :
  subscribe sample_signer (connected (Some "ak") (Some "sk") 1%nat []) 0 "id"
    [my_order] (Done tt)
  = (Ok tt, connected (Some "ak") (Some "sk") 1%nat [("id", [my_order])],
     1%nat,
     [Send 1%nat [[("ticket", JStr "id");
                   ("auth", JStr (sample_signer "ak" "sk" None None 0))];
                  [("type", JStr "myOrder")];
                  [("format", JStr "DEFAULT")]]]).
Proof. reflexivity. Qed.

Lemma C5_subscribe_frame_witness :
  exists (r : Py.result unit) (s' : t) (draw' : nat) (tm : dict)
         (ms : list dict),
    subscribe sample_signer
      (Stream.mk (Some "ak") (Some "sk") (Some 1%nat) [] true 1) 0
      "id" [my_order; ticker_btc] (Done tt)
    = (r, s', draw',
       [Send 1%nat (tm :: ms ++ [[("format", JStr "DEFAULT")]])])
    /\ ((exists ak sk,
            credentials
              (Stream.mk (Some "ak") (Some "sk") (Some 1%nat) [] true 1) ak sk
            /\ Exists private_spec [my_order; ticker_btc]
            /\ tm = [("ticket", JStr "id");
                     ("auth", JStr (sample_signer ak sk None None 0))])
        \/ (~ ((exists ak sk,
                   credentials
                     (Stream.mk (Some "ak") (Some "sk") (Some 1%nat) [] true 1)
                     ak sk)
               /\ Exists private_spec [my_order; ticker_btc])
            /\ tm = [("ticket", JStr "id")]))
    /\ Forall2 carries [my_order; ticker_btc] ms
    /\ (Done tt = Done tt ->
        r = Ok tt
        /\ subscriptions s' = [] ++ [("id", [my_order; ticker_btc])]
        /\ same_but_subscriptions
             (Stream.mk (Some "ak") (Some "sk") (Some 1%nat) [] true 1) s')
    /\ (forall e, Done tt = Thrown e ->
                  r = Raise e
                  /\ s' = Stream.mk (Some "ak") (Some "sk") (Some 1%nat) []
                            true 1).
Proof.
  exact (C5_subscribe_frame sample_signer
           (Stream.mk (Some "ak") (Some "sk") (Some 1%nat) [] true 1)
           1%nat 0%nat "id" [my_order; ticker_btc] (Done tt) eq_refl
           ltac:(repeat constructor)).
Defined.

Lemma C9_private_without_credentials_witness :
  exists (s' : t) (ms : list dict),
    subscribe sample_signer
      (Stream.mk (Some "ak") None (Some 1%nat) [] true 1) 0 "id"
      [my_order] (Done tt)
    = (Ok tt, s', 0%nat,
       [Send 1%nat ([("ticket", JStr "id")]
                      :: ms ++ [[("format", JStr "DEFAULT")]])])
    /\ Forall2 carries [my_order] ms
    /\ subscriptions s' = [] ++ [("id", [my_order])]
    /\ same_but_subscriptions
         (Stream.mk (Some "ak") None (Some 1%nat) [] true 1) s'.
Proof.
  refine (C9_private_without_credentials sample_signer
            (Stream.mk (Some "ak") None (Some 1%nat) [] true 1) 1%nat 0%nat
            "id" [my_order] eq_refl _ _ ltac:(repeat constructor)).
  - intros ak sk (_ & Hs & _). discriminate Hs.
  - constructor. left. reflexivity.
Defined.

(** C2. A session that tracks two subscriptions loses them when the
    connection drops again during the replay: the connection closes,
    the handler sleeps, [connect] returns connection 2, the send of the
    first replayed frame raises [ConnectionClosed]; [subscriptions] is
    then empty, and after the next sleep and a [connect] that returns
    connection 3 nothing is replayed on it. *)
Theorem C2_failed_replay_drops_subscriptions :
  let s := connected None None 1%nat
             [("t1", [ticker_btc]); ("t2", [orderbook_eth])] in
  let r := resume_all sample_signer sample_parses
             ((s, 0%nat, AtRecv 1%nat), [])
             [EvThrown ConnectionClosed; EvDone; EvConn 2%nat;
              EvThrown ConnectionClosed; EvDone; EvConn 3%nat] in
  subscriptions (cfg_sess r) = []
  /\ websocket (cfg_sess r) = Some 3%nat
  /\ running (cfg_sess r) = true
  /\ snd (fst r) = AtRecv 3%nat
  /\ map fst (frames (snd r)) = [2%nat].
Proof. repeat split. Qed.

(** What the same session does when every send of the replay returns:
    both pairs are sent again on the new connection, in order, and
    tracked as before. *)
Example replay_restores_subscriptions :
  let s := connected None None 1%nat
             [("t1", [ticker_btc]); ("t2", [orderbook_eth])] in
  let r := resume_all sample_signer sample_parses
             ((s, 0%nat, AtRecv 1%nat), [])
             [EvThrown ConnectionClosed; EvDone; EvConn 2%nat;
              EvDone; EvDone] in
  subscriptions (cfg_sess r) = subscriptions s
  /\ snd (fst r) = AtRecv 2%nat
  /\ map fst (frames (snd r)) = [2%nat; 2%nat]
  /\ sleeps (snd r) = [1%Q].
Proof. repeat split. Qed.

(** C3, as stated, fails: after [connect] returns and a cancellation
    reaches [run] while it waits for a message, the session holds the
    connection and is not running. *)
Lemma C3_cancelled_run_keeps_connection :
  ~ connected_implies_running
      (sess (exec_all sample_signer sample_parses (start None None)
               [Connect (Done 7%nat); RunStart;
                RunResume (EvThrown CancelledError)])).
Proof.
  intros H. cbv in H. specialize (H ltac:(discriminate)). discriminate.
Qed.

Lemma C3_connected_implies_running_witness :
  connected_implies_running
    (sess (exec_all sample_signer sample_parses (start None None)
             [Connect (Done 7%nat); Subscribe "t1" [ticker_btc] (Done tt);
              RunStart; RunResume (EvItem "{}"); RunResume EvDone;
              RunResume (EvThrown ConnectionClosed); RunResume EvDone;
              RunResume (EvConn 8%nat); Unsubscribe "t1";
              Close (Done tt)])).
Proof.
  exact (proj1 (C3_connected_implies_running sample_signer sample_parses)
           None None
           [Connect (Done 7%nat); Subscribe "t1" [ticker_btc] (Done tt);
            RunStart; RunResume (EvItem "{}"); RunResume EvDone;
            RunResume (EvThrown ConnectionClosed); RunResume EvDone;
            RunResume (EvConn 8%nat); Unsubscribe "t1";
            Close (Done tt)]
           ltac:(repeat constructor)).
Defined.

Lemma C4_backoff_sequence_witness :
  sleeps (snd (resume_all sample_signer sample_parses
                 ((set_running (set_websocket (init None None) (Some 3%nat))
                     true, 0%nat, AtRecv 3%nat), [])
                 (failures [ConnectionClosed; OtherException "OSError";
                            OtherException "OSError"])))
  = [1; 2; 4]%Q.
Proof.
  exact (proj1 (C4_backoff_sequence sample_signer sample_parses)
           (set_running (set_websocket (init None None) (Some 3%nat)) true)
           0%nat (AtRecv 3%nat)
           [ConnectionClosed; OtherException "OSError";
            OtherException "OSError"]
           eq_refl eq_refl eq_refl
           ltac:(repeat constructor)).
Defined.

End StreamFacts.

(** * More properties of the rate limiter *)

Module LimiterMore.

Import Limiter History LimiterFacts.
Local Open Scope list_scope.

(** *** What a history cannot change *)

Lemma settled_pass (s0 s : t) (current_time : Q) :
  0 <= max_retries s0 ->
  settled s0 s ->
  settled s0 (pass_state (wait_if_needed_pass s current_time)).
Proof.
  intros H0 (Hg & Hm & Ha & Hr & Hb & Hd & Hk).
  unfold wait_if_needed_pass, settled.
  destruct (_ >=? _); [destruct (negb _) |];
    cbn [pass_state group_name max_requests auto_retry max_retries base_delay
           max_delay retry_count set_bucket set_retry_count];
    repeat split; try assumption; try lia.
Qed.

Lemma settled_action (s0 s : t) (a : action) :
  0 <= max_retries s0 ->
  settled s0 s -> settled s0 (apply_action s a).
Proof.
  intros H0 Hs. destruct a as [headers | | ct]; cbn [apply_action].
  - destruct (update_returns s headers) as (s' & -> & Hs').
    rewrite <- Hs' in Hs. exact Hs.
  - destruct Hs as (Hg & Hm & Ha & Hr & Hb & Hd & Hk).
    unfold settled, reset. cbn. repeat split; try assumption; lia.
  - apply settled_pass; assumption.
Qed.

Lemma settled_actions (l : list action) :
  forall s0 s, 0 <= max_retries s0 ->
               settled s0 s -> settled s0 (apply_actions s l).
Proof.
  induction l as [| a l IH]; intros s0 s H0 Hs; [exact Hs |].
  unfold apply_actions. cbn [fold_left]. apply IH; [exact H0 |].
  apply settled_action; assumption.
Qed.

Lemma settled_wait (ticks : list tick) :
  forall depth s0 s slept,
    0 <= max_retries s0 ->
    settled s0 s ->
    settled s0 (outcome_state (wait_if_needed_from depth slept s ticks)).
Proof.
  induction ticks as [| tk rest IH]; intros depth s0 s slept H0 Hs;
    cbn [wait_if_needed_from outcome_state]; [exact Hs |].
  pose proof (settled_pass s0 s (now tk) H0 Hs) as Hp.
  destruct (wait_if_needed_pass s (now tk)) as [s1 | e s1 | d s1];
    cbn [pass_state outcome_state] in *; try exact Hp.
  destruct depth as [| depth']; cbn [outcome_state]; [exact Hp |].
  apply IH; [exact H0 |]. apply settled_actions; assumption.
Qed.

Lemma settled_calls (calls : list call) :
  forall s0 s, 0 <= max_retries s0 ->
               settled s0 s -> settled s0 (after_calls s calls).
Proof.
  induction calls as [| c rest IH]; intros s0 s H0 Hs; [exact Hs |].
  unfold after_calls. cbn [fold_left]. apply IH; [exact H0 |].
  destruct c as [depth ticks | a]; cbn [after_call].
  - apply settled_wait; assumption.
  - apply settled_action; assumption.
Qed.

Lemma settled_init (g : string) (n : Z) (a : bool) :
  settled (init g n a) (init g n a).
Proof. unfold settled. cbn. repeat split; lia. Qed.

(** X1. Whatever calls a limiter has served, [reset] puts it back in the
    state [__init__] gave it. *)
Theorem reset_is_fresh (g : string) (n : Z) (a : bool) (calls : list call) :
  reset (after_calls (init g n a) calls) = init g n a.
Proof.
  destruct (settled_calls calls (init g n a) (init g n a) ltac:(cbn; lia)
              (settled_init g n a)) as (Hg & Hm & Ha & Hr & Hb & Hd & _).
  destruct (after_calls (init g n a) calls). cbn in *. subst.
  reflexivity.
Qed.

(** *** The sleeps *)

Lemma base_wait_nonneg (current_time : Q) (b : list Q) :
  (0 <= base_wait current_time b)%Q.
Proof.
  destruct b as [| oldest rest]; cbn [base_wait]; [discriminate |].
  apply Q.le_max_l.
Qed.

Lemma pow2_range (k : Z) : 0 <= k <= 5 -> (1 <= pow2 k <= 32)%Q.
Proof.
  intros Hk. unfold pow2.
  assert (Hc : k = 0 \/ k = 1 \/ k = 2 \/ k = 3 \/ k = 4 \/ k = 5) by lia.
  destruct Hc as [-> | [-> | [-> | [-> | [-> | ->]]]]];
    split; vm_compute; discriminate.
Qed.

(** X2. On a limiter made by [__init__], after any calls, every sleep of
    [wait_if_needed] lasts at least 1.0 and at most 60.0 seconds, and at
    least [min(2^k, 60)] for the retry count [k] it starts from. *)
Theorem sleep_between_1_and_60 (g : string) (n : Z) (a : bool)
    (calls : list call) (current_time d : Q) (s' : t) :
  wait_if_needed_pass (after_calls (init g n a) calls) current_time
  = Sleeps d s' ->
  (1 <= d <= 60)%Q
  /\ (Qmin (pow2 (retry_count (after_calls (init g n a) calls))) 60 <= d)%Q.
Proof.
  destruct (settled_calls calls (init g n a) (init g n a) ltac:(cbn; lia)
              (settled_init g n a)) as (_ & _ & _ & Hr & Hb & Hd & Hk).
  set (s := after_calls (init g n a) calls) in *.
  cbn [init max_retries base_delay max_delay] in Hr, Hb, Hd, Hk.
  destruct (pass_cases s current_time) as [Hlt | Hge].
  { rewrite (pass_acquires _ _ Hlt). discriminate. }
  rewrite (pass_full _ _ Hge). cbn zeta.
  destruct (auto_retry s); [| discriminate].
  intros [= <- _]. unfold wait_time.
  cbn [retry_count bucket base_delay max_delay set_bucket].
  rewrite Hb, Hd.
  pose proof (base_wait_nonneg current_time (leak current_time (bucket s)))
    as Hw.
  destruct (pow2_range (retry_count s) Hk) as [Hp1 Hp2].
  set (w := base_wait _ _) in *. set (m := pow2 _) in *.
  assert (Hsum : (m <= w * m + 1 * m)%Q) by nra.
  repeat split.
  - apply Q.min_glb; [lra | discriminate].
  - apply Q.le_min_r.
  - apply Q.min_le_compat_r. exact Hsum.
Qed.

(** *** Progress *)

Lemma leak_all_aged (current_time : Q) (b : list Q) :
  all_aged current_time b -> leak current_time b = [].
Proof.
  induction 1 as [| e b He _ IH]; cbn [leak]; [reflexivity |].
  assert (Ha : aged current_time e = true).
  { apply Qle_bool_iff. pose proof ONE_ROUNDED_range. lra. }
  rewrite Ha. exact IH.
Qed.

Lemma all_aged_leak (t0 t1 : Q) (b : list Q) :
  all_aged t1 b -> all_aged t1 (leak t0 b).
Proof.
  intros Hb. destruct (leak_suffix t0 b) as [pre Hpre].
  unfold all_aged in *. rewrite Hpre in Hb. apply Forall_app in Hb. tauto.
Qed.

Lemma returns_when_aged (ticks : list tick) :
  forall (depth : nat) (s : t) (slept : list Q) (tk : tick)
         (rest : list tick),
    (length ticks <= depth)%nat ->
    auto_retry s = true ->
    1 <= effective_limit s ->
    Forall quiet ticks ->
    all_aged (now tk) (bucket s) ->
    exists s' sl,
      wait_if_needed_from depth slept s (ticks ++ tk :: rest) = Returned s' sl
      /\ (length sl <= length slept + length ticks)%nat.
Proof.
  induction ticks as [| t0 ticks IH];
    intros depth s slept tk rest Hd Ha Hl Hq Hb.
  - cbn [app wait_if_needed_from].
    assert (Hlt : Z.of_nat (length (leak (now tk) (bucket s)))
                  < effective_limit s).
    { rewrite (leak_all_aged _ _ Hb). cbn [length]. lia. }
    rewrite (pass_acquires _ _ Hlt). eexists _, slept. split; [reflexivity |].
    cbn [length]. lia.
  - inversion Hq as [| ? ? Hq0 Hq']; subst.
    cbn [app wait_if_needed_from].
    destruct (pass_cases s (now t0)) as [Hlt | Hge].
    + rewrite (pass_acquires _ _ Hlt). eexists _, slept.
      split; [reflexivity |]. cbn [length]. lia.
    + rewrite (pass_full _ _ Hge). cbn zeta. rewrite Ha, Hq0.
      destruct depth as [| depth']; [cbn [length] in Hd; lia |].
      unfold apply_actions. cbn [fold_left].
      destruct (IH depth' (set_retry_count
                      (set_bucket s (leak (now t0) (bucket s)))
                      (Z.min (retry_count s + 1) (max_retries s)))
                  (slept ++ [wait_time (set_bucket s (leak (now t0) (bucket s)))
                               (now t0)])
                  tk rest ltac:(cbn [length] in Hd; lia) Ha Hl Hq')
        as (s' & sl & Hrun & Hlen).
      { cbn [bucket set_retry_count set_bucket]. apply all_aged_leak, Hb. }
      exists s', sl. split; [exact Hrun |].
      rewrite length_app in Hlen. cbn [length] in *. lia.
Qed.

(** X3. With auto-retry on, an effective limit of at least 1 and nothing
    else touching the limiter, [wait_if_needed] returns no later than the
    first clock reading that is a full second after every timestamp of
    the window, provided the recursion limit leaves room for the sleeps
    before that reading. *)
Theorem wait_returns_once_window_aged (s : t) (depth : nat)
    (ticks : list tick) (tk : tick) (rest : list tick) :
  (length ticks <= depth)%nat ->
  auto_retry s = true ->
  1 <= effective_limit s ->
  Forall quiet ticks ->
  all_aged (now tk) (bucket s) ->
  exists s' slept,
    wait_if_needed depth s (ticks ++ tk :: rest) = Returned s' slept
    /\ (length slept <= length ticks)%nat.
Proof.
  intros Hd Ha Hl Hq Hb.
  destruct (returns_when_aged ticks depth s [] tk rest Hd Ha Hl Hq Hb)
    as (s' & sl & Hrun & Hlen).
  exists s', sl. split; [exact Hrun | exact Hlen].
Qed.

Lemma wait_returns_once_window_aged_witness :
  exists s' slept,
    wait_if_needed 980 (mk "exchange" 1 None true [10%Q] 0 5 1 60)
      ([mk_tick (101 # 10) []; mk_tick (102 # 10) []]
         ++ mk_tick 11 [] :: [])
    = Returned s' slept
    /\ (length slept <= 2)%nat.
Proof.
  refine (wait_returns_once_window_aged
            (mk "exchange" 1 None true [10%Q] 0 5 1 60) 980%nat
            [mk_tick (101 # 10) []; mk_tick (102 # 10) []]
            (mk_tick 11 []) [] _ eq_refl _ _ _).
  - cbn [length]. lia.
  - vm_compute. discriminate.
  - repeat constructor.
  - repeat constructor. vm_compute. discriminate.
Defined.

Lemma sleep_between_1_and_60_witness :
  (1 <= 56 # 10 <= 60)%Q
  /\ (Qmin (pow2 (retry_count
                    (after_calls (init "order" 1 true)
                       [Acquire 980 [mk_tick 1000 []];
                        Acquire 980 [mk_tick (10004 # 10) [];
                                 mk_tick (10005 # 10) []]]))) 60
      <= 56 # 10)%Q.
Proof.
  refine (sleep_between_1_and_60 "order" 1 true
            [Acquire 980 [mk_tick 1000 []];
             Acquire 980 [mk_tick (10004 # 10) []; mk_tick (10005 # 10) []]]
            (10006 # 10) (56 # 10) _ _).
  vm_compute. reflexivity.
Defined.

(** *** The rate *)

(** A clock reading is a multiple of [2^-22]. *)
Lemma clock_reading_grid (t : Q) :
  clock_reading t = true -> exists m : Z, (t == m # (2 ^ 22)%positive)%Q.
Proof.
  unfold clock_reading. intros [_ Hmod]%andb_prop.
  apply Z.eqb_eq in Hmod.
  exists (Qnum t * 2 ^ 22 / Z.pos (Qden t)).
  unfold Qeq. cbn [Qnum Qden].
  rewrite (Z.mul_comm (_ / _)), <- Z_div_exact_full_2; [reflexivity | lia | exact Hmod].
Qed.

(** On the grid the rounding of the subtraction does not show: a
    difference is at least [1 - 2^-54] exactly when it is at least 1. *)
Lemma aged_grid (k : Z) :
  Qle_bool ONE_ROUNDED (k # (2 ^ 22)%positive)
  = Qle_bool 1 (k # (2 ^ 22)%positive).
Proof.
  apply eq_true_iff_eq. rewrite !Qle_bool_iff.
  unfold ONE_ROUNDED, Qle, Qminus, Qplus, Qopp. cbn [Qnum Qden].
  change (Z.pos (2 ^ 54)) with 18014398509481984.
  change (Z.pos (2 ^ 22)) with 4194304.
  change (Z.pos (1 * 2 ^ 54)) with 18014398509481984.
  lia.
Qed.

Lemma aged_clock (current_time e : Q) :
  clock_reading current_time = true -> clock_reading e = true ->
  aged current_time e = Qle_bool 1 (current_time - e).
Proof.
  intros [m Hm]%clock_reading_grid [n Hn]%clock_reading_grid.
  assert (Hd : (current_time - e == (m - n) # (2 ^ 22)%positive)%Q).
  { rewrite Hm, Hn. unfold Qeq, Qminus, Qplus, Qopp. cbn [Qnum Qden].
    change (Z.pos (2 ^ 22 * 2 ^ 22)) with (4194304 * 4194304).
    change (Z.pos (2 ^ 22)) with 4194304. lia. }
  unfold aged. apply eq_true_iff_eq. rewrite !Qle_bool_iff, Hd, <- !Qle_bool_iff.
  rewrite aged_grid. reflexivity.
Qed.

Lemma leak_prefix_aged (current_time : Q) (b : list Q) :
  clock_reading current_time = true ->
  Forall (fun e => clock_reading e = true) b ->
  exists pre, b = pre ++ leak current_time b /\ all_aged current_time pre.
Proof.
  intros Hct Hb.
  induction Hb as [| oldest rest Ho Hrest (pre & IH & Hpre)]; cbn [leak].
  - exists []. split; [reflexivity | constructor].
  - destruct (aged current_time oldest) eqn:Haged.
    + exists (oldest :: pre). split; [cbn [app]; now rewrite <- IH |].
      constructor; [| exact Hpre].
      rewrite (aged_clock _ _ Hct Ho) in Haged. apply Qle_bool_iff, Haged.
    + exists []. split; [reflexivity | constructor].
Qed.

(** On a window of clock readings in time order the leak loop keeps
    exactly the timestamps of the last second. *)
Lemma leak_sorted_clock (current_time : Q) (b : list Q) :
  clock_reading current_time = true ->
  Forall (fun e => clock_reading e = true) b ->
  StronglySorted Qle b ->
  leak current_time b = List.filter (recent current_time) b.
Proof.
  intros Hct Hb Hs. rewrite (leak_sorted _ _ Hs).
  apply filter_ext_in. intros e He. unfold recent.
  rewrite Forall_forall in Hb.
  rewrite (aged_clock _ _ Hct (Hb e ltac:(apply list_elem_of_In; exact He))).
  reflexivity.
Qed.

Lemma window_later (log : list Q) (t0 t1 : Q) (s : t) :
  (t0 <= t1)%Q -> window_of log t0 s -> window_of log t1 s.
Proof.
  intros Hle (old & Hlog & Hold & Hs & Hb & Hg). exists old.
  repeat split; try assumption.
  - eapply Forall_impl; [exact Hold |]. cbn. intros e He. lra.
  - eapply Forall_impl; [exact Hb |]. cbn. intros e He. lra.
Qed.

Lemma sorted_snoc (l : list Q) (x : Q) :
  StronglySorted Qle l -> Forall (fun e => (e <= x)%Q) l ->
  StronglySorted Qle (l ++ [x]).
Proof.
  induction 1 as [| y l Hl IH Hy]; intros Hx; cbn [app].
  - repeat constructor.
  - inversion Hx; subst. constructor; [apply IH; assumption |].
    apply Forall_app. split; [exact Hy | repeat constructor; assumption].
Qed.

Lemma observes_keep (l : list action) :
  forall s : t,
    Forall (fun a => match a with Observe _ => True | _ => False end) l ->
    bucket (apply_actions s l) = bucket s
    /\ max_requests (apply_actions s l) = max_requests s.
Proof.
  induction l as [| a l IH]; intros s Hall; [split; reflexivity |].
  inversion Hall as [| ? ? Ha Hl]; subst.
  destruct a as [headers | | ct]; try contradiction.
  unfold apply_actions in *. cbn [fold_left apply_action].
  destruct (update_returns s headers) as (s' & -> & Hs').
  destruct (IH s' Hl) as [-> ->]. rewrite <- Hs'. split; reflexivity.
Qed.

Lemma window_pass (log : list Q) (t0 : Q) (s : t) (tk : tick) :
  window_of log t0 s ->
  (t0 <= now tk)%Q ->
  clock_reading (now tk) = true ->
  observes_only tk ->
  window_of (log ++ (if takes_slot s (now tk) then [now tk] else []))
    (now tk) (pass_then s tk).
Proof.
  intros (old & Hlog & Hold & Hs & Hb & Hg) Hle Hct Hobs.
  destruct (leak_prefix_aged (now tk) (bucket s) Hct Hg)
    as (pre & Hpre & Haged).
  assert (Hkept : StronglySorted Qle (leak (now tk) (bucket s))
                  /\ Forall (fun e => (e <= now tk)%Q)
                       (leak (now tk) (bucket s))
                  /\ Forall (fun e => clock_reading e = true)
                       (leak (now tk) (bucket s))).
  { rewrite Hpre in Hs, Hb, Hg. split; [| split].
    - clear -Hs. induction pre as [| x pre IH]; [exact Hs |].
      apply IH. now inversion Hs.
    - apply Forall_app in Hb. destruct Hb as [_ Hb].
      eapply Forall_impl; [exact Hb |]. cbn. intros e He. lra.
    - apply Forall_app in Hg. apply Hg. }
  destruct Hkept as (Hks & Hkb & Hkg).
  assert (Hold' : all_aged (now tk) (old ++ pre)).
  { apply Forall_app. split; [| exact Haged].
    eapply Forall_impl; [exact Hold |]. cbn. intros e He. lra. }
  unfold pass_then, takes_slot.
  destruct (observes_keep (during_sleep tk)
              (pass_state (wait_if_needed_pass s (now tk))) Hobs) as [Hbk _].
  exists (old ++ pre). rewrite Hbk.
  destruct (pass_cases s (now tk)) as [Hlt | Hge].
  - rewrite (pass_acquires _ _ Hlt). cbn [pass_state bucket set_bucket].
    repeat apply conj.
    + rewrite Hlog, Hpre at 1. now rewrite <- !app_assoc.
    + exact Hold'.
    + apply sorted_snoc; assumption.
    + apply Forall_app. split; [exact Hkb | repeat constructor; lra].
    + apply Forall_app. split; [exact Hkg | repeat constructor; exact Hct].
  - rewrite (pass_full _ _ Hge). cbn zeta.
    destruct (auto_retry s); cbn [pass_state bucket set_bucket set_retry_count];
      (repeat apply conj;
       [rewrite Hlog, Hpre at 1; now rewrite app_nil_r, <- !app_assoc
       | exact Hold' | exact Hks | exact Hkb | exact Hkg]).
Qed.

Lemma granted_app (a : list tick) :
  forall (s : t) (b : list tick),
    granted s (a ++ b) = granted s a ++ granted (fold_left pass_then a s) b.
Proof.
  induction a as [| tk a IH]; intros s b; cbn [app granted fold_left];
    [reflexivity |].
  rewrite IH, app_assoc. reflexivity.
Qed.

Lemma window_run (ticks : list tick) :
  forall (s : t) (log : list Q) (t0 t1 : Q),
    window_of log t0 s ->
    StronglySorted Qle (map now ticks) ->
    Forall (fun tk => (t0 <= now tk)%Q /\ (now tk <= t1)%Q) ticks ->
    (t0 <= t1)%Q ->
    Forall (fun tk => clock_reading (now tk) = true) ticks ->
    Forall observes_only ticks ->
    window_of (log ++ granted s ticks) t1 (fold_left pass_then ticks s).
Proof.
  induction ticks as [| tk rest IH]; intros s log t0 t1 Hw Hs Hr Hle Hc Ho;
    cbn [granted fold_left].
  - rewrite app_nil_r. eapply window_later; eassumption.
  - inversion Hs as [| ? ? Hs' Hhd]; subst.
    inversion Hr as [| ? ? [H0 H1] Hr']; subst.
    inversion Hc as [| ? ? Hc0 Hc']; subst.
    inversion Ho as [| ? ? Ho0 Ho']; subst.
    rewrite app_assoc.
    apply (IH _ _ (now tk) t1); try assumption.
    + apply (window_pass log t0); assumption.
    + apply Forall_forall. intros x Hx.
      rewrite Forall_forall in Hr'. destruct (Hr' x Hx) as [_ Hx1].
      split; [| exact Hx1].
      rewrite Forall_forall in Hhd. apply Hhd.
      apply list_elem_of_In, in_map, list_elem_of_In. exact Hx.
Qed.

Lemma filter_aged (current_time : Q) (l : list Q) :
  all_aged current_time l -> List.filter (recent current_time) l = [].
Proof.
  induction 1 as [| e l He _ IH]; cbn [List.filter]; [reflexivity |].
  unfold recent at 1. apply Qle_bool_iff in He. rewrite He. exact IH.
Qed.

Lemma sorted_before_last (l : list tick) (tk : tick) :
  StronglySorted Qle (map now (l ++ [tk])) ->
  StronglySorted Qle (map now l)
  /\ Forall (fun x => (now x <= now tk)%Q) l.
Proof.
  induction l as [| x l IH]; cbn [app map]; intros Hs.
  - split; constructor.
  - inversion Hs as [| ? ? Hs' Hhd]; subst.
    destruct (IH Hs') as [Hl Hle]. rewrite map_app, Forall_app in Hhd.
    destruct Hhd as [Hhd Hlast]. cbn in Hlast. inversion Hlast; subst.
    split; constructor; assumption.
Qed.

(** X4. From an empty window, with clock readings as [time.time()]
    gives them (on which the rounding of the leak test does not show), a
    clock that does not run backwards and nothing but passes of
    [wait_if_needed] and observations of responses, a pass takes a slot
    only if the slots taken in the second that ends now, this one
    included, number at most the effective limit, hence at most
    [max_requests]. *)
Theorem rate_within_limit (s : t) (pre : list tick) (tk : tick) :
  bucket s = [] ->
  Forall (fun tk' => clock_reading (now tk') = true) (pre ++ [tk]) ->
  StronglySorted Qle (map now (pre ++ [tk])) ->
  Forall observes_only pre ->
  takes_slot (fold_left pass_then pre s) (now tk) = true ->
  Z.of_nat (length (List.filter (recent (now tk)) (granted s (pre ++ [tk]))))
  <= effective_limit (fold_left pass_then pre s)
  /\ effective_limit (fold_left pass_then pre s) <= max_requests s.
Proof.
  intros Hempty Hclock Hsorted Hobs Htake.
  apply Forall_app in Hclock. destruct Hclock as [Hcpre Hctk].
  inversion Hctk as [| ? ? Hct _]; subst.
  destruct (sorted_before_last _ _ Hsorted) as [Hpre Hle].
  set (t0 := match pre with [] => now tk | x :: _ => now x end).
  assert (Hw0 : window_of [] t0 s).
  { exists []. rewrite Hempty. repeat split; constructor. }
  assert (Hrange : Forall (fun x => (t0 <= now x)%Q /\ (now x <= now tk)%Q) pre).
  { apply Forall_forall. intros x Hx. rewrite Forall_forall in Hle.
    split; [| apply Hle, Hx].
    subst t0. destruct pre as [| y pre']; [now apply list_elem_of_In in Hx |].
    apply list_elem_of_In in Hx. destruct Hx as [-> | Hx]; [lra |].
    cbn [map] in Hpre. inversion Hpre as [| ? ? _ Hhd]; subst.
    rewrite Forall_forall in Hhd. apply Hhd.
    apply list_elem_of_In, in_map. exact Hx. }
  assert (H01 : (t0 <= now tk)%Q).
  { subst t0. destruct pre as [| y pre']; [lra |].
    inversion Hle; subst. assumption. }
  pose proof (window_run pre s [] t0 (now tk) Hw0 Hpre Hrange H01 Hcpre Hobs)
    as Hw.
  cbn [app] in Hw. set (s1 := fold_left pass_then pre s) in *.
  destruct Hw as (old & Hlog & Hold & Hs1 & Hb1 & Hg1).
  rewrite granted_app. fold s1. cbn [granted]. rewrite Htake, app_nil_r, Hlog.
  assert (Hlt : Z.of_nat (length (leak (now tk) (bucket s1)))
                < effective_limit s1).
  { destruct (pass_cases s1 (now tk)) as [Hlt | Hge]; [exact Hlt |].
    unfold takes_slot in Htake. rewrite (pass_full _ _ Hge) in Htake.
    cbn zeta in Htake. destruct (auto_retry s1); discriminate. }
  split.
  - rewrite !Lists.List.filter_app, (filter_aged _ _ Hold),
      <- (leak_sorted_clock _ _ Hct Hg1 Hs1).
    cbn [app List.filter]. unfold recent at 1.
    assert (Hnow : Qle_bool 1 (now tk - now tk) = false).
    { destruct (Qle_bool 1 (now tk - now tk)) eqn:E; [| reflexivity].
      apply Qle_bool_iff in E. lra. }
    rewrite Hnow. cbn [negb]. rewrite length_app. cbn [length]. lia.
  - assert (Hmax : max_requests s1 = max_requests s).
    { subst s1. clear -Hobs. revert s.
      induction Hobs as [| x l Hx _ IH]; intros s; [reflexivity |].
      cbn [fold_left]. rewrite IH. unfold pass_then.
      destruct (observes_keep (during_sleep x)
                  (pass_state (wait_if_needed_pass s (now x))) Hx) as [_ ->].
      unfold wait_if_needed_pass.
      destruct (_ >=? _); [destruct (negb _) |]; reflexivity. }
    rewrite <- Hmax. unfold effective_limit.
    destruct (remaining s1) as [r |]; [| lia].
    destruct (Z.ltb_spec r (max_requests s1)); lia.
Qed.

Lemma rate_within_limit_witness :
  Z.of_nat
    (length
       (List.filter (recent 1700000011)
          (granted (mk "exchange" 2 None true [] 0 5 1 60)
             ([mk_tick 1700000009 []; mk_tick 1700000010 [];
               mk_tick (6800000041 # 4) []]
                ++ [mk_tick 1700000011 []]))))
  <= effective_limit
       (fold_left pass_then
          [mk_tick 1700000009 []; mk_tick 1700000010 [];
           mk_tick (6800000041 # 4) []]
          (mk "exchange" 2 None true [] 0 5 1 60))
  /\ effective_limit
       (fold_left pass_then
          [mk_tick 1700000009 []; mk_tick 1700000010 [];
           mk_tick (6800000041 # 4) []]
          (mk "exchange" 2 None true [] 0 5 1 60))
     <= max_requests (mk "exchange" 2 None true [] 0 5 1 60).
Proof.
  refine (rate_within_limit (mk "exchange" 2 None true [] 0 5 1 60)
            [mk_tick 1700000009 []; mk_tick 1700000010 [];
             mk_tick (6800000041 # 4) []]
            (mk_tick 1700000011 []) eq_refl _ _ _ eq_refl).
  - repeat constructor.
  - repeat constructor; vm_compute; discriminate.
  - repeat constructor.
Defined.

(** *** The header in the documented format *)

Lemma digit_not_space (c : ascii) : is_digit c = true -> is_space c = false.
Proof.
  unfold is_digit, is_space. set (n := code c).
  intros [H1 H2]%andb_prop.
  apply N.leb_le in H1, H2.
  repeat match goal with
         | |- context [(?a <=? ?b)%N] => destruct (N.leb_spec a b)
         | |- context [(?a =? ?b)%N] => destruct (N.eqb_spec a b)
         end; try reflexivity; lia.
Qed.

Lemma digits_trimmed (s : string) : all_digits s = true -> trimmed s.
Proof.
  intros Hs. unfold trimmed, strip.
  assert (Hl : lstrip s = s).
  { destruct s as [| c r]; [reflexivity |]. cbn [all_digits lstrip] in *.
    apply andb_prop in Hs as [Hc _]. now rewrite (digit_not_space c Hc). }
  rewrite Hl. clear Hl.
  induction s as [| c r IH]; [reflexivity |].
  cbn [all_digits] in Hs. apply andb_prop in Hs as [Hc Hr].
  rewrite (PyFacts.rstrip_cons c r (digit_not_space c Hc)), (IH Hr).
  reflexivity.
Qed.

Lemma digits_without (sep : ascii) (s : string) :
  is_digit sep = false -> all_digits s = true -> contains sep s = false.
Proof.
  intros Hsep. induction s as [| c r IH]; cbn [all_digits contains];
    [reflexivity |].
  intros [Hc Hr]%andb_prop. rewrite (IH Hr), orb_false_r.
  destruct (Ascii.eqb_spec c sep) as [-> |]; [congruence | reflexivity].
Qed.

Lemma int_digits_all (r : string) :
  forall acc, all_digits r = true ->
              int_digits false acc r = Some (digits_value acc r).
Proof.
  induction r as [| c r IH]; intros acc; cbn [all_digits int_digits digits_value];
    [reflexivity |].
  intros [Hc Hr]%andb_prop. rewrite Hc. apply IH, Hr.
Qed.

Lemma digit_not_int_space (c : ascii) :
  is_digit c = true -> is_int_space c = false.
Proof.
  unfold is_digit, is_int_space. set (n := code c).
  intros [H1 H2]%andb_prop.
  apply N.leb_le in H1, H2.
  repeat match goal with
         | |- context [(?a <=? ?b)%N] => destruct (N.leb_spec a b)
         | |- context [(?a =? ?b)%N] => destruct (N.eqb_spec a b)
         end; try reflexivity; lia.
Qed.

(** [int] finds nothing to skip around a string of digits. *)
Lemma digits_int_stripped (s : string) :
  all_digits s = true -> int_rstrip (int_lstrip s) = s.
Proof.
  intros Hs.
  assert (Hl : int_lstrip s = s).
  { destruct s as [| c r]; [reflexivity |]. cbn [all_digits int_lstrip] in *.
    apply andb_prop in Hs as [Hc _]. now rewrite (digit_not_int_space c Hc). }
  rewrite Hl. clear Hl.
  induction s as [| c r IH]; [reflexivity |].
  cbn [all_digits] in Hs. apply andb_prop in Hs as [Hc Hr].
  cbn [int_rstrip]. rewrite (IH Hr), (digit_not_int_space c Hc).
  destruct r; reflexivity.
Qed.

Lemma digit_count_all (s : string) :
  all_digits s = true -> digit_count s = Z.of_nat (String.length s).
Proof.
  induction s as [| c r IH]; cbn [all_digits digit_count String.length];
    [reflexivity |].
  intros [Hc Hr]%andb_prop. rewrite Hc, (IH Hr). lia.
Qed.

(** [int] reads a non-empty string of at most 4300 digits as its decimal
    value, and refuses a longer one. *)
Lemma int_of_digits (s : string) :
  all_digits s = true -> s <> EmptyString ->
  Z.of_nat (String.length s) <= 4300 ->
  Py.int s = Some (digits_value 0 s).
Proof.
  intros Hs Hne Hlen. unfold Py.int. cbv zeta.
  rewrite (digits_int_stripped s Hs), (digit_count_all s Hs).
  destruct (Z.ltb_spec MAX_STR_DIGITS (Z.of_nat (String.length s))) as [Hlt | _];
    [unfold MAX_STR_DIGITS in Hlt; lia |].
  destruct s as [| c r]; [congruence |].
  cbn [all_digits] in Hs. apply andb_prop in Hs as [Hc Hr].
  assert (Hgo : int_digits true 0 (String c r)
                = Some (digits_value 0 (String c r))).
  { cbn [int_digits digits_value]. rewrite Hc. apply int_digits_all, Hr. }
  destruct c as [[] [] [] [] [] [] [] []]; try discriminate Hc; exact Hgo.
Qed.

Lemma int_of_long_digits (s : string) :
  all_digits s = true ->
  4300 < Z.of_nat (String.length s) ->
  Py.int s = None.
Proof.
  intros Hs Hlen. unfold Py.int. cbv zeta.
  rewrite (digits_int_stripped s Hs), (digit_count_all s Hs).
  destruct (Z.ltb_spec MAX_STR_DIGITS (Z.of_nat (String.length s))) as [_ | Hle];
    [reflexivity | unfold MAX_STR_DIGITS in Hle; lia].
Qed.

Lemma split_app (sep : ascii) (a b : string) :
  contains sep a = false ->
  split sep (a ++ String sep b)%string = a :: split sep b.
Proof.
  induction a as [| c a IH]; rewrite ?PyFacts.append_cons, ?PyFacts.append_nil;
    cbn [contains split].
  - rewrite Ascii.eqb_refl. reflexivity.
  - intros [Hc Ha]%orb_false_elim. rewrite Hc, (IH Ha). reflexivity.
Qed.

Lemma split_none (sep : ascii) (a : string) :
  contains sep a = false -> split sep a = [a].
Proof.
  induction a as [| c a IH]; cbn [contains split]; [reflexivity |].
  intros [Hc Ha]%orb_false_elim. rewrite Hc, (IH Ha). reflexivity.
Qed.

(** A token with whitespace in front only. *)
Lemma plain_token (p k v : string) :
  all_space p = true -> trimmed k -> contains "=" k = false -> trimmed v ->
  let part := strip (p ++ k ++ String "=" v)%string in
  contains "=" part = true
  /\ strip (fst (split_once "=" part)) = k
  /\ strip (snd (split_once "=" part)) = v.
Proof.
  intros Hp Hk Hnk Hv.
  pose proof (PyFacts.padded_token p k "" "" v "" Hp eq_refl eq_refl eq_refl
                Hk Hnk Hv) as H.
  rewrite !PyFacts.append_nil, !PyFacts.append_nil_r in H. exact H.
Qed.

(** What [parse_remaining_req] makes of a header in the documented
    format, by what [int] makes of the two numbers. *)
Lemma quota_header_parse (g dmin dsec : string) :
  trimmed g -> contains ";" g = false ->
  all_digits dmin = true -> all_digits dsec = true ->
  parse_remaining_req (quota_header g dmin dsec)
  = match Py.int dmin with
    | None => Raise (ValueError ("Invalid numeric value for min: " ++ dmin))
    | Some m =>
        match Py.int dsec with
        | None => Raise (ValueError ("Invalid numeric value for sec: " ++ dsec))
        | Some n =>
            Ok (<["sec" := PInt n]>
                  (<["min" := PInt m]> (<["group" := PStr g]> ∅)))
        end
    end.
Proof.
  intros Hg Hgs Hm Hs.
  unfold parse_remaining_req, quota_header.
  change (is_empty ("group=" ++ g ++ "; min=" ++ dmin ++ "; sec=" ++ dsec)%string)
    with false. cbv iota.
  change ("group=" ++ g ++ "; min=" ++ dmin ++ "; sec=" ++ dsec)%string
    with ("group=" ++ (g ++ String ";" (" min=" ++ dmin
                                          ++ String ";" (" sec=" ++ dsec))))%string.
  rewrite PyFacts.append_assoc.
  rewrite split_app
    by (rewrite PyFacts.contains_app, Hgs; reflexivity).
  change (" min=" ++ dmin ++ String ";" (" sec=" ++ dsec))%string
    with (" min=" ++ (dmin ++ String ";" (" sec=" ++ dsec)))%string.
  rewrite PyFacts.append_assoc.
  rewrite split_app
    by (rewrite PyFacts.contains_app, (digits_without ";" dmin eq_refl Hm);
        reflexivity).
  rewrite split_none
    by (rewrite PyFacts.contains_app, (digits_without ";" dsec eq_refl Hs);
        reflexivity).
  destruct (plain_token "" "group" g eq_refl eq_refl eq_refl Hg)
    as (Hc1 & Hk1 & Hv1).
  destruct (plain_token " " "min" dmin eq_refl eq_refl eq_refl
              (digits_trimmed _ Hm)) as (Hc2 & Hk2 & Hv2).
  destruct (plain_token " " "sec" dsec eq_refl eq_refl eq_refl
              (digits_trimmed _ Hs)) as (Hc3 & Hk3 & Hv3).
  cbn zeta in *.
  rewrite (parse_parts_token ("group=" ++ g)%string "group" g _ _ Hc1 Hk1 Hv1).
  cbn [String.eqb Ascii.eqb Bool.eqb orb].
  rewrite (parse_parts_token (" min=" ++ dmin)%string "min" dmin _ _
             Hc2 Hk2 Hv2).
  cbn [String.eqb Ascii.eqb Bool.eqb orb].
  destruct (Py.int dmin) as [m |]; [| reflexivity].
  rewrite (parse_parts_token (" sec=" ++ dsec)%string "sec" dsec _ _
             Hc3 Hk3 Hv3).
  cbn [String.eqb Ascii.eqb Bool.eqb orb].
  destruct (Py.int dsec) as [n |]; [| reflexivity].
  cbn [parse_parts bind].
  rewrite bool_decide_eq_true_2
    by (rewrite !lookup_insert_ne, lookup_insert_eq by discriminate; eauto).
  rewrite bool_decide_eq_true_2
    by (rewrite lookup_insert_eq; eauto).
  reflexivity.
Qed.

(** X5. A header in the documented format, [group=<name>; min=<digits>;
    sec=<digits>], with numbers of at most 4300 digits, parses to its
    three fields; observed by the limiter of that group, it sets
    [remaining] to the value of [sec] and nothing else. With a [sec] of
    more than 4300 digits the header does not parse ([int] refuses the
    number) and the limiter ignores it. *)
Theorem quota_header_round_trip (s : t) (dmin dsec : string) :
  trimmed (group_name s) ->
  contains ";" (group_name s) = false ->
  all_digits dmin = true -> dmin <> EmptyString ->
  Z.of_nat (String.length dmin) <= 4300 ->
  all_digits dsec = true -> dsec <> EmptyString ->
  (Z.of_nat (String.length dsec) <= 4300 ->
   parse_remaining_req (quota_header (group_name s) dmin dsec)
   = Ok (<["sec" := PInt (digits_value 0 dsec)]>
           (<["min" := PInt (digits_value 0 dmin)]>
              (<["group" := PStr (group_name s)]> ∅)))
   /\ exists s',
       update_from_headers s
         {[ "Remaining-Req" := quota_header (group_name s) dmin dsec ]}
       = Ok s'
       /\ remaining s' = Some (digits_value 0 dsec)
       /\ same_but_remaining s s')
  /\ (4300 < Z.of_nat (String.length dsec) ->
      (exists msg,
          parse_remaining_req (quota_header (group_name s) dmin dsec)
          = Raise (ValueError msg))
      /\ update_from_headers s
           {[ "Remaining-Req" := quota_header (group_name s) dmin dsec ]}
         = Ok s).
Proof.
  intros Hg Hgs Hm Hmne Hmlen Hs Hsne.
  set (g := group_name s) in *.
  pose proof (quota_header_parse g dmin dsec Hg Hgs Hm Hs) as Hparse.
  rewrite (int_of_digits dmin Hm Hmne Hmlen) in Hparse.
  assert (Hupd : update_from_headers s
                   {[ "Remaining-Req" := quota_header g dmin dsec ]}
                 = match update_try s (quota_header g dmin dsec) with
                   | Ok s' => Ok s'
                   | Raise (ValueError _) => Ok s
                   | Raise e => Raise e
                   end).
  { unfold update_from_headers, remaining_req_header.
    rewrite lookup_singleton_eq. reflexivity. }
  split; intros Hlen.
  - rewrite (int_of_digits dsec Hs Hsne Hlen) in Hparse.
    split; [exact Hparse |].
    rewrite Hupd, (update_try_ok s _ _ Hparse).
    rewrite !lookup_insert_ne, !lookup_insert_eq by discriminate.
    assert (Heq : pyval_eq_str (Some (PStr g)) (group_name s) = true)
      by (apply pyval_eq_str_spec; reflexivity).
    rewrite Heq. eexists. split; [reflexivity |].
    split; [reflexivity | repeat split].
  - rewrite (int_of_long_digits dsec Hs Hlen) in Hparse.
    split; [eexists; exact Hparse |].
    rewrite Hupd. unfold update_try. rewrite Hparse. reflexivity.
Qed.

Lemma quota_header_round_trip_witness :
  parse_remaining_req "group=market; min=598; sec=9"
  = Ok (<["sec" := PInt 9]> (<["min" := PInt 598]>
          (<["group" := PStr "market"]> ∅)))
  /\ exists s',
      update_from_headers (mk "market" 30 None true [] 0 5 1 60)
        {[ "Remaining-Req" := "group=market; min=598; sec=9" ]}
      = Ok s'
      /\ remaining s' = Some 9
      /\ same_but_remaining (mk "market" 30 None true [] 0 5 1 60) s'.
Proof.
  refine (proj1 (quota_header_round_trip (mk "market" 30 None true [] 0 5 1 60)
                   "598" "9" eq_refl eq_refl eq_refl ltac:(discriminate) _
                   eq_refl ltac:(discriminate)) _);
    cbn [String.length]; lia.
Defined.

(** X6. Whitespace before and after a token, and around its [=], does not
    change what the parser stores for it. *)
Theorem whitespace_is_ignored (p1 k p2 p3 v p4 : string)
    (rest : list string) (m : gmap string pyval) :
  all_space p1 = true -> all_space p2 = true ->
  all_space p3 = true -> all_space p4 = true ->
  trimmed k -> contains "=" k = false -> trimmed v ->
  parse_parts ((p1 ++ k ++ p2 ++ String "=" (p3 ++ v ++ p4))%string :: rest) m
  = parse_parts ((k ++ String "=" v)%string :: rest) m.
Proof. apply parse_parts_padded. Qed.

Lemma whitespace_is_ignored_witness :
  parse_parts ["  sec = 5 "; "group=market"] ∅
  = parse_parts ["sec=5"; "group=market"] ∅.
Proof.
  exact (whitespace_is_ignored "  " "sec" " " " " "5" " " ["group=market"] ∅
           eq_refl eq_refl eq_refl eq_refl eq_refl eq_refl eq_refl).
Defined.

End LimiterMore.

(** * More properties of the streaming session *)

Module StreamMore.

Import Stream Trace StreamFacts.
Local Open Scope list_scope.

(** *** [unsubscribe] *)

Lemma keep_other_twice (ticket : string) (l : list subscription) :
  filter (fun sub => negb (String.eqb (fst sub) ticket))
    (filter (fun sub => negb (String.eqb (fst sub) ticket)) l)
  = filter (fun sub => negb (String.eqb (fst sub) ticket)) l.
Proof.
  induction l as [| x l IH]; [reflexivity |].
  rewrite filter_cons. destruct (decide _) as [Hx | Hx]; [| exact IH].
  rewrite filter_cons. destruct (decide _); [| contradiction].
  f_equal. exact IH.
Qed.

Lemma keep_other_swap (t1 t2 : string) (l : list subscription) :
  filter (fun sub => negb (String.eqb (fst sub) t2))
    (filter (fun sub => negb (String.eqb (fst sub) t1)) l)
  = filter (fun sub => negb (String.eqb (fst sub) t1))
      (filter (fun sub => negb (String.eqb (fst sub) t2)) l).
Proof.
  induction l as [| x l IH]; [reflexivity |].
  rewrite !(filter_cons _ x l).
  destruct (decide (negb (String.eqb (fst x) t1))) as [H1 | H1];
    destruct (decide (negb (String.eqb (fst x) t2))) as [H2 | H2];
    rewrite ?filter_cons;
    repeat match goal with
           | |- context [decide ?P] => destruct (decide P); try contradiction
           end;
    try f_equal; exact IH.
Qed.

(** X7. [unsubscribe] drops every tracked pair of the ticket and nothing
    else: no pair of that ticket is left, a pair of another ticket is
    tracked after exactly when it was before, the order is kept, and
    the connection, the running flag and the delay are untouched. A
    second [unsubscribe] of the ticket changes nothing, and two
    [unsubscribe]s commute. *)
Theorem unsubscribe_drops_ticket (s : t) (ticket : string) :
  Forall (fun sub => fst sub <> ticket) (subscriptions (unsubscribe s ticket))
  /\ (forall sub, fst sub <> ticket ->
                  (sub ∈ subscriptions (unsubscribe s ticket)
                   <-> sub ∈ subscriptions s))
  /\ sublist (subscriptions (unsubscribe s ticket)) (subscriptions s)
  /\ set_subscriptions (unsubscribe s ticket) (subscriptions s) = s
  /\ unsubscribe (unsubscribe s ticket) ticket = unsubscribe s ticket
  /\ (forall other, unsubscribe (unsubscribe s ticket) other
                    = unsubscribe (unsubscribe s other) ticket).
Proof.
  unfold unsubscribe. cbn [subscriptions set_subscriptions].
  repeat split.
  - apply Forall_forall. intros sub Hin.
    apply list_elem_of_filter in Hin as [Hne _].
    apply Is_true_true, negb_true_iff, String.eqb_neq in Hne. exact Hne.
  - intros Hin. apply list_elem_of_filter in Hin. tauto.
  - intros Hin. apply list_elem_of_filter. split; [| exact Hin].
    apply Is_true_true, negb_true_iff, String.eqb_neq. assumption.
  - apply sublist_filter.
  - destruct s; reflexivity.
  - unfold set_subscriptions. cbn [access_key secret_key websocket running
                                    reconnect_delay subscriptions].
    f_equal. apply keep_other_twice.
  - intros other. unfold set_subscriptions.
    cbn [access_key secret_key websocket running reconnect_delay
           subscriptions].
    f_equal. apply keep_other_swap.
Qed.

Lemma channel_msgs_ok_typed (channels : list dict) :
  forall ms, channel_msgs channels = Ok ms -> typed channels.
Proof.
  induction channels as [| ch rest IH]; intros ms; [constructor |].
  cbn [channel_msgs]. unfold channel_msg, typed, dict_has.
  destruct (dict_get ch "type") eqn:Hty; cbn [bind]; [| discriminate].
  destruct (channel_msgs rest) as [ms' |]; cbn [bind]; [| discriminate].
  intros _. constructor; [now rewrite Hty | exact (IH ms' eq_refl)].
Qed.

Section WithCollaborators.

Variable generate_jwt_token :
  string -> string -> option dict -> option dict -> nat -> string.
Variable parses : string -> bool.

Let subscribe := subscribe generate_jwt_token.
Let subscribe_begin := subscribe_begin generate_jwt_token.
Let replay := replay generate_jwt_token.
Let resume := resume generate_jwt_token parses.
Let resume_all := resume_all generate_jwt_token parses.
Let run := run generate_jwt_token parses.
Let exec := exec generate_jwt_token parses.
Let exec_all := exec_all generate_jwt_token parses.

Lemma subscribe_begin_ok_typed (s : t) (draw draw' : nat) (ticket : string)
    (channels : list dict) (c : conn) (f : list dict) :
  subscribe_begin s draw ticket channels = (Ok (c, f), draw') ->
  websocket s = Some c /\ typed channels.
Proof.
  unfold subscribe_begin, Stream.subscribe_begin.
  destruct (websocket s) as [c' |]; [| discriminate].
  destruct (channel_msgs channels) as [ms |] eqn:Hms; cbn [bind];
    [| discriminate].
  intros [= <- _ _]. split; [reflexivity |].
  eapply channel_msgs_ok_typed; eassumption.
Qed.

(** X8. [subscribe] tracks the pair exactly when the frame was built and
    its send returned: the pair is then the last of [subscriptions] and
    nothing else has changed; whenever it raises (no connection, a spec
    without [type], a send that raises) the session is as before. *)
Theorem subscribe_all_or_nothing (s : t) (draw : nat) (ticket : string)
    (channels : list dict) (o : awaited unit) :
  let '(r, s', _, out) := subscribe s draw ticket channels o in
  (r = Ok tt /\ o = Done tt /\ typed channels
   /\ subscriptions s' = subscriptions s ++ [(ticket, channels)]
   /\ same_but_subscriptions s s'
   /\ exists c f, websocket s = Some c /\ out = [Send c f])
  \/ (exists e, r = Raise e /\ s' = s
                /\ (out = [] \/ exists c f, o = Thrown e /\ out = [Send c f])).
Proof.
  unfold subscribe, Stream.subscribe. fold subscribe_begin.
  destruct (subscribe_begin s draw ticket channels) as [[[c f] | e] d'] eqn:Hb.
  - destruct (subscribe_begin_ok_typed _ _ _ _ _ _ _ Hb) as [Hws Hty].
    destruct o as [[] | e]; cbn [subscribe_end].
    + left. split; [reflexivity |]. split; [reflexivity |].
      split; [exact Hty |]. split; [reflexivity |].
      split; [repeat split | eauto].
    + right. exists e. repeat split. right. eauto.
  - right. exists e. repeat split. now left.
Qed.

(** X9. An [unsubscribe] of the ticket just subscribed leaves what an
    [unsubscribe] before the [subscribe] would have left, whatever the
    outcome of the [subscribe]. *)
Theorem unsubscribe_undoes_subscribe (s : t) (draw : nat) (ticket : string)
    (channels : list dict) (o : awaited unit) :
  unsubscribe (snd (fst (fst (subscribe s draw ticket channels o)))) ticket
  = unsubscribe s ticket.
Proof.
  unfold subscribe, Stream.subscribe. fold subscribe_begin.
  destruct (subscribe_begin s draw ticket channels) as [[[c f] | e] d'];
    [| reflexivity].
  destruct o as [[] | e]; cbn [subscribe_end fst snd]; [| reflexivity].
  unfold unsubscribe, set_subscriptions.
  cbn [access_key secret_key websocket running reconnect_delay subscriptions].
  f_equal. rewrite filter_app, filter_cons.
  destruct (decide _) as [Hyes | _].
  - cbn [fst] in Hyes. rewrite String.eqb_refl in Hyes. contradiction.
  - rewrite filter_nil. apply app_nil_r.
Qed.

(** *** What every reachable session satisfies *)

Lemma loop_head_steady (s : t) (draw : nat) :
  tracked_typed s -> delay_in_range s -> steady_cfg (loop_head s draw).
Proof.
  intros Ht Hd. unfold loop_head, steady_cfg, steady.
  destruct (running s); [destruct (websocket s) |]; cbn; auto.
Qed.

Lemma handle_steady (s : t) (draw : nat) (e : exn) :
  tracked_typed s -> delay_in_range s -> steady_cfg (handle s draw e).
Proof.
  intros Ht Hd. pose proof (loop_head_steady s draw Ht Hd) as Hl.
  destruct e; cbn [handle]; destruct (running s);
    try exact Hl; unfold steady_cfg, steady; cbn; auto.
Qed.

Lemma replay_steady (s : t) (draw : nat) (pending : list subscription) :
  tracked_typed s -> delay_in_range s ->
  Forall (fun sub => typed (snd sub)) pending ->
  steady_cfg (replay s draw pending).
Proof.
  intros Ht Hd Hp. unfold replay, Stream.replay.
  destruct pending as [| [ticket channels] rest].
  - unfold after_resubscribe. destruct (websocket s);
      [unfold steady_cfg, steady; cbn; auto | apply loop_head_steady; auto].
  - fold subscribe_begin.
    destruct (subscribe_begin s draw ticket channels) as [[[c f] | e] d'].
    + inversion Hp; subst. unfold steady_cfg, steady. cbn. auto.
    + apply handle_steady; assumption.
Qed.

Lemma delay_doubled (s : t) :
  delay_in_range s ->
  delay_in_range
    (set_reconnect_delay s (Qmin (reconnect_delay s * 2) MAX_RECONNECT_DELAY)).
Proof.
  unfold delay_in_range, RECONNECT_DELAY, MAX_RECONNECT_DELAY.
  cbn [reconnect_delay set_reconnect_delay]. intros [H1 H2]. split.
  - apply Q.min_glb; [lra | discriminate].
  - apply Q.le_min_r.
Qed.

Lemma resume_steady (s : t) (draw : nat) (p : pc) (ev : event) :
  steady s (Some p) -> steady_cfg (resume (s, draw, p) ev).
Proof.
  intros (Ht & Hd & Hp).
  assert (Hsame : forall p', pending_typed p' -> steady_cfg ((s, draw, p'), []))
    by (intros p' Hp'; unfold steady_cfg, steady; cbn; auto).
  unfold resume, Stream.resume.
  destruct p as [| ticket channels rest | c | c | | r];
    destruct ev as [c' | | m | | e];
    try (apply Hsame; exact Hp); try (apply Hsame; exact I);
    cbn [connect subscribe_end resubscribe];
    try (apply handle_steady; assumption);
    try (apply loop_head_steady; assumption).
  - apply replay_steady.
    + constructor.
    + split; cbn; [apply Qle_refl | discriminate].
    + exact Ht.
  - destruct (is_Exception e); apply handle_steady; assumption.
  - destruct Hp as [Hch Hrest]. apply replay_steady; [| exact Hd | exact Hrest].
    unfold tracked_typed. cbn [subscriptions set_subscriptions].
    apply Forall_app. split; [exact Ht | repeat constructor; exact Hch].
  - destruct (parses m); [apply Hsame; exact I |].
    apply handle_steady; assumption.
  - apply loop_head_steady; [exact Ht | apply delay_doubled, Hd].
Qed.

Lemma exec_steady (m : machine) (o : op) :
  steady (sess m) (task m) ->
  steady (sess (exec m o)) (task (exec m o)).
Proof.
  intros Hall. pose proof Hall as (Ht & Hd & Hp). unfold exec, Stream.exec.
  destruct o as [oc | ticket channels os | ticket | oc | | ev].
  - destruct oc as [c | e]; cbn [connect snd sess task].
    + split; [exact Ht | split; [| exact Hp]].
      split; cbn; [apply Qle_refl | discriminate].
    + destruct (is_Exception e); exact Hall.
  - unfold Stream.subscribe. fold subscribe_begin.
    destruct (subscribe_begin (sess m) (draws m) ticket channels)
      as [[[c f] | e] d'] eqn:Hb; [| exact Hall].
    destruct (subscribe_begin_ok_typed _ _ _ _ _ _ _ Hb) as [_ Hty].
    destruct os as [[] | e]; cbn [subscribe_end sess task]; [| exact Hall].
    split; [| split; [exact Hd | exact Hp]].
    unfold tracked_typed. cbn [subscriptions set_subscriptions].
    apply Forall_app. split; [exact Ht | repeat constructor; exact Hty].
  - cbn [sess task]. split; [| split; [exact Hd | exact Hp]].
    apply Forall_forall. intros sub Hin.
    unfold unsubscribe in Hin. cbn [subscriptions set_subscriptions] in Hin.
    apply list_elem_of_filter in Hin as [_ Hin].
    unfold tracked_typed in Ht. rewrite Forall_forall in Ht. auto.
  - unfold close. cbn [websocket set_running].
    destruct (websocket (sess m)); [destruct oc as [[] | e] |];
      cbn [sess task]; exact Hall.
  - destruct (task m) as [[| ? ? ? | ? | ? | | r] |] eqn:Htask;
      try (rewrite Htask; exact Hall);
      pose proof (loop_head_steady (sess m) (draws m) Ht Hd) as Hk;
      destruct (loop_head (sess m) (draws m)) as [[[s' d'] p'] out];
      exact Hk.
  - destruct (task m) as [p |] eqn:Htask; [| rewrite Htask; exact Hall].
    pose proof (resume_steady (sess m) (draws m) p ev
                  (conj Ht (conj Hd Hp))) as Hk.
    unfold resume in Hk.
    destruct (Stream.resume _ _ _ ev) as [[[s' d'] p'] out].
    exact Hk.
Qed.

Lemma exec_all_steady (ak sk : option string) (ops : list op) :
  steady (sess (exec_all (start ak sk) ops))
         (task (exec_all (start ak sk) ops)).
Proof.
  unfold exec_all, Stream.exec_all.
  assert (H0 : steady (sess (start ak sk)) (task (start ak sk))).
  { repeat split; cbn; try constructor; [apply Qle_refl | discriminate]. }
  revert H0. generalize (start ak sk).
  induction ops as [| o ops IH]; intros m Hm; cbn [fold_left]; [exact Hm |].
  apply IH. apply exec_steady. exact Hm.
Qed.

(** X10. Whatever the caller and the connection do, every pair a session
    tracks has channel specs that all carry a [type]: a replay never
    stops on a missing key. *)
Theorem tracked_specs_have_type (ak sk : option string) (ops : list op) :
  Forall (fun sub => Forall (fun ch => dict_has ch "type" = true) (snd sub))
         (subscriptions (sess (exec_all (start ak sk) ops))).
Proof. exact (proj1 (exec_all_steady ak sk ops)). Qed.

(** X11. Whatever the caller and the connection do, the reconnect delay
    of a session stays between 1.0 and 60.0 seconds. *)
Theorem reconnect_delay_in_range (ak sk : option string) (ops : list op) :
  (1 <= reconnect_delay (sess (exec_all (start ak sk) ops)))%Q
  /\ (reconnect_delay (sess (exec_all (start ak sk) ops)) <= 60)%Q.
Proof. exact (proj1 (proj2 (exec_all_steady ak sk ops))). Qed.

(** *** [close] *)

Lemma resume_all_finished (evs : list event) :
  forall (s : t) (draw : nat) (r : Py.result unit) (out : list effect),
    resume_all ((s, draw, Finished r), out) evs
    = ((s, draw, Finished r), out).
Proof.
  induction evs as [| ev evs IH]; intros s draw r out; [reflexivity |].
  unfold resume_all in *. cbn [Stream.resume_all Stream.resume].
  rewrite app_nil_r. apply IH.
Qed.

Lemma stopped_session (s1 : t) :
  websocket s1 = None -> running s1 = false ->
  (forall o, close s1 o = (Ok tt, s1, []))
  /\ (forall draw evs, run s1 draw evs = ((s1, draw, Finished (Ok tt)), []))
  /\ (forall draw ticket channels o,
        subscribe s1 draw ticket channels o
        = (Raise (UpbitError "Not connected to WebSocket"), s1, draw, []))
  /\ (forall draw c,
        resume (s1, draw, AtRecv c) EvStop
        = ((s1, draw, Finished (Ok tt)), [])
        /\ resume (s1, draw, AtRecv c) (EvThrown ConnectionClosed)
           = ((s1, draw, Finished (Ok tt)), [])).
Proof.
  intros Hws Hrun. split; [| split; [| split]].
  - intros o. unfold close. cbn [websocket set_running]. rewrite Hws.
    destruct s1; cbn in *; subst; reflexivity.
  - intros draw evs. unfold run, Stream.run, loop_head. rewrite Hrun.
    apply resume_all_finished.
  - intros draw ticket channels o.
    unfold subscribe, Stream.subscribe, Stream.subscribe_begin.
    rewrite Hws. reflexivity.
  - intros draw c. unfold resume, Stream.resume. cbn [handle].
    unfold loop_head. rewrite Hrun. split; reflexivity.
Qed.

(** X12. After a [close] whose transport close returns, the session has
    no connection, is not running and tracks what it tracked. From there
    a second [close] does nothing, a [run] returns at once without any
    effect, a [subscribe] raises [UpbitError], and a [run] still waiting
    on the old connection returns normally when the iteration ends or
    raises [ConnectionClosed]. *)
Theorem close_shuts_down (s : t) :
  let s1 := snd (fst (close s (Done tt))) in
  fst (fst (close s (Done tt))) = Ok tt
  /\ websocket s1 = None /\ running s1 = false
  /\ subscriptions s1 = subscriptions s
  /\ (forall o, close s1 o = (Ok tt, s1, []))
  /\ (forall draw evs, run s1 draw evs = ((s1, draw, Finished (Ok tt)), []))
  /\ (forall draw ticket channels o,
        subscribe s1 draw ticket channels o
        = (Raise (UpbitError "Not connected to WebSocket"), s1, draw, []))
  /\ (forall draw c,
        resume (s1, draw, AtRecv c) EvStop
        = ((s1, draw, Finished (Ok tt)), [])
        /\ resume (s1, draw, AtRecv c) (EvThrown ConnectionClosed)
           = ((s1, draw, Finished (Ok tt)), [])).
Proof.
  cbn zeta.
  assert (Hfacts : fst (fst (close s (Done tt))) = Ok tt
                   /\ websocket (snd (fst (close s (Done tt)))) = None
                   /\ running (snd (fst (close s (Done tt)))) = false
                   /\ subscriptions (snd (fst (close s (Done tt))))
                      = subscriptions s).
  { unfold close. cbn [websocket set_running].
    destruct (websocket s) eqn:Hws; cbn [fst snd]; repeat split.
    cbn. exact Hws. }
  destruct Hfacts as (Hr & Hws & Hrun & Hsubs).
  split; [exact Hr |]. split; [exact Hws |]. split; [exact Hrun |].
  split; [exact Hsubs |]. apply stopped_session; assumption.
Qed.

(** *** Messages *)

Lemma resume_all_app (l1 : list event) :
  forall (r : config * list effect) (l2 : list event),
    resume_all r (l1 ++ l2) = resume_all (resume_all r l1) l2.
Proof.
  induction l1 as [| ev l1 IH]; intros r l2; [reflexivity |].
  unfold resume_all in *. cbn [app Stream.resume_all].
  destruct r as [k o]. destruct (Stream.resume _ _ k ev). apply IH.
Qed.

(** X13. The messages of a connection reach the callback one at a time,
    in the order received, and receiving them changes nothing in the
    session. *)
Theorem messages_delivered_in_order (s : t) (draw : nat) (c : conn)
    (ms : list string) (out : list effect) :
  Forall (fun m => parses m = true) ms ->
  resume_all ((s, draw, AtRecv c), out) (deliveries ms)
  = ((s, draw, AtRecv c), out ++ map Callback ms).
Proof.
  intros Hall. revert out.
  induction Hall as [| m ms Hm _ IH]; intros out.
  - cbn. now rewrite app_nil_r.
  - cbn [deliveries flat_map app]. fold (deliveries ms).
    unfold resume_all in *. cbn [Stream.resume_all Stream.resume].
    rewrite Hm. cbn [Stream.resume_all Stream.resume].
    rewrite app_nil_r, IH, <- app_assoc. reflexivity.
Qed.

(** X14. While running, a message that does not decode (or does not
    validate) is not handed to the callback: after the messages before
    it were delivered, the connection is dropped ([websocket] is
    [None], nothing else changes) and [run] sleeps the reconnect delay,
    as for a closed connection. *)
Theorem undecodable_message_drops_connection (s : t) (draw : nat) (c : conn)
    (good : list string) (bad : string) :
  running s = true ->
  Forall (fun m => parses m = true) good ->
  parses bad = false ->
  exists s' : t,
    resume_all ((s, draw, AtRecv c), []) (deliveries good ++ [EvItem bad])
    = ((s', draw, AtSleep), map Callback good ++ [Sleep (reconnect_delay s)])
    /\ websocket s' = None
    /\ running s' = true
    /\ subscriptions s' = subscriptions s
    /\ reconnect_delay s' = reconnect_delay s
    /\ access_key s' = access_key s /\ secret_key s' = secret_key s.
Proof.
  intros Hrun Hgood Hbad.
  rewrite resume_all_app, (messages_delivered_in_order s draw c good [] Hgood).
  unfold resume_all. cbn [Stream.resume_all Stream.resume app].
  rewrite Hbad. cbn [handle]. rewrite Hrun.
  eexists. split; [reflexivity |]. split; [reflexivity |].
  split; [exact Hrun | repeat split].
Qed.

(** *** How [run] ends *)

Lemma loop_head_stopped (s : t) (draw : nat) :
  stopped_if_returned (loop_head s draw).
Proof.
  unfold loop_head, stopped_if_returned.
  destruct (running s) eqn:Hr; [destruct (websocket s) |]; cbn;
    try discriminate. intros _. exact Hr.
Qed.

Lemma handle_stopped (s : t) (draw : nat) (e : exn) :
  stopped_if_returned (handle s draw e).
Proof.
  pose proof (loop_head_stopped s draw) as Hl.
  destruct e; cbn [handle]; destruct (running s);
    try exact Hl; unfold stopped_if_returned; cbn; discriminate.
Qed.

Lemma replay_stopped (s : t) (draw : nat) (pending : list subscription) :
  stopped_if_returned (replay s draw pending).
Proof.
  unfold replay, Stream.replay.
  destruct pending as [| [ticket channels] rest].
  - unfold after_resubscribe. destruct (websocket s);
      [unfold stopped_if_returned; cbn; discriminate
      | apply loop_head_stopped].
  - destruct (Stream.subscribe_begin _ s draw ticket channels)
      as [[[c f] | e] d'];
      [unfold stopped_if_returned; cbn; discriminate | apply handle_stopped].
Qed.

Lemma resume_stopped (k : config) (out : list effect) (ev : event) :
  stopped_if_returned (k, out) -> stopped_if_returned (resume k ev).
Proof.
  destruct k as [[s draw] p]. intros Hk.
  assert (Hsame : stopped_if_returned ((s, draw, p), @nil effect)) by exact Hk.
  assert (Hother : forall p', p' <> Finished (Ok tt) ->
                              stopped_if_returned ((s, draw, p'), @nil effect)).
  { intros p' Hp' H. cbn in H. contradiction. }
  unfold resume, Stream.resume.
  destruct p as [| ticket channels rest | c | c | | r];
    destruct ev as [c' | | m | | e];
    try exact Hsame;
    cbn [connect subscribe_end resubscribe];
    try apply handle_stopped; try apply loop_head_stopped;
    try apply replay_stopped;
    try (apply Hother; discriminate);
    try (destruct (is_Exception e); apply handle_stopped);
    try (destruct (parses m);
         [apply Hother; discriminate | apply handle_stopped]).
Qed.

Lemma resume_all_stopped (evs : list event) :
  forall r, stopped_if_returned r -> stopped_if_returned (resume_all r evs).
Proof.
  induction evs as [| ev evs IH]; intros [k out] Hr; [exact Hr |].
  unfold resume_all in *. cbn [Stream.resume_all].
  pose proof (resume_stopped k out ev Hr) as Hk. unfold resume in Hk.
  destruct (Stream.resume _ _ k ev) as [k1 out1].
  apply IH. exact Hk.
Qed.

(** X15. [run] returns normally only when the session is no longer
    running: no failure of the connection, of a send, of a callback or of
    decoding makes it return while [running] is true. *)
Theorem run_returns_only_when_stopped (s : t) (draw : nat)
    (evs : list event) :
  snd (fst (run s draw evs)) = Finished (Ok tt) ->
  running (cfg_sess (run s draw evs)) = false.
Proof.
  unfold run, Stream.run.
  exact (resume_all_stopped evs _ (loop_head_stopped s draw)).
Qed.

End WithCollaborators.

Lemma undecodable_message_drops_connection_witness :
  exists s' : t,
    resume_all sample_signer (fun m => negb (String.eqb m "oops"))
      ((Stream.mk None None (Some 1%nat) [] true 1, 0%nat, AtRecv 1%nat), [])
      (deliveries ["a"; "b"] ++ [EvItem "oops"])
    = ((s', 0%nat, AtSleep), map Callback ["a"; "b"] ++ [Sleep 1])
    /\ websocket s' = None
    /\ running s' = true
    /\ subscriptions s' = []
    /\ reconnect_delay s' = 1%Q
    /\ access_key s' = None /\ secret_key s' = None.
Proof.
  exact (undecodable_message_drops_connection sample_signer
           (fun m => negb (String.eqb m "oops"))
           (Stream.mk None None (Some 1%nat) [] true 1) 0%nat 1%nat
           ["a"; "b"] "oops" eq_refl ltac:(repeat constructor) eq_refl).
Defined.

Lemma messages_delivered_in_order_witness :
  resume_all sample_signer sample_parses
    ((connected None None 1%nat [], 0%nat, AtRecv 1%nat), [])
    (deliveries ["a"; "b"; "c"])
  = ((connected None None 1%nat [], 0%nat, AtRecv 1%nat),
     [] ++ map Callback ["a"; "b"; "c"]).
Proof.
  exact (messages_delivered_in_order sample_signer sample_parses
           (connected None None 1%nat []) 0%nat 1%nat ["a"; "b"; "c"] []
           ltac:(repeat constructor)).
Defined.

Lemma run_returns_only_when_stopped_witness :
  running
    (cfg_sess
       (run sample_signer sample_parses
          (set_running (connected None None 1%nat []) false) 0%nat
          [EvItem "a"])) = false.
Proof.
  exact (run_returns_only_when_stopped sample_signer sample_parses
           (set_running (connected None None 1%nat []) false) 0%nat
           [EvItem "a"] eq_refl).
Defined.

(** X16. After a failure while running and any number of failed connects,
    a connect that succeeds followed by sends that all return replays the
    tracked pairs, one frame each, in order, on the new connection, and
    the session tracks what it tracked. *)
Theorem successful_reconnect_replays (generate_jwt_token :
      string -> string -> option dict -> option dict -> nat -> string)
    (parses : string -> bool) (s : t) (draw : nat) (p : pc) (e : exn)
    (es : list exn) (c : conn) :
  in_try p = true ->
  running s = true ->
  Forall (fun e => is_Exception e = true) (e :: es) ->
  Forall (fun sub => typed (snd sub)) (subscriptions s) ->
  exists (s' : t) (draw' : nat) (zs : list Q) (fs : list (conn * list dict)),
    resume_all generate_jwt_token parses ((s, draw, p), [])
      (failures (e :: es) ++ EvConn c
         :: repeat EvDone (length (subscriptions s)))
    = ((s', draw', AtRecv c),
       map Sleep zs ++ map (fun f => Send (fst f) (snd f)) fs)
    /\ subscriptions s' = subscriptions s
    /\ websocket s' = Some c
    /\ running s' = true
    /\ Forall2 (built_for generate_jwt_token s') (subscriptions s) fs.
Proof. apply reconnect_replays. Qed.

Lemma successful_reconnect_replays_witness :
  exists (s' : t) (draw' : nat) (zs : list Q) (fs : list (conn * list dict)),
    resume_all sample_signer sample_parses
      ((connected None None 1%nat
          [("t1", [ticker_btc]); ("t2", [orderbook_eth])], 0%nat,
        AtRecv 1%nat), [])
      (failures [ConnectionClosed; OtherException "OSError"] ++ EvConn 2%nat
         :: repeat EvDone 2)
    = ((s', draw', AtRecv 2%nat),
       map Sleep zs ++ map (fun f => Send (fst f) (snd f)) fs)
    /\ subscriptions s' = [("t1", [ticker_btc]); ("t2", [orderbook_eth])]
    /\ websocket s' = Some 2%nat
    /\ running s' = true
    /\ Forall2 (built_for sample_signer s')
         [("t1", [ticker_btc]); ("t2", [orderbook_eth])] fs.
Proof.
  exact (successful_reconnect_replays sample_signer sample_parses
           (connected None None 1%nat
              [("t1", [ticker_btc]); ("t2", [orderbook_eth])])
           0%nat (AtRecv 1%nat) ConnectionClosed [OtherException "OSError"]
           2%nat eq_refl eq_refl ltac:(repeat constructor)
           ltac:(repeat constructor)).
Defined.

End StreamMore.

(** * Properties of the signer *)

Module AuthFacts.

Import Stream Auth StreamFacts.
Local Open Scope list_scope.

(** ** The order of the keys *)

Lemma ascii_compare_N (a b : ascii) :
  Ascii.compare a b = N.compare (N_of_ascii a) (N_of_ascii b).
Proof. reflexivity. Qed.

Lemma string_compare_cons (a b : ascii) (s1 s2 : string) :
  String.compare (String a s1) (String b s2) =
  match Ascii.compare a b with
  | Eq => String.compare s1 s2
  | c => c
  end.
Proof. reflexivity. Qed.

Lemma string_leb_compare (s1 s2 : string) :
  String.leb s1 s2 = true <-> String.compare s1 s2 <> Gt.
Proof.
  unfold String.leb. destruct (String.compare s1 s2); split;
    intros H; congruence.
Qed.

Lemma string_leb_trans (s1 s2 s3 : string) :
  String.leb s1 s2 = true -> String.leb s2 s3 = true ->
  String.leb s1 s3 = true.
Proof.
  rewrite !string_leb_compare. revert s2 s3.
  induction s1 as [| a s1 IH]; intros [| b s2] [| c s3]; cbn [String.compare];
    try congruence.
  rewrite !ascii_compare_N.
  destruct (N.compare_spec (N_of_ascii a) (N_of_ascii b)) as [Hab | Hab | Hab];
    destruct (N.compare_spec (N_of_ascii b) (N_of_ascii c)) as [Hbc | Hbc | Hbc];
    try congruence; intros H12 H23.
  - rewrite Hab, Hbc, N.compare_refl. exact (IH _ _ H12 H23).
  - rewrite Hab, (proj2 (N.compare_lt_iff _ _) Hbc). discriminate.
  - rewrite <- Hbc, (proj2 (N.compare_lt_iff _ _) Hab). discriminate.
  - rewrite (proj2 (N.compare_lt_iff _ _) (N.lt_trans _ _ _ Hab Hbc)).
    discriminate.
Qed.

Lemma string_leb_false (s1 s2 : string) :
  String.leb s1 s2 = false -> String.leb s2 s1 = true.
Proof.
  intros H. destruct (String.leb_total s1 s2) as [H' | H']; congruence.
Qed.

(** Two items with different keys are put in place in either order. *)
Lemma insert_item_swap (x y : string * json) (l : dict) :
  fst x <> fst y ->
  insert_item x (insert_item y l) = insert_item y (insert_item x l).
Proof.
  intros Hne. induction l as [| z l IH]; cbn [insert_item].
  - destruct (String.leb (fst x) (fst y)) eqn:Hxy;
      destruct (String.leb (fst y) (fst x)) eqn:Hyx; try reflexivity.
    + destruct Hne. apply String.leb_antisym; assumption.
    + apply string_leb_false in Hxy. congruence.
  - destruct (String.leb (fst y) (fst z)) eqn:Hyz;
      destruct (String.leb (fst x) (fst z)) eqn:Hxz; cbn [insert_item];
      rewrite ?Hyz, ?Hxz.
    + destruct (String.leb (fst x) (fst y)) eqn:Hxy;
        destruct (String.leb (fst y) (fst x)) eqn:Hyx; try reflexivity.
      * destruct Hne. apply String.leb_antisym; assumption.
      * apply string_leb_false in Hxy. congruence.
    + assert (Hxy : String.leb (fst x) (fst y) = false).
      { destruct (String.leb (fst x) (fst y)) eqn:Hxy; [| reflexivity].
        rewrite (string_leb_trans _ _ _ Hxy Hyz) in Hxz. discriminate. }
      rewrite Hxy. cbn [insert_item]. rewrite ?Hxz, ?Hyz. reflexivity.
    + assert (Hyx : String.leb (fst y) (fst x) = false).
      { destruct (String.leb (fst y) (fst x)) eqn:Hyx; [| reflexivity].
        rewrite (string_leb_trans _ _ _ Hyx Hxz) in Hyz. discriminate. }
      rewrite Hyx. cbn [insert_item]. rewrite ?Hxz, ?Hyz. reflexivity.
    + f_equal. exact IH.
Qed.

Lemma sorted_items_perm (params params' : dict) :
  params ≡ₚ params' ->
  NoDup (map fst params) ->
  sorted_items params = sorted_items params'.
Proof.
  induction 1 as [| x l l' Hp IH | x y l | l l' l'' Hp IH Hp' IH'];
    intros Hnd.
  - reflexivity.
  - cbn [sorted_items fold_right]. f_equal. apply IH.
    cbn [map] in Hnd. apply NoDup_cons in Hnd. apply Hnd.
  - cbn [sorted_items fold_right]. apply insert_item_swap.
    cbn [map] in Hnd. apply NoDup_cons in Hnd. destruct Hnd as [Hnin _].
    intros Heq. apply Hnin. rewrite Heq. left.
  - rewrite IH by exact Hnd. apply IH'.
    pose proof (Permutation_map fst Hp) as Hm.
    rewrite <- Hm. exact Hnd.
Qed.

(** X17. The query hash does not depend on the order in which the
    parameters were put into the [dict]: two dicts with the same items
    give the same hash. *)
Theorem query_hash_ignores_order
    (sha512_hexdigest : string -> string) (urlencode : dict -> string)
    (params params' : dict) :
  NoDup (map fst params) ->
  params ≡ₚ params' ->
  create_query_hash sha512_hexdigest urlencode params =
  create_query_hash sha512_hexdigest urlencode params'.
Proof.
  intros Hnd Hp. unfold create_query_hash.
  rewrite (sorted_items_perm _ _ Hp Hnd). reflexivity.
Qed.

Lemma query_hash_ignores_order_witness :
  create_query_hash sample_digest sample_urlencode
    [("market", JStr "KRW-BTC"); ("count", JInt 10)] =
  create_query_hash sample_digest sample_urlencode
    [("count", JInt 10); ("market", JStr "KRW-BTC")].
Proof.
  apply query_hash_ignores_order.
  - cbn [map fst]. apply NoDup_cons. split.
    + intros Hin. inversion Hin as [| ? ? ? Hin']. inversion Hin'.
    + apply NoDup_singleton.
  - apply perm_swap.
Defined.

(** ** The payload *)

(** X18. When a non-empty body is given, the token is signed over the
    hash of the body alone: the query parameters passed with it leave no
    trace in the token. *)
Theorem body_hash_replaces_query_hash
    (sha512_hexdigest : string -> string) (urlencode : dict -> string)
    (json_dumps : bool -> json -> string)
    (urlsafe_b64encode : string -> string)
    (hmac_sha256 : string -> string -> string)
    (access_key secret_key : string) (query_params : option dict)
    (body : dict) (nonce : string) (timestamp : Z) :
  nonempty (Some body) = true ->
  generate_jwt_token sha512_hexdigest urlencode json_dumps urlsafe_b64encode
    hmac_sha256 access_key secret_key query_params (Some body) nonce timestamp =
  generate_jwt_token sha512_hexdigest urlencode json_dumps urlsafe_b64encode
    hmac_sha256 access_key secret_key None (Some body) nonce timestamp
  /\ dict_get (jwt_payload sha512_hexdigest urlencode json_dumps access_key
                 query_params (Some body) nonce timestamp) "query_hash" =
     Some (JStr (create_body_hash sha512_hexdigest json_dumps body)).
Proof.
  intros Hb.
  assert (Hpay :
    jwt_payload sha512_hexdigest urlencode json_dumps access_key query_params
      (Some body) nonce timestamp =
    jwt_payload sha512_hexdigest urlencode json_dumps access_key None
      (Some body) nonce timestamp).
  { destruct body as [| b bs]; [discriminate |].
    destruct query_params as [[| q qs] |]; reflexivity. }
  split.
  - unfold generate_jwt_token. rewrite Hpay. reflexivity.
  - rewrite Hpay. destruct body as [| b bs]; [discriminate | reflexivity].
Qed.

Lemma body_hash_replaces_query_hash_witness :
  generate_jwt_token sample_digest sample_urlencode sample_dumps sample_b64
    sample_hmac "ak" "sk" (Some [("market", JStr "KRW-BTC")])
    (Some [("side", JStr "bid")]) "n-1" 1700000000000 =
  generate_jwt_token sample_digest sample_urlencode sample_dumps sample_b64
    sample_hmac "ak" "sk" None (Some [("side", JStr "bid")]) "n-1"
    1700000000000.
Proof.
  apply (body_hash_replaces_query_hash sample_digest sample_urlencode
           sample_dumps sample_b64 sample_hmac "ak" "sk"
           (Some [("market", JStr "KRW-BTC")]) [("side", JStr "bid")] "n-1"
           1700000000000).
  reflexivity.
Defined.

End AuthFacts.

(** * Properties of the HTTP client *)

Module ClientFacts.

Import Limiter History Stream Client LimiterFacts LimiterMore.
Local Open Scope list_scope.

(** ** The limiter of a path *)

Lemma startswith_trans (q : string) :
  forall s p, startswith s p = true -> startswith p q = true ->
              startswith s q = true.
Proof.
  induction q as [| c q IH]; intros s p Hsp Hpq; [reflexivity |].
  destruct p as [| b p]; [discriminate |].
  destruct s as [| a s]; [discriminate |].
  cbn [startswith] in *.
  apply andb_true_iff in Hsp. destruct Hsp as [Hba Hsp].
  apply andb_true_iff in Hpq. destruct Hpq as [Hcb Hpq].
  apply Ascii.eqb_eq in Hba. apply Ascii.eqb_eq in Hcb. subst.
  rewrite Ascii.eqb_refl. cbn [andb]. exact (IH _ _ Hsp Hpq).
Qed.

(** X19. A path is served by the exchange limiter exactly when it starts
    with [/v1/order], [/v1/accounts], [/v1/withdraw] or [/v1/deposit];
    every other path is served by the quotation limiter. The three
    plural prefixes of the table add nothing. *)
Theorem exchange_limiter_paths (path : string) :
  (get_limiter_for_path path = Exchange <->
   startswith path "/v1/order" = true \/ startswith path "/v1/accounts" = true
   \/ startswith path "/v1/withdraw" = true
   \/ startswith path "/v1/deposit" = true)
  /\ (get_limiter_for_path path = Quotation <->
      startswith path "/v1/order" = false
      /\ startswith path "/v1/accounts" = false
      /\ startswith path "/v1/withdraw" = false
      /\ startswith path "/v1/deposit" = false).
Proof.
  unfold get_limiter_for_path, EXCHANGE_PREFIXES. cbn [existsb].
  pose proof (fun H => startswith_trans "/v1/order" path "/v1/orders" H eq_refl)
    as Ho.
  pose proof (fun H =>
                startswith_trans "/v1/withdraw" path "/v1/withdraws" H eq_refl)
    as Hw.
  pose proof (fun H =>
                startswith_trans "/v1/deposit" path "/v1/deposits" H eq_refl)
    as Hd.
  destruct (startswith path "/v1/order"), (startswith path "/v1/accounts"),
    (startswith path "/v1/withdraw"), (startswith path "/v1/deposit");
    destruct (startswith path "/v1/orders");
    try (specialize (Ho eq_refl); discriminate Ho);
    destruct (startswith path "/v1/withdraws");
    try (specialize (Hw eq_refl); discriminate Hw);
    destruct (startswith path "/v1/deposits");
    try (specialize (Hd eq_refl); discriminate Hd);
    cbn [orb]; intuition congruence.
Qed.

(** ** What the requests keep *)

Lemma set_limiter_same (c : t) (w : which) : set_limiter c w (limiter c w) = c.
Proof. destruct c, w; reflexivity. Qed.

Lemma limiter_set (c : t) (w : which) (l : Limiter.t) :
  limiter (set_limiter c w l) w = l.
Proof. destruct w; reflexivity. Qed.

Lemma limiter_set_other (c : t) (w w' : which) (l : Limiter.t) :
  w <> w' -> limiter (set_limiter c w l) w' = limiter c w'.
Proof. destruct w, w'; intros H; try reflexivity; destruct H; reflexivity. Qed.

Lemma kept_refl (c : t) :
  (forall w, 0 <= retry_count (limiter c w) <= max_retries (limiter c w)) ->
  kept c c.
Proof.
  intros H. repeat split; try apply H.
Qed.

Lemma kept_set (c0 c : t) (w : which) (l : Limiter.t) :
  kept c0 c -> settled (limiter c0 w) l -> kept c0 (set_limiter c w l).
Proof.
  intros (Ha & Hs & Hl) Hw. split; [| split].
  - destruct w; exact Ha.
  - destruct w; exact Hs.
  - intros w'. destruct w, w'; cbn [limiter set_limiter];
      solve [exact Hw | apply (Hl Quotation) | apply (Hl Exchange)].
Qed.

Lemma settled_update (s0 s s' : Limiter.t) (headers : gmap string string) :
  settled s0 s -> update_from_headers s headers = Ok s' -> settled s0 s'.
Proof.
  intros Hs Hu. destruct (update_returns s headers) as (s1 & Hs1 & Hback).
  rewrite Hu in Hs1. injection Hs1 as <-. rewrite <- Hback in Hs. exact Hs.
Qed.

Section WithFloat.

Variable float_parses : string -> bool.

Let update_limiter_from_response := update_limiter_from_response.
Let sync_request := sync_request float_parses.
Let async_request := async_request float_parses.
Let after_requests := after_requests float_parses.

Lemma update_response_returns (c : t) (r : response) (path : string) :
  exists c', update_limiter_from_response c r path = Ok c'.
Proof.
  unfold update_limiter_from_response, Client.update_limiter_from_response.
  destruct (update_returns (limiter c (get_limiter_for_path path))
              (headers_dict r)) as (s' & -> & _).
  eexists. reflexivity.
Qed.

Lemma kept_update (c0 c c' : t) (r : response) (path : string) :
  kept c0 c ->
  update_limiter_from_response c r path = Ok c' ->
  kept c0 c'.
Proof.
  unfold update_limiter_from_response, Client.update_limiter_from_response.
  intros Hk.
  destruct (update_from_headers _ _) as [s' | e] eqn:Hu; [| discriminate].
  cbn [Py.bind]. intros [= <-]. apply kept_set; [exact Hk |].
  eapply settled_update; [| exact Hu]. apply Hk.
Qed.

Lemma kept_sync (c0 c : t) (path : string) (answer : awaited response) :
  kept c0 c -> kept c0 (snd (sync_request c path answer)).
Proof.
  intros Hk. unfold sync_request, Client.sync_request.
  destruct answer as [r | e]; [| exact Hk].
  destruct (Client.update_limiter_from_response c r path) as [c2 | e] eqn:Hu;
    [| exact Hk].
  pose proof (kept_update _ _ _ _ _ Hk Hu) as Hk2.
  destruct (handle_error_response float_parses r); exact Hk2.
Qed.

Lemma kept_async (c0 c : t) (path : string) (depth : nat)
    (ticks : list tick) (answer : awaited response) :
  (forall w, 0 <= max_retries (limiter c0 w)) ->
  kept c0 c -> kept c0 (snd (async_request c path depth ticks answer)).
Proof.
  intros H0 Hk. unfold async_request, Client.async_request.
  set (w := get_limiter_for_path path).
  assert (Hw : settled (limiter c0 w)
                 (outcome_state (wait_if_needed depth (limiter c w) ticks))).
  { apply settled_wait; [apply H0 | apply Hk]. }
  destruct (wait_if_needed depth (limiter c w) ticks)
    as [l sl | e l sl | l sl];
    cbn [outcome_state] in Hw; cbn [snd];
    pose proof (kept_set _ _ w l Hk Hw) as Hk1; try exact Hk1.
  destruct answer as [r | e]; [| exact Hk1].
  destruct (Client.update_limiter_from_response _ r path) as [c2 | e] eqn:Hu;
    [| exact Hk1].
  pose proof (kept_update _ _ _ _ _ Hk1 Hu) as Hk2.
  destruct (handle_error_response float_parses r); exact Hk2.
Qed.

Lemma kept_requests (qs : list request) :
  forall c0 c,
    (forall w, 0 <= max_retries (limiter c0 w)) ->
    kept c0 c -> kept c0 (after_requests c qs).
Proof.
  induction qs as [| q qs IH]; intros c0 c H0 Hk; [exact Hk |].
  unfold after_requests, Client.after_requests. cbn [fold_left].
  apply IH; [exact H0 |].
  destruct q as [path depth ticks answer | path answer]; cbn [after_request].
  - apply kept_async; assumption.
  - apply kept_sync; assumption.
Qed.

Lemma kept_init (ak sk : option string) (qs : list request) :
  kept (init ak sk) (after_requests (init ak sk) qs).
Proof.
  apply kept_requests.
  - intros []; cbn; lia.
  - apply kept_refl. intros []; cbn; lia.
Qed.

(** X20. Whatever requests a client has made and however they ended, it
    still holds the credentials it was created with, and its two
    limiters still have the groups, the capacities (30 and 8 a second)
    and the auto-retry setting that [__init__] gave them. *)
Theorem client_settings_kept (ak sk : option string) (qs : list request)
    (w : which) :
  let c := after_requests (init ak sk) qs in
  access_key c = ak /\ secret_key c = sk
  /\ group_name (limiter c w) = group_of w
  /\ max_requests (limiter c w) = capacity_of w
  /\ auto_retry (limiter c w) = true.
Proof.
  destruct (kept_init ak sk qs) as (Ha & Hs & Hl).
  destruct (Hl w) as (Hg & Hm & Hr & _).
  cbn zeta. rewrite Ha, Hs, Hg, Hm, Hr. destruct w; repeat split.
Qed.

(** X21. A response changes the state of a client only if its quota
    header parses and names the group [quotation] or [exchange] of the
    limiter that serves the path. A header for any other group, such as
    the groups the service itself reports, leaves both limiters as they
    were. *)
Theorem only_own_group_updates (ak sk : option string) (qs : list request)
    (r : response) (path : string) (c' : t) :
  let c := after_requests (init ak sk) qs in
  update_limiter_from_response c r path = Ok c' ->
  c' <> c ->
  exists (h : string) (parsed : gmap string pyval),
    remaining_req_header (headers_dict r) = Some h
    /\ parse_remaining_req h = Ok parsed
    /\ parsed !! "group" = Some (PStr (group_of (get_limiter_for_path path))).
Proof.
  cbn zeta. set (c := after_requests (init ak sk) qs).
  destruct (kept_init ak sk qs) as (_ & _ & Hl). fold c in Hl.
  unfold update_limiter_from_response, Client.update_limiter_from_response.
  set (w := get_limiter_for_path path).
  destruct (Hl w) as (Hg & _).
  assert (Hgw : group_name (limiter c w) = group_of w).
  { rewrite Hg. destruct w; reflexivity. }
  unfold update_from_headers.
  destruct (remaining_req_header (headers_dict r)) as [h |] eqn:Hh;
    [| cbn [Py.bind]; intros [= <-] Hne; destruct Hne; apply set_limiter_same].
  destruct (is_empty h);
    [cbn [Py.bind]; intros [= <-] Hne; destruct Hne; apply set_limiter_same |].
  destruct (parse_remaining_req h) as [parsed | e] eqn:Hp.
  - rewrite (update_try_ok _ _ _ Hp).
    destruct (pyval_eq_str (parsed !! "group") (group_name (limiter c w)))
      eqn:Heq.
    + intros _ _. exists h, parsed. repeat split; try assumption.
      apply pyval_eq_str_spec in Heq. rewrite Heq, Hgw. reflexivity.
    + cbn [Py.bind]. intros [= <-] Hne. destruct Hne. apply set_limiter_same.
  - unfold update_try. rewrite Hp. cbn [Py.bind].
    destruct (parse_raises _ _ Hp) as [msg ->].
    cbn [Py.bind]. intros [= <-] Hne. destruct Hne. apply set_limiter_same.
Qed.

(** ** How a request ends *)

Lemma handle_error_cases (r : response) :
  (is_success r = true /\ handle_error_response float_parses r = None)
  \/ (is_success r = false
      /\ exists e, handle_error_response float_parses r = Some e
                   /\ class_of e = get_exception_for_status (status_code r)).
Proof.
  unfold handle_error_response.
  destruct (is_success r); [left; split; reflexivity | right].
  split; [reflexivity |].
  destruct (error_details r) as [error_name error_message].
  destruct (get_exception_for_status (status_code r));
    eexists; split; reflexivity.
Qed.

Lemma is_success_range (r : response) :
  is_success r = true <-> 200 <= status_code r <= 299.
Proof. unfold is_success. lia. Qed.

Lemma sync_outcome (c : t) (path : string) (r : response) :
  (is_success r = true /\ fst (sync_request c path (Done r)) = Responded r)
  \/ (is_success r = false
      /\ exists e,
           fst (sync_request c path (Done r)) = Failed e
           /\ class_of e = get_exception_for_status (status_code r)).
Proof.
  unfold sync_request, Client.sync_request.
  destruct (update_response_returns c r path) as [c2 Hu].
  unfold update_limiter_from_response in Hu. rewrite Hu.
  destruct (handle_error_cases r) as [[Hs ->] | (Hs & e & -> & He)].
  - left. split; [exact Hs | reflexivity].
  - right. split; [exact Hs |]. exists e. split; [reflexivity | exact He].
Qed.

(** X22. A request that got a response ends in one of two ways, decided
    by the status alone: the response is returned for a status from 200
    to 299; for any other status an exception of the class chosen by
    [get_exception_for_status] is raised. The headers of the response,
    however malformed, never make the request fail. *)
Theorem status_decides_outcome (c : t) (path : string) (r : response) :
  (200 <= status_code r <= 299
   /\ fst (sync_request c path (Done r)) = Responded r)
  \/ (~ 200 <= status_code r <= 299
      /\ exists e,
           fst (sync_request c path (Done r)) = Failed e
           /\ class_of e = get_exception_for_status (status_code r)).
Proof.
  destruct (sync_outcome c path r) as [[Hs Hr] | (Hs & e & Hr & He)].
  - left. split; [apply is_success_range; exact Hs | exact Hr].
  - right. split.
    + intros Hr'. apply is_success_range in Hr'. congruence.
    + exists e. split; assumption.
Qed.

(** X23. The class of the exception for an error response: 401 and 403
    give [UpbitAuthError], 429 gives [UpbitRateLimitError], any other
    status from 400 to 599 gives [UpbitAPIError], and a status that is
    neither a success nor in that range (1xx, 3xx, 600 and above) gives
    the base [UpbitError]. *)
Theorem error_class_by_status (r : response) (e : http_error) :
  handle_error_response float_parses r = Some e ->
  (class_of e = UpbitAuthErrorClass <->
   status_code r = 401 \/ status_code r = 403)
  /\ (class_of e = UpbitRateLimitErrorClass <-> status_code r = 429)
  /\ (class_of e = UpbitAPIErrorClass <->
      400 <= status_code r < 600 /\ status_code r <> 401
      /\ status_code r <> 403 /\ status_code r <> 429)
  /\ (class_of e = UpbitErrorClass <->
      status_code r < 200 \/ 300 <= status_code r < 400
      \/ 600 <= status_code r).
Proof.
  intros He.
  destruct (handle_error_cases r) as [[_ Hn] | (Hs & e' & He' & Hc)];
    [congruence |].
  rewrite He in He'. injection He' as <-. rewrite Hc.
  assert (Hr : ~ 200 <= status_code r <= 299).
  { intros Hr. apply is_success_range in Hr. congruence. }
  unfold get_exception_for_status.
  destruct (status_code r =? 401) eqn:H401;
    destruct (status_code r =? 403) eqn:H403;
    destruct (status_code r =? 429) eqn:H429;
    destruct (400 <=? status_code r) eqn:H400;
    destruct (status_code r <? 600) eqn:H600;
    cbn [orb andb]; repeat split; intros; try discriminate; try lia.
Qed.

(** ** Requests and the limiter *)

(** X24. Once the limiter that serves a path has been told that no
    request is left in the second, an async request for such a path is
    never sent, whatever the clock reads and as long as only other
    requests touch the limiter: it waits in the limiter while the
    recursion limit leaves room for another sleep, and then fails with
    the [RecursionError] of the limiter. The transport is not reached
    in either case: the answer it would give does not matter. *)
Theorem used_up_quota_blocks_async (ak sk : option string)
    (qs : list request) (path : string) (depth : nat) (ticks : list tick)
    (answer : awaited response) (n : Z) :
  let c := after_requests (init ak sk) qs in
  remaining (limiter c (get_limiter_for_path path)) = Some n ->
  n <= 0 ->
  Forall only_concurrent ticks ->
  ((length ticks <= depth)%nat ->
   fst (async_request c path depth ticks answer) = Waiting)
  /\ ((depth < length ticks)%nat ->
      fst (async_request c path depth ticks answer) = Aborted RecursionError)
  /\ (forall answer',
        async_request c path depth ticks answer'
        = async_request c path depth ticks answer).
Proof.
  cbn zeta. set (c := after_requests (init ak sk) qs).
  intros Hrem Hn Hall.
  unfold async_request, Client.async_request.
  set (w := get_limiter_for_path path) in *.
  destruct (kept_init ak sk qs) as (_ & _ & Hl). fold c in Hl.
  destruct (Hl w) as (_ & Hm & Ha & _).
  assert (Hauto : auto_retry (limiter c w) = true).
  { rewrite Ha. destruct w; reflexivity. }
  assert (Hlim : effective_limit (limiter c w) <= 0).
  { unfold effective_limit. rewrite Hrem.
    destruct (n <? max_requests (limiter c w)) eqn:Hlt; [exact Hn |].
    apply Z.ltb_ge in Hlt. lia. }
  destruct (exhausted_suspends ticks depth _ [] Hauto Hlim Hall)
    as (s' & sl & Hrun & _).
  unfold wait_if_needed. rewrite Hrun.
  split; [| split].
  - intros Hd. apply Nat.leb_le in Hd. rewrite Hd. reflexivity.
  - intros Hd. apply Nat.leb_gt in Hd. rewrite Hd. reflexivity.
  - intros answer'. destruct (length ticks <=? depth)%nat; reflexivity.
Qed.

End WithFloat.

Lemma only_own_group_updates_witness :
  exists (h : string) (parsed : gmap string pyval),
    remaining_req_header
      (headers_dict
         (mk_response 200 None "" None
            {[ "remaining-req" := "group=exchange; min=100; sec=3" ]})) =
    Some h
    /\ parse_remaining_req h = Ok parsed
    /\ parsed !! "group" = Some (PStr "exchange").
Proof.
  apply (only_own_group_updates sample_float None None []
           (mk_response 200 None "" None
              {[ "remaining-req" := "group=exchange; min=100; sec=3" ]})
           "/v1/orders"
           (set_limiter (init None None) Exchange
              (set_remaining (exchange_limiter (init None None)) (Some 3)))).
  - vm_compute. reflexivity.
  - vm_compute. intros H. discriminate H.
Defined.

Lemma error_class_by_status_witness :
  class_of (BaseError "Upbit error: " (HttpStatus 302)) = UpbitErrorClass <->
  302 < 200 \/ 300 <= 302 < 400 \/ 600 <= 302.
Proof.
  apply (error_class_by_status sample_float
           (mk_response 302 None "" None ∅)
           (BaseError "Upbit error: " (HttpStatus 302))).
  vm_compute. reflexivity.
Defined.

Lemma used_up_quota_blocks_async_witness :
  fst (async_request sample_float
         (after_requests sample_float (init None None)
            [Sync "/v1/orders"
               (Done (mk_response 429 None "" None
                        {[ "remaining-req" := "group=exchange; min=0; sec=0" ]}))])
         "/v1/order" 980 [mk_tick 10 []; mk_tick 12 [Concurrent 11]]
         (Done (mk_response 200 None "" None ∅))) = Waiting.
Proof.
  refine (proj1 (used_up_quota_blocks_async sample_float None None
                   [Sync "/v1/orders"
                      (Done (mk_response 429 None "" None
                               {[ "remaining-req" :=
                                    "group=exchange; min=0; sec=0" ]}))]
                   "/v1/order" 980%nat
                   [mk_tick 10 []; mk_tick 12 [Concurrent 11]]
                   (Done (mk_response 200 None "" None ∅)) 0 _ _ _) _).
  - vm_compute. reflexivity.
  - lia.
  - repeat constructor.
  - cbn [length]. lia.
Defined.

End ClientFacts.
